(** * LLPE integrator: a shallow embedding of the speculative analyser

    The development follows the source files of the integrator:
    - [HypotheticalConstantFolder.cpp]: block liveness ([checkBlock]),
      PHI evaluation ([getPHINodeValue]), symbolic file-descriptor
      comparisons ([tryFoldOpenCmp]), the evaluator ([tryEvaluateResult])
      and dead-instruction elimination ([shouldDIE], [tryKillValue]);
    - [IAWalkers.cpp]: the two-buffer cross-context walkers;
    - [LoopPeelHeuristics.cpp]: the inline-attempt return value search;
    - [BasicAliasAnalysis.cpp]: [aliasGEP] and [GetIndexDifference];
    - [DOT.cpp]: the escaping of the graph output.

    Pointers become handles: blocks, loops and contexts are natural
    numbers, a nullable pointer is an [option].  A per-context table
    ([DenseMap], [SmallSet]) is a [gmap] or a [gset]. *)

From Stdlib Require Import ZArith List Bool Lia Ascii.
From stdpp Require Import base decidable countable gmap sets list.

(** ** The IR object model consumed from the host toolchain *)

Abbreviation Block := nat.
Abbreviation Loop := nat.
Abbreviation Ctx := nat.

(** [llvm::Value] with the part of its class hierarchy that the integrator
    inspects through [isa<>] and [dyn_cast<>]. *)
Inductive Value :=
| Argument (n : nat)
| Instruction (n : nat)
| ConstantInt (w : N) (v : Z)
| Constant (n : nat)
| OtherValue (n : nat).

#[global] Instance Value_eq_dec : EqDecision Value.
Proof. solve_decision. Defined.

Definition Value_encode (V : Value) : nat + (nat + (N * Z + (nat + nat))) :=
  match V with
  | Argument n => inl n
  | Instruction n => inr (inl n)
  | ConstantInt w v => inr (inr (inl (w, v)))
  | Constant n => inr (inr (inr (inl n)))
  | OtherValue n => inr (inr (inr (inr n)))
  end.

Definition Value_decode (x : nat + (nat + (N * Z + (nat + nat)))) : Value :=
  match x with
  | inl n => Argument n
  | inr (inl n) => Instruction n
  | inr (inr (inl (w, v))) => ConstantInt w v
  | inr (inr (inr (inl n))) => Constant n
  | inr (inr (inr (inr n))) => OtherValue n
  end.

#[global] Instance Value_countable : Countable Value.
Proof.
  apply (inj_countable' Value_encode Value_decode).
  intros []; reflexivity.
Defined.

(** [isa<Constant>(V)] *)
Definition isConstant (V : Value) : bool :=
  match V with
  | ConstantInt _ _ | Constant _ => true
  | _ => false
  end.

(** [isa<Instruction>(V)] *)
Definition isInstruction (V : Value) : bool :=
  match V with
  | Instruction _ => true
  | _ => false
  end.

(** Opcodes of [llvm/Instruction.def]; the arithmetic, cast, vector and
    aggregate families are one constructor each, the integrator never
    tells their members apart. *)
Inductive Opcode :=
| Ret | Br | Switch | IndirectBr | Invoke | Unwind | Unreachable
| BinaryOp
| Alloca | Load | Store | GetElementPtr
| CastOp
| ICmp | FCmp | PHI | Call | Select | UserOp | VAArg
| VectorOp | AggregateOp.

#[global] Instance Opcode_eq_dec : EqDecision Opcode.
Proof. solve_decision. Defined.

(** [CmpInst::Predicate] *)
Inductive Predicate :=
| FCMP_FALSE | FCMP_OEQ | FCMP_OGT | FCMP_OGE | FCMP_OLT | FCMP_OLE
| FCMP_ONE | FCMP_ORD | FCMP_UNO | FCMP_UEQ | FCMP_UGT | FCMP_UGE
| FCMP_ULT | FCMP_ULE | FCMP_UNE | FCMP_TRUE
| ICMP_EQ | ICMP_NE | ICMP_UGT | ICMP_UGE | ICMP_ULT | ICMP_ULE
| ICMP_SGT | ICMP_SGE | ICMP_SLT | ICMP_SLE.

#[global] Instance Predicate_eq_dec : EqDecision Predicate.
Proof. solve_decision. Defined.

Inductive Ty :=
| IntegerTy (bits : N)
| PointerTy
| VoidTy
| OtherTy.

Definition isPointerTy (T : Ty) : bool :=
  match T with PointerTy => true | _ => false end.

Definition isIntegerTy (n : N) (T : Ty) : bool :=
  match T with IntegerTy m => N.eqb m n | _ => false end.

Definition isVoidTy (T : Ty) : bool :=
  match T with VoidTy => true | _ => false end.

(** A function under analysis together with its [LoopInfo].  Nothing in
    the analyser writes to this record. *)
Record Program := {
  (* Function *)
  fblocks : list Block;                       (* F.begin() .. F.end() *)
  fentry : Block;                             (* F.getEntryBlock() *)
  freturnType : Ty;                           (* F.getReturnType() *)
  (* BasicBlock *)
  preds : Block -> list Block;                (* pred_begin .. pred_end *)
  succs : Block -> list Block;                (* succ_begin .. succ_end *)
  insts : Block -> list Value;                (* BB->begin() .. BB->end() *)
  (* Instruction *)
  getOpcode : Value -> Opcode;
  getParent : Value -> Block;
  getType : Value -> Ty;
  getOperands : Value -> list Value;
  getPredicate : Value -> Predicate;          (* CmpInst *)
  getCondition : Value -> Value;              (* BranchInst, SwitchInst, SelectInst *)
  getTrueValue : Value -> Value;              (* SelectInst *)
  getFalseValue : Value -> Value;
  getSrcTy : Value -> Ty;                     (* CastInst *)
  getDestTy : Value -> Ty;
  findCaseValue : Value -> Value -> nat;      (* SwitchInst *)
  getReturnValue : Value -> Value;            (* ReturnInst *)
  getIncomingValueForBlock : Value -> Block -> Value;   (* PHINode *)
  mayHaveSideEffects : Value -> bool;
  (* LoopInfo *)
  getLoopFor : Block -> option Loop;
  getHeader : Loop -> Block;
  getLoopPreheader : Loop -> Block;
  getLoopLatch : Loop -> Block;
  getExitEdges : Loop -> list (Block * Block);
  getParentLoop : Loop -> option Loop;
  containsBlock : Loop -> Block -> bool;      (* L->contains(BB) *)
  contains : Loop -> option Loop -> bool      (* L->contains(Loop) *)
}.

(** [isa<CallInst>(V)], [isa<PHINode>(V)], ... *)
Definition hasOpcode (P : Program) (op : Opcode) (V : Value) : bool :=
  isInstruction V && bool_decide (getOpcode P V = op).

(** [L->contains(X)] through a nullable receiver.  The member function
    compares its argument with [this] and then climbs the argument's parent
    chain, so with a null receiver the climb ends at [null == this]. *)
Definition containsN (P : Program) (L : option Loop) (X : option Loop) : bool :=
  match L with
  | Some l => contains P l X
  | None => true
  end.

(** ** Value-context pairs *)

(** [ValCtx] is [std::pair<Value*, IntegrationAttempt*>]. *)
Abbreviation ValCtx := (option Value * option Ctx)%type.

Definition VCNull : ValCtx := (None, None).
Definition make_vc (V : Value) (C : Ctx) : ValCtx := (Some V, Some C).
Definition const_vc (C : Value) : ValCtx := (Some C, None).

(** [ConstantInt::getTrue], [ConstantInt::getFalse] *)
Definition getTrue : Value := ConstantInt 1 1.
Definition getFalse : Value := ConstantInt 1 0.

(** [APInt::getSExtValue] of a constant of at most 64 bits. *)
Definition getSExtValue (w : N) (v : Z) : Z :=
  let m := (v mod 2 ^ Z.of_N w)%Z in
  if Z.testbit m (Z.of_N w - 1) then (m - 2 ^ Z.of_N w)%Z else m.

(** [ConstantInt::isZero] *)
Definition isZero (V : Value) : bool :=
  match V with
  | ConstantInt w v => (v mod 2 ^ Z.of_N w =? 0)%Z
  | _ => false
  end.

(** ** Symbolic file descriptors: [tryFoldOpenCmp] *)

(** The [if(flip)] switch of [tryFoldOpenCmp]. *)
Definition flipPredicate (Pred : Predicate) : Predicate :=
  match Pred with
  | ICMP_SGT => ICMP_SLT
  | ICMP_SGE => ICMP_SLE
  | ICMP_SLT => ICMP_SGT
  | ICMP_SLE => ICMP_SGE
  | _ => Pred
  end.

Definition tryFoldOpenCmp (P : Program) (CmpI : Value) (w : N) (v : Z) (flip : bool)
  : ValCtx :=
  if (64 <? w)%N then VCNull
  else
    let Pred := getPredicate P CmpI in
    let Pred := if flip then flipPredicate Pred else Pred in
    let CmpVal := getSExtValue w v in
    match Pred with
    | ICMP_EQ => if (CmpVal <? 0)%Z then const_vc getFalse else VCNull
    | ICMP_NE => if (CmpVal <? 0)%Z then const_vc getTrue else VCNull
    | ICMP_SGT => if (CmpVal <? 0)%Z then const_vc getTrue else VCNull
    | ICMP_SGE => if (CmpVal <=? 0)%Z then const_vc getTrue else VCNull
    | ICMP_SLT => if (CmpVal <=? 0)%Z then const_vc getFalse else VCNull
    | ICMP_SLE => if (CmpVal <? 0)%Z then const_vc getFalse else VCNull
    | _ => VCNull
    end.


Definition handleCmpSpec (Pred : Predicate) (c : Z) : option bool :=
  match Pred with
  | ICMP_EQ => if decide (c < 0)%Z then Some false else None
  | ICMP_NE => if decide (c < 0)%Z then Some true else None
  | ICMP_SGT => if decide (c < 0)%Z then Some true else None
  | ICMP_SGE => if decide (c <= 0)%Z then Some true else None
  | ICMP_SLT => if decide (c <= 0)%Z then Some false else None
  | ICMP_SLE => if decide (c < 0)%Z then Some false else None
  | _ => None
  end.



(** Signed comparison of a handle value [h] with [c], for the soundness
    statement of the fold. *)
Definition evalSignedCmp (Pred : Predicate) (h c : Z) : option bool :=
  match Pred with
  | ICMP_EQ => Some (h =? c)%Z
  | ICMP_NE => Some (negb (h =? c)%Z)
  | ICMP_SGT => Some (c <? h)%Z
  | ICMP_SGE => Some (c <=? h)%Z
  | ICMP_SLT => Some (h <? c)%Z
  | ICMP_SLE => Some (h <=? c)%Z
  | _ => None
  end.


(** ** Contexts and their tables *)

(** [enum IterationStatus] of the absent header. *)
Inductive IterationStatus :=
| IterationStatusUnknown
| IterationStatusFinal
| IterationStatusNonFinal.

#[global] Instance IterationStatus_eq_dec : EqDecision IterationStatus.
Proof. solve_decision. Defined.

(** One entry of [PeelAttempt::Iterations] as another context reads it:
    the iteration's handle and its [iterStatus]. *)
Record PeelIterationRef := {
  iterCtx : Ctx;
  iterStatusOf : IterationStatus
}.

(** A [PeelAttempt] is built together with iteration 0, so the vector
    [Iterations] is never empty and [Iterations[size - 1]] is defined. *)
Record PeelAttempt := {
  firstIteration : PeelIterationRef;
  laterIterations : list PeelIterationRef
}.

Definition Iterations (PA : PeelAttempt) : list PeelIterationRef :=
  firstIteration PA :: laterIterations PA.

(** [PA->Iterations[PA->Iterations.size() - 1]] *)
Definition lastIteration (PA : PeelAttempt) : PeelIterationRef :=
  List.last (laterIterations PA) (firstIteration PA).

(** The two concrete classes below [IntegrationAttempt]: their immutable
    members. *)
Inductive AttemptKind :=
| InlineAttempt (parent : option Ctx) (CI : option Value)
| PeelIteration (L : Loop) (iterationCount : nat) (parent : Ctx)
    (parentPA : list Ctx).

Record Attempt := {
  self : Ctx;                            (* this *)
  kind : AttemptKind;
  (* getDefaultVC(V), declared in the absent header: the pair that stands
     for V in this context while V has no improvement *)
  getDefaultVC : Value -> ValCtx
}.

(** Work handed to the pass-wide queues and calls that leave the context
    (into children, or into members whose bodies are in the absent
    header), in the order in which the code issues them. *)
Inductive Request :=
| pass_queueCheckBlock (C : Ctx) (BB : Block)
| pass_queueTryEvaluate (C : Ctx) (V : Value)
| pass_queueCheckLoad (C : Ctx) (LI : Value)
| pass_queueOpenPush (a b : ValCtx)
| pass_queueDIE (C : Ctx) (V : Value)
| call_getOrCreateInlineAttempt (CI : Value)
| call_tryPromoteOpenCall (CI : Value)
| call_getOrCreatePeelAttempt (L : Loop)
| call_getOrCreateNextIteration
| call_checkFinalIteration
| call_childCheckVariantEdge (C : Ctx) (FromBB ToBB : Block) (ScopeL : Loop)
| call_investigateUsers (V : Value)
| call_queueDIEOperands (V : Value)
| call_queueAllReturnInsts (IA : Ctx).

(** The members of one [IntegrationAttempt] that the modelled functions
    write. *)
Record IAState := {
  deadBlocks : gset Block;
  certainBlocks : gset Block;
  deadEdges : gset (Block * Block);
  improvedValues : gmap Value ValCtx;
  deadValues : gset Value;
  iterStatus : IterationStatus;
  CFGBlockedLoads : list (Ctx * Value);
  CFGBlockedOpens : list (ValCtx * ValCtx);
  requests : list Request
}.

Definition initialState : IAState :=
  {| deadBlocks := ∅; certainBlocks := ∅; deadEdges := ∅; improvedValues := ∅;
     deadValues := ∅; iterStatus := IterationStatusUnknown;
     CFGBlockedLoads := []; CFGBlockedOpens := []; requests := [] |}.

Definition set_deadBlocks (x : gset Block) (st : IAState) : IAState :=
  {| deadBlocks := x; certainBlocks := certainBlocks st; deadEdges := deadEdges st;
     improvedValues := improvedValues st; deadValues := deadValues st;
     iterStatus := iterStatus st; CFGBlockedLoads := CFGBlockedLoads st;
     CFGBlockedOpens := CFGBlockedOpens st; requests := requests st |}.

Definition set_certainBlocks (x : gset Block) (st : IAState) : IAState :=
  {| deadBlocks := deadBlocks st; certainBlocks := x; deadEdges := deadEdges st;
     improvedValues := improvedValues st; deadValues := deadValues st;
     iterStatus := iterStatus st; CFGBlockedLoads := CFGBlockedLoads st;
     CFGBlockedOpens := CFGBlockedOpens st; requests := requests st |}.

Definition set_deadEdges (x : gset (Block * Block)) (st : IAState) : IAState :=
  {| deadBlocks := deadBlocks st; certainBlocks := certainBlocks st; deadEdges := x;
     improvedValues := improvedValues st; deadValues := deadValues st;
     iterStatus := iterStatus st; CFGBlockedLoads := CFGBlockedLoads st;
     CFGBlockedOpens := CFGBlockedOpens st; requests := requests st |}.

Definition set_improvedValues (x : gmap Value ValCtx) (st : IAState) : IAState :=
  {| deadBlocks := deadBlocks st; certainBlocks := certainBlocks st;
     deadEdges := deadEdges st; improvedValues := x; deadValues := deadValues st;
     iterStatus := iterStatus st; CFGBlockedLoads := CFGBlockedLoads st;
     CFGBlockedOpens := CFGBlockedOpens st; requests := requests st |}.

Definition set_deadValues (x : gset Value) (st : IAState) : IAState :=
  {| deadBlocks := deadBlocks st; certainBlocks := certainBlocks st;
     deadEdges := deadEdges st; improvedValues := improvedValues st; deadValues := x;
     iterStatus := iterStatus st; CFGBlockedLoads := CFGBlockedLoads st;
     CFGBlockedOpens := CFGBlockedOpens st; requests := requests st |}.

Definition set_iterStatus (x : IterationStatus) (st : IAState) : IAState :=
  {| deadBlocks := deadBlocks st; certainBlocks := certainBlocks st;
     deadEdges := deadEdges st; improvedValues := improvedValues st;
     deadValues := deadValues st; iterStatus := x;
     CFGBlockedLoads := CFGBlockedLoads st; CFGBlockedOpens := CFGBlockedOpens st;
     requests := requests st |}.

Definition clear_CFGBlockedLoads (st : IAState) : IAState :=
  {| deadBlocks := deadBlocks st; certainBlocks := certainBlocks st;
     deadEdges := deadEdges st; improvedValues := improvedValues st;
     deadValues := deadValues st; iterStatus := iterStatus st;
     CFGBlockedLoads := []; CFGBlockedOpens := CFGBlockedOpens st;
     requests := requests st |}.

Definition clear_CFGBlockedOpens (st : IAState) : IAState :=
  {| deadBlocks := deadBlocks st; certainBlocks := certainBlocks st;
     deadEdges := deadEdges st; improvedValues := improvedValues st;
     deadValues := deadValues st; iterStatus := iterStatus st;
     CFGBlockedLoads := CFGBlockedLoads st; CFGBlockedOpens := [];
     requests := requests st |}.

(** Append one request to the log. *)
Definition request (r : Request) (st : IAState) : IAState :=
  {| deadBlocks := deadBlocks st; certainBlocks := certainBlocks st;
     deadEdges := deadEdges st; improvedValues := improvedValues st;
     deadValues := deadValues st; iterStatus := iterStatus st;
     CFGBlockedLoads := CFGBlockedLoads st; CFGBlockedOpens := CFGBlockedOpens st;
     requests := requests st ++ [r] |}.

(** What a context reads from outside its own tables: the scope queries
    and the members declared in the absent header
    [HypotheticalConstantFolder.h], the other contexts of the tree, and the
    host's folding and alias utilities.  Every theorem holds for all
    oracles. *)
Record Oracle := {
  getValueScope : Value -> option Loop;
  getEdgeScope : Block -> Block -> option Loop;
  getBlockScopeVariant : Block -> option Loop;
  edgeIsDead : IAState -> Block -> Block -> bool;
  (* C->getReplacement(V) in another context C *)
  getReplacementAt : Ctx -> Value -> ValCtx;
  (* C->getUltimateUnderlyingObject(V) *)
  getUltimateUnderlyingObject : Ctx -> Value -> ValCtx;
  isIdentifiedObject : Value -> bool;
  (* C->forwardableOpenCalls.count(CI) *)
  forwardableOpenCalls : Ctx -> Value -> bool;
  getPeelAttempt : Loop -> option PeelAttempt;
  getInlineAttempt : Value -> option Ctx;
  (* whether getOrCreatePeelAttempt / getOrCreateInlineAttempt return non-null *)
  getOrCreatePeelAttempt_ok : IAState -> Loop -> bool;
  getOrCreateInlineAttempt_ok : IAState -> Value -> bool;
  (* iterStatus as getOrCreateNextIteration leaves it *)
  statusAfterNextIteration : IAState -> IterationStatus;
  (* IA->tryGetReturnValue() *)
  tryGetReturnValue : Ctx -> ValCtx;
  getImprovedCallArgument : Value -> ValCtx;
  tryForwardLoad : IAState -> Value -> ValCtx;
  valueIsDead : IAState -> Value -> bool;
  (* VC.second->isAvailable(), the receiver as found in the pair *)
  isAvailable : option Ctx -> bool;
  (* the context in which callWithScope(CB, L) runs the callback *)
  callWithScope : option Loop -> option Ctx;
  (* ConstantFoldCompareInstOperands / LoadFromConstPtr / InstOperands *)
  constantFold : Value -> list Value -> option Value
}.

(** [immediateChildLoop] climbs the parent chain from [Child] until the
    parent is [Parent].  [None]: the chain ended first (the C++ code then
    dereferences null) or the fuel ran out. *)
Fixpoint immediateChildLoop_from (P : Program) (fuel : nat) (Parent : option Loop)
  (immediateChild : Loop) : option Loop :=
  if bool_decide (getParentLoop P immediateChild = Parent) then Some immediateChild
  else
    match fuel with
    | 0 => None
    | S fuel' =>
        match getParentLoop P immediateChild with
        | Some up => immediateChildLoop_from P fuel' Parent up
        | None => None
        end
    end.

Section IntegrationAttempt.

Context (P : Program) (A : Attempt) (O : Oracle).

(** Modelled from the spec: [getLoopContext] is declared in the absent
    header; an inline attempt sits at function scope, a peel iteration at
    the scope of its loop [L]. *)
Definition getLoopContext : option Loop :=
  match kind A with
  | InlineAttempt _ _ => None
  | PeelIteration L _ _ _ => Some L
  end.

(** Modelled from the spec: [getEntryBlock] is declared in the absent
    header; [queuePredecessorsBW] treats [F.getEntryBlock()] and
    [L->getHeader()] as the top of the two kinds of context. *)
Definition getEntryBlock : Block :=
  match kind A with
  | InlineAttempt _ _ => fentry P
  | PeelIteration L _ _ _ => getHeader P L
  end.

(** Modelled from the spec: [blockIsDead], [blockIsCertain], [setEdgeDead],
    [getReplacement], [getConstReplacement] and [setReplacement] are
    declared in the absent header; they read and write the per-context
    tables [deadBlocks], [certainBlocks], [deadEdges] and [improvedValues]
    that [checkBlock] fills. *)
Definition blockIsDead (st : IAState) (BB : Block) : bool :=
  bool_decide (BB ∈ deadBlocks st).

Definition blockIsCertain (st : IAState) (BB : Block) : bool :=
  bool_decide (BB ∈ certainBlocks st).

Definition setEdgeDead (FromBB ToBB : Block) (st : IAState) : IAState :=
  set_deadEdges ({[ (FromBB, ToBB) ]} ∪ deadEdges st) st.

Definition getReplacement (st : IAState) (V : Value) : ValCtx :=
  default (getDefaultVC A V) (improvedValues st !! V).

Definition getConstReplacement (st : IAState) (V : Value) : option Value :=
  match fst (getReplacement st V) with
  | Some C => if isConstant C then Some C else None
  | None => None
  end.

Definition setReplacement (V : Value) (VC : ValCtx) (st : IAState) : IAState :=
  set_improvedValues (<[ V := VC ]> (improvedValues st)) st.

(** [C->isForwardableOpenCall(V)] *)
Definition isForwardableOpenCall (C : Ctx) (V : Value) : bool :=
  if hasOpcode P Call V then forwardableOpenCalls O C V else false.

(** [shouldForwardValue]; a non-constant always carries its context, the
    null cases are rejected. *)
Definition shouldForwardValue (V : ValCtx) : bool :=
  match V with
  | (Some v, c) =>
      if isConstant v then true
      else
        match c with
        | Some c =>
            if isPointerTy (getType P v)
               && match fst (getUltimateUnderlyingObject O c v) with
                  | Some o => isIdentifiedObject O o
                  | None => false
                  end
            then true
            else isForwardableOpenCall c v
        | None => false
        end
  | (None, _) => false
  end.

Definition queueCFGBlockedLoads (st : IAState) : IAState :=
  clear_CFGBlockedLoads
    (fold_left (fun st LI => request (pass_queueCheckLoad (fst LI) (snd LI)) st)
       (CFGBlockedLoads st) st).

Definition queueCFGBlockedOpens (st : IAState) : IAState :=
  clear_CFGBlockedOpens
    (fold_left (fun st OI => request (pass_queueOpenPush (fst OI) (snd OI)) st)
       (CFGBlockedOpens st) st).

(** The loop over the exit edges in [checkLoopSpecialEdge]. *)
Definition killExitEdges (L : Loop) (st : IAState) : IAState :=
  fold_left
    (fun st it =>
       let edgeScope := getEdgeScope O (fst it) (snd it) in
       let st :=
         if bool_decide (edgeScope = getLoopContext) || bool_decide (edgeScope = Some L)
         then set_deadEdges ({[ it ]} ∪ deadEdges st) st
         else st in
       request (pass_queueCheckBlock (self A) (snd it)) st)
    (getExitEdges P L) st.

Definition IntegrationAttempt_checkLoopSpecialEdge (st : IAState) (FromBB ToBB : Block)
  : IAState * bool :=
  match getLoopFor P ToBB with
  | None => (st, false)
  | Some L =>
      let isSpecialEdge :=
        bool_decide (ToBB = getHeader P L) && bool_decide (FromBB = getLoopPreheader P L) in
      if isSpecialEdge then
        let st := queueCFGBlockedOpens st in
        let created := getOrCreatePeelAttempt_ok O st L in
        let st := request (call_getOrCreatePeelAttempt L) st in
        if created then (st, true)
        else if edgeIsDead O st FromBB ToBB then (killExitEdges L st, true)
        else (st, true)
      else (st, false)
  end.

Definition PeelIteration_checkLoopSpecialEdge (L : Loop) (st : IAState)
  (FromBB ToBB : Block) : IAState * bool :=
  let isSpecialBranchTarget :=
    (bool_decide (FromBB = getLoopLatch P L) && bool_decide (ToBB = getHeader P L))
    || negb (containsBlock P L ToBB) in
  let st :=
    if bool_decide (iterStatus st = IterationStatusUnknown) && isSpecialBranchTarget then
      let st := set_iterStatus (statusAfterNextIteration O st)
                  (request call_getOrCreateNextIteration st) in
      if bool_decide (iterStatus st = IterationStatusUnknown)
      then request call_checkFinalIteration st
      else st
    else st in
  if isSpecialBranchTarget then (queueCFGBlockedOpens st, true)
  else IntegrationAttempt_checkLoopSpecialEdge st FromBB ToBB.

(** Virtual dispatch on the class of the context. *)
Definition checkLoopSpecialEdge (st : IAState) (FromBB ToBB : Block) : IAState * bool :=
  match kind A with
  | InlineAttempt _ _ => IntegrationAttempt_checkLoopSpecialEdge st FromBB ToBB
  | PeelIteration L _ _ _ => PeelIteration_checkLoopSpecialEdge L st FromBB ToBB
  end.

Definition checkLocalEdge (st : IAState) (FromBB ToBB : Block) : IAState :=
  let r := checkLoopSpecialEdge st FromBB ToBB in
  if snd r then fst r
  else request (pass_queueCheckBlock (self A) ToBB) (fst r).

(** [immediateChildLoop(Parent, Child)] *)
Definition immediateChildLoop (Parent : option Loop) (Child : Loop) : option Loop :=
  immediateChildLoop_from P (length (fblocks P)) Parent Child.

(** [checkVariantEdge]: the recursive calls run in the iterations of the
    child peel attempt, they are logged for those contexts. *)
Definition checkVariantEdge (st : IAState) (FromBB ToBB : Block) (ScopeL : Loop)
  : IAState :=
  let MyScope := getLoopContext in
  if bool_decide (MyScope = Some ScopeL) then checkLocalEdge st FromBB ToBB
  else
    match immediateChildLoop MyScope ScopeL with
    | Some ChildL =>
        match getPeelAttempt O ChildL with
        | Some LPA =>
            fold_left
              (fun st it =>
                 request (call_childCheckVariantEdge (iterCtx it) FromBB ToBB ScopeL) st)
              (Iterations LPA) st
        | None => st
        end
    | None => st
    end.

Definition checkEdge (st : IAState) (FromBB ToBB : Block) : IAState :=
  match getEdgeScope O FromBB ToBB with
  | None => checkLocalEdge st FromBB ToBB
  | Some EdgeScope =>
      if contains P EdgeScope getLoopContext then checkLocalEdge st FromBB ToBB
      else checkVariantEdge st FromBB ToBB EdgeScope
  end.

Definition shouldCheckBlock (st : IAState) (BB : Block) : bool :=
  negb (blockIsDead st BB || blockIsCertain st BB).

(** The inner loop of [checkBlock] over the successors of a predecessor. *)
Definition onlySuccessor (st : IAState) (PI BB : Block) : bool :=
  forallb (fun SI => negb (negb (bool_decide (SI = BB)) && negb (edgeIsDead O st PI SI)))
    (succs P PI).

(** The classification of [checkBlock]: the pair [(isDead, isCertain)]
    before the adjustment [if(isDead && isCertain) isCertain = false]. *)
Definition classifyBlock (st : IAState) (BB : Block) : bool * bool :=
  if bool_decide (BB = getEntryBlock) then (false, true)
  else
    fold_left
      (fun dc PI =>
         if negb (edgeIsDead O st PI BB) then
           (false,
            if blockIsCertain st PI
            then (if onlySuccessor st PI BB then snd dc else false)
            else false)
         else dc)
      (preds P BB) (true, true).

(** The [improvedValues.erase(BI)] loop. *)
Definition eraseImprovements (BB : Block) (st : IAState) : IAState :=
  fold_left (fun st BI => set_improvedValues (delete BI (improvedValues st)) st)
    (insts P BB) st.

(** The loop over the call instructions of a certain block. *)
Definition promoteCalls (BB : Block) (st : IAState) : IAState :=
  fold_left
    (fun st BI =>
       if hasOpcode P Call BI then
         let created := getOrCreateInlineAttempt_ok O st BI in
         let st := request (call_getOrCreateInlineAttempt BI) st in
         if created then st else request (call_tryPromoteOpenCall BI) st
       else st)
    (insts P BB) st.

(** The leading PHI nodes of a block. *)
Fixpoint leadingPHIs (l : list Value) : list Value :=
  match l with
  | BI :: l' => if hasOpcode P PHI BI then BI :: leadingPHIs l' else []
  | [] => []
  end.

Definition checkBlock (st : IAState) (BB : Block) : IAState :=
  if negb (shouldCheckBlock st BB) then st
  else
    let dc := classifyBlock st BB in
    let isDead := fst dc in
    let isCertain := if fst dc && snd dc then false else snd dc in
    let st :=
      if isDead then eraseImprovements BB (set_deadBlocks ({[ BB ]} ∪ deadBlocks st) st)
      else st in
    let st :=
      if isCertain then
        queueCFGBlockedOpens
          (promoteCalls BB (set_certainBlocks ({[ BB ]} ∪ certainBlocks st) st))
      else st in
    let st :=
      if isDead || isCertain then
        fold_left
          (fun st SI =>
             let st := if isDead then set_deadEdges ({[ (BB, SI) ]} ∪ deadEdges st) st
                       else st in
             checkEdge st BB SI)
          (succs P BB) st
      else st in
    if negb isDead then
      fold_left (fun st BI => request (pass_queueTryEvaluate (self A) BI) st)
        (leadingPHIs (insts P BB)) st
    else queueCFGBlockedLoads st.

(** *** PHI nodes *)

(** [getLoopHeaderPHIValue]: [Some result] when the function returns true
    (and has written [result]), [None] when it returns false.  The base
    class always returns false. *)
Definition IntegrationAttempt_getLoopHeaderPHIValue (PN : Value) : option ValCtx :=
  None.

Definition PeelIteration_getLoopHeaderPHIValue (L : Loop) (iterationCount : nat)
  (parent : Ctx) (parentPA : list Ctx) (PN : Value) : option ValCtx :=
  let isHeaderPHI := bool_decide (getParent P PN = getHeader P L) in
  if isHeaderPHI then
    if bool_decide (iterationCount = 0) then
      Some (getReplacementAt O parent
              (getIncomingValueForBlock P PN (getLoopPreheader P L)))
    else
      (* parentPA->getIteration(iterationCount - 1) *)
      match parentPA !! (iterationCount - 1) with
      | Some PreviousIter =>
          Some (getReplacementAt O PreviousIter
                  (getIncomingValueForBlock P PN (getLoopLatch P L)))
      | None => Some VCNull
      end
  else None.

Definition getLoopHeaderPHIValue (PN : Value) : option ValCtx :=
  match kind A with
  | InlineAttempt _ _ => IntegrationAttempt_getLoopHeaderPHIValue PN
  | PeelIteration L iterationCount parent parentPA =>
      PeelIteration_getLoopHeaderPHIValue L iterationCount parent parentPA PN
  end.

(** The test "the predecessor comes from a descendant of the PHI's loop". *)
Definition fromChildLoop (phiLoop predLoop : option Loop) : bool :=
  match phiLoop with
  | None => bool_decide (predLoop <> None)
  | Some _ => negb (containsN P predLoop phiLoop)
  end.

(** The value that [getPHINodeValue] reads on the edge from [PI]:
    [Some predValue], or [None] where the loop gives up (the two [break]s
    of the LCSSA branch). *)
Definition predValueOnEdge (st : IAState) (PN : Value) (PI : Block) : option ValCtx :=
  let phiLoop := getValueScope O PN in
  let oldValue := getIncomingValueForBlock P PN PI in
  let predLoop := getValueScope O oldValue in
  if fromChildLoop phiLoop predLoop then
    match predLoop with
    | Some pl =>
        match getPeelAttempt O pl with
        | Some PA =>
            let finalIter := lastIteration PA in
            if bool_decide (iterStatusOf finalIter = IterationStatusFinal)
            then Some (getReplacementAt O (iterCtx finalIter) oldValue)
            else None
        | None => None
        end
    | None => None
    end
  else Some (getReplacement st oldValue).

(** The value [K] in effect on the edge from [PI] into the PHI [PN], as
    lines 402-437 read it: the replacement of the incoming operand in
    this context, or, for an operand defined in a child loop of the PHI's
    scope, its replacement in the last iteration of that loop's peel
    attempt, once that iteration is final. *)
Definition edgeCarries (st : IAState) (PN : Value) (PI : Block) (K : ValCtx) : Prop :=
  let oldValue := getIncomingValueForBlock P PN PI in
  if fromChildLoop (getValueScope O PN) (getValueScope O oldValue) then
    exists pl PA,
      getValueScope O oldValue = Some pl /\ getPeelAttempt O pl = Some PA
      /\ iterStatusOf (lastIteration PA) = IterationStatusFinal
      /\ getReplacementAt O (iterCtx (lastIteration PA)) oldValue = K
  else getReplacement st oldValue = K.

(** The loop of [getPHINodeValue] over the predecessors, from the
    current [onlyValue]. *)
Fixpoint scanPredecessors (st : IAState) (PN : Value) (BB : Block) (l : list Block)
  (onlyValue : ValCtx) : ValCtx :=
  match l with
  | [] => onlyValue
  | PI :: l' =>
      if edgeIsDead O st PI BB then scanPredecessors st PN BB l' onlyValue
      else
        match predValueOnEdge st PN PI with
        | None => VCNull
        | Some predValue =>
            if bool_decide (onlyValue = VCNull)
            then scanPredecessors st PN BB l' predValue
            else if bool_decide (onlyValue <> predValue) then VCNull
            else scanPredecessors st PN BB l' onlyValue
        end
  end.

(** The end of [getPHINodeValue]: [onlyValue] if it is set and may be
    forwarded, else [VCNull]. *)
Definition forwardOrNull (onlyValue : ValCtx) : ValCtx :=
  if bool_decide (fst onlyValue <> None) && shouldForwardValue onlyValue
  then onlyValue
  else VCNull.

Definition getPHINodeValue (st : IAState) (PN : Value) : ValCtx :=
  let BB := getParent P PN in
  let onlyValue :=
    match getLoopHeaderPHIValue PN with
    | Some result => result
    | None => scanPredecessors st PN BB (preds P BB) VCNull
    end in
  forwardOrNull onlyValue.

(** *** Operands across loop scopes *)

(** [walkOperand]: the context and value on which the callback runs, if
    it runs. *)
Definition walkOperand (V : Value) : option (Ctx * Value) :=
  let MyL := getLoopContext in
  let L := getValueScope O V in
  if bool_decide (L <> MyL) then
    if match MyL with None => true | Some m => contains P m L end then
      match L with
      | Some l =>
          match getPeelAttempt O l with
          | None => None
          | Some LPA =>
              let Final := lastIteration LPA in
              if bool_decide (iterStatusOf Final <> IterationStatusFinal) then None
              else Some (iterCtx Final, V)
          end
      | None => None
      end
    else
      match callWithScope O L with
      | Some C => Some (C, V)
      | None => None
      end
  else Some (self A, V).

(** [PeelIteration::visitExitPHI]: the context and user handed to
    [Visitor.visit], if any. *)
Definition PeelIteration_visitExitPHI (st : IAState) (parent : Ctx) (UserI : Value)
  : option (Ctx * Value) :=
  if bool_decide (iterStatus st = IterationStatusFinal) then Some (parent, UserI)
  else None.

(** *** The evaluator *)

Definition shouldTryEvaluate (st : IAState) (ArgV : Value) : bool :=
  let Improved := getReplacement st ArgV in
  if bool_decide (Improved <> getDefaultVC A ArgV) then false
  else
    match ArgV with
    | Instruction _ => negb (blockIsDead st (getParent P ArgV))
    | Argument _ => true
    | _ => false
    end.

Definition getOperand (I : Value) (i : nat) : Value :=
  nth i (getOperands P I) (OtherValue 0).

(** [VC.second && VC.second->isForwardableOpenCall(VC.first)] *)
Definition isOpenHandle (VC : ValCtx) : bool :=
  match VC with
  | (Some v, Some c) => isForwardableOpenCall c v
  | _ => false
  end.

(** The branch and switch case of [tryEvaluateResult].  The code reads
    the constant condition through [cast<ConstantInt>], which fails on a
    constant of another class (undef, a constant expression); what the
    definition gives there stands for no run of the code, and the
    statements about folding are made for a [ConstantInt]. *)
Definition evaluateTerminator (st : IAState) (I : Value) : IAState :=
  match getConstReplacement st (getCondition P I) with
  | None => st
  | Some ConstCondition =>
      let BB := getParent P I in
      let takenTarget :=
        if hasOpcode P Br I then
          (if isZero ConstCondition then succs P BB !! 1 else succs P BB !! 0)
        else succs P BB !! findCaseValue P I ConstCondition in
      match takenTarget with
      | None => st
      | Some takenTarget =>
          fold_left
            (fun st thisTarget =>
               if shouldCheckBlock st thisTarget then
                 let st := if bool_decide (thisTarget <> takenTarget)
                           then setEdgeDead BB thisTarget st else st in
                 checkEdge st BB thisTarget
               else st)
            (succs P BB) st
      end
  end.

(** The comparison case: the improvement and the flag [tryConstFold]. *)
Definition foldAgainst (CmpI : Value) (other : option Value) (flip : bool) : ValCtx :=
  match other with
  | Some (ConstantInt w v) => tryFoldOpenCmp P CmpI w v flip
  | _ => VCNull
  end.

Definition evaluateCmp (st : IAState) (CmpI : Value) : ValCtx * bool :=
  let op0 := getReplacement st (getOperand CmpI 0) in
  let op1 := getReplacement st (getOperand CmpI 1) in
  if isOpenHandle op0 then (foldAgainst CmpI (fst op1) false, false)
  else if isOpenHandle op1 then (foldAgainst CmpI (fst op0) true, false)
  else (VCNull, true).

(** The cast case. *)
Definition fdType (T : Ty) : bool :=
  isIntegerTy 32 T || isIntegerTy 64 T || isPointerTy T.

Definition evaluateCast (st : IAState) (CI : Value) : ValCtx * bool :=
  let SrcVC := getReplacement st (getOperand CI 0) in
  if isOpenHandle SrcVC && fdType (getSrcTy P CI) && fdType (getDestTy P CI)
  then (SrcVC, false)
  else (VCNull, true).

(** The [instOperands] loop: all operands, if each has a constant
    replacement. *)
Fixpoint constOperands (st : IAState) (ops : list Value) : option (list Value) :=
  match ops with
  | [] => Some []
  | op :: ops' =>
      match getConstReplacement st op with
      | Some C =>
          match constOperands st ops' with
          | Some Cs => Some (C :: Cs)
          | None => None
          end
      | None => None
      end
  end.

Definition foldConstants (st : IAState) (I : Value) (Improved : ValCtx) : ValCtx :=
  match constOperands st (getOperands P I) with
  | Some instOperands =>
      match constantFold O I instOperands with
      | Some newConst => const_vc newConst
      | None => VCNull
      end
  | None => Improved
  end.

Definition IntegrationAttempt_tryEvaluateResult (st : IAState) (ArgV : Value)
  : IAState * ValCtx :=
  if negb (shouldTryEvaluate st ArgV) then (st, VCNull)
  else
    match ArgV with
    | Instruction _ =>
        let I := ArgV in
        if hasOpcode P Br I || hasOpcode P Switch I then (evaluateTerminator st I, VCNull)
        else if hasOpcode P Call I then
          match getInlineAttempt O I with
          | Some IA => (st, tryGetReturnValue O IA)
          | None => (request (call_tryPromoteOpenCall I) st, VCNull)
          end
        else if hasOpcode P PHI I then (st, getPHINodeValue st I)
        else if hasOpcode P Select I then
          match getConstReplacement st (getCondition P I) with
          | Some Cond =>
              if isZero Cond then (st, getDefaultVC A (getFalseValue P I))
              else (st, getDefaultVC A (getTrueValue P I))
          | None => (st, VCNull)
          end
        else if hasOpcode P CastOp I then
          let r := evaluateCast st I in
          (st, if snd r then foldConstants st I (fst r) else fst r)
        else if hasOpcode P ICmp I || hasOpcode P FCmp I then
          let r := evaluateCmp st I in
          (st, if snd r then foldConstants st I (fst r) else fst r)
        else (st, foldConstants st I VCNull)
    | _ => (st, VCNull)
    end.

Definition InlineAttempt_tryEvaluateResult (st : IAState) (V : Value)
  : IAState * ValCtx :=
  match V with
  | Argument _ => (st, getImprovedCallArgument O V)
  | _ => IntegrationAttempt_tryEvaluateResult st V
  end.

Definition tryEvaluateResult (st : IAState) (V : Value) : IAState * ValCtx :=
  match kind A with
  | InlineAttempt _ _ => InlineAttempt_tryEvaluateResult st V
  | PeelIteration _ _ _ _ => IntegrationAttempt_tryEvaluateResult st V
  end.

Definition tryEvaluate (st : IAState) (V : Value) : IAState :=
  let r := tryEvaluateResult st V in
  let Improved := snd r in
  if bool_decide (fst Improved <> None) && shouldForwardValue Improved then
    request (call_investigateUsers V) (setReplacement V Improved (fst r))
  else fst r.

Definition checkLoad (st : IAState) (LI : Value) : IAState :=
  if negb (shouldTryEvaluate st LI) then st
  else
    let Result := tryForwardLoad O st LI in
    if bool_decide (fst Result <> None) then
      request (call_investigateUsers LI) (setReplacement LI Result st)
    else st.

(** *** Dead-instruction elimination *)

Definition localValueIsDead (st : IAState) (V : Value) : bool :=
  if bool_decide (V ∈ deadValues st) then true
  else if isInstruction V && blockIsDead st (getParent P V) then true
  else
    let VC := getReplacement st V in
    bool_decide (VC <> getDefaultVC A V) && isAvailable O (snd VC).

Definition shouldDIE (V : Value) : bool :=
  match V with
  | Argument _ => true
  | Instruction _ =>
      match getOpcode P V with
      | Call => bool_decide (getInlineAttempt O V <> None)
      | VAArg | Alloca | Invoke | Store | Br | IndirectBr | Switch | Unwind
      | Unreachable => false
      | _ => true
      end
  | _ => false
  end.

Definition queueDIE (st : IAState) (V : Value) : IAState :=
  if negb (shouldDIE V) then st
  else if negb (localValueIsDead st V) then request (pass_queueDIE (self A) V) st
  else st.

Definition tryKillValue (st : IAState) (V : Value) : IAState :=
  if bool_decide (V ∈ deadValues st) then st
  else if isInstruction V && mayHaveSideEffects P V then
    if hasOpcode P Call V then
      if valueIsDead O st V then
        match getInlineAttempt O V with
        | Some IA => request (call_queueAllReturnInsts IA) st
        | None => st
        end
      else st
    else st
  else if valueIsDead O st V then
    request (call_queueDIEOperands V) (set_deadValues ({[ V ]} ∪ deadValues st) st)
  else st.

End IntegrationAttempt.

(** *** The work items of the pass *)

(** One item taken from the queues of the pass and run in this context;
    [CheckVariantEdge] is the call a parent makes into the iterations of a
    peel attempt. *)
Inductive WorkItem :=
| CheckBlock (BB : Block)
| TryEvaluate (V : Value)
| CheckLoad (LI : Value)
| TryKillValue (V : Value)
| CheckVariantEdge (FromBB ToBB : Block) (ScopeL : Loop).

Definition runItem (P : Program) (A : Attempt) (O : Oracle) (st : IAState)
  (w : WorkItem) : IAState :=
  match w with
  | CheckBlock BB => checkBlock P A O st BB
  | TryEvaluate V => tryEvaluate P A O st V
  | CheckLoad LI => checkLoad P A O st LI
  | TryKillValue V => tryKillValue P O st V
  | CheckVariantEdge FromBB ToBB ScopeL => checkVariantEdge P A O st FromBB ToBB ScopeL
  end.

(** A run of the fixpoint in one context.  The rest of the tree moves
    between two items, so every item comes with the oracle of its moment. *)
Definition runItems (P : Program) (A : Attempt) (ws : list (Oracle * WorkItem))
  (st : IAState) : IAState :=
  fold_left (fun st ow => runItem P A (fst ow) st (snd ow)) ws st.

(** *** Properties of the tables *)

(** Liveness consistency of one context: every edge out of a dead block
    is dead, no block is both dead and certain, the entry block is not
    dead. *)
Definition LivenessConsistent (P : Program) (A : Attempt) (st : IAState) : Prop :=
  (forall B SI, B ∈ deadBlocks st -> SI ∈ succs P B -> (B, SI) ∈ deadEdges st)
  /\ deadBlocks st ## certainBlocks st
  /\ getEntryBlock P A ∉ deadBlocks st.

(** [st'] has the tables of [st], except that [deadEdges] may have grown. *)
Definition onlyAddsDeadEdges (st st' : IAState) : Prop :=
  deadBlocks st' = deadBlocks st
  /\ certainBlocks st' = certainBlocks st
  /\ improvedValues st' = improvedValues st
  /\ deadValues st' = deadValues st
  /\ deadEdges st ⊆ deadEdges st'.

(** No liveness fact and no dead value of [st] is missing in [st']. *)
Definition factsKept (st st' : IAState) : Prop :=
  deadBlocks st ⊆ deadBlocks st'
  /\ certainBlocks st ⊆ certainBlocks st'
  /\ deadEdges st ⊆ deadEdges st'
  /\ deadValues st ⊆ deadValues st'.

(** [V] is improved to [K]: the test of [shouldTryEvaluate] and
    [localValueIsDead], [getReplacement(V) != getDefaultVC(V)]. *)
Definition hasImprovement (A : Attempt) (st : IAState) (V : Value) (K : ValCtx) : Prop :=
  improvedValues st !! V = Some K /\ K <> getDefaultVC A V.

(** The improvement [K] of [V] is still recorded, or it was erased and [V]
    is an instruction of a dead block. *)
Definition keptOrErased (P : Program) (st : IAState) (V : Value) (K : ValCtx) : Prop :=
  improvedValues st !! V = Some K
  \/ (improvedValues st !! V = None /\ isInstruction V = true
      /\ getParent P V ∈ deadBlocks st).

(** The arguments of an inline attempt are not evaluated from the tables
    of the context: [InlineAttempt::tryEvaluateResult] reads them from the
    call site through [getImprovedCallArgument]. *)
Definition readFromCallSite (A : Attempt) (V : Value) : bool :=
  match kind A, V with
  | InlineAttempt _ _, Argument _ => true
  | _, _ => false
  end.

(** The opcodes for which [shouldDIE] returns false. *)
Definition neverEliminated : list Opcode :=
  [VAArg; Alloca; Invoke; Store; Br; IndirectBr; Switch; Unwind; Unreachable].

(** A candidate for direct elimination: [shouldDIE] accepts the value,
    and [tryKillValue] does not return at once because of its side
    effects (lines 1417-1436), where only a call is looked at further. *)
Definition candidateForDIE (P : Program) (O : Oracle) (V : Value) : bool :=
  shouldDIE P O V
  && (negb (isInstruction V && mayHaveSideEffects P V) || hasOpcode P Call V).

(** The pass runs [tryKillValue] for the values handed to it through
    [pass->queueDIE], which only [IntegrationAttempt::queueDIE] calls
    (line 1269): every [tryKillValue] item of the run [ws] is for a value
    that [queueDIE] has queued in some state of the context. *)
Definition killsQueuedByDIE (P : Program) (A : Attempt) (ws : list (Oracle * WorkItem))
  : Prop :=
  forall O X, (O, TryKillValue X) ∈ ws ->
              exists O' s, queueDIE P A O' s X = request (pass_queueDIE (self A) X) s.


(** A block lists instructions only, and each of them has that block as
    its parent. *)
Definition blocksWellFormed (P : Program) : Prop :=
  forall BB V, V ∈ insts P BB -> isInstruction V = true /\ getParent P V = BB.

(** ** The cross-context walkers ([IAWalkers.cpp]) *)

(** [BIC]: an instruction cursor (the index of the instruction the
    iterator points at, the length of the block for [end()]), its block and
    the owning context. *)
Abbreviation BIC := (nat * Block * Ctx)%type.

Inductive WalkInstructionResult :=
| WIRContinue
| WIRStopThisPath
| WIRStopWholeWalk.

(** The virtual members that a concrete walker supplies, over its own
    state [S]. *)
Record WalkerClass (S : Type) := {
  walkInstruction : S -> Value -> Ctx -> S * WalkInstructionResult;
  shouldEnterCall : S -> Value -> Ctx -> bool;
  blockedByUnexpandedCall : S -> Value -> Ctx -> S * bool
}.

Arguments walkInstruction {S}.
Arguments shouldEnterCall {S}.
Arguments blockedByUnexpandedCall {S}.

(** The context tree as a walk reads it. *)
Record WalkEnv := {
  programOf : Ctx -> Program;                       (* C->F *)
  kindAt : Ctx -> AttemptKind;
  inlineAttemptAt : Ctx -> Value -> option Ctx;     (* C->getInlineAttempt(CI) *)
  blockIsDeadAt : Ctx -> Block -> bool;             (* C->blockIsDead(BB) *)
  (* the cursors that C->queueNormalPredecessorsBW(BB, Walker) and
     C->queueSuccessorsFW(BB, Walker) hand to queueWalkFrom, in order *)
  queueNormalPredecessorsBW : Ctx -> Block -> list BIC;
  queueSuccessorsFW : Ctx -> Block -> list BIC
}.

Record IAWalker (S : Type) := {
  PList : list BIC;
  CList : list BIC;
  Visited : gset BIC;
  visitor : S;
  (* history: the cursors taken from CList and walked, oldest first *)
  visitLog : list BIC
}.

Arguments PList {S}.
Arguments CList {S}.
Arguments Visited {S}.
Arguments visitor {S}.
Arguments visitLog {S}.

(** The constructors: the start cursor is pushed on [PList] and marked
    visited. *)
Definition newWalker {S : Type} (start : BIC) (s : S) : IAWalker S :=
  {| PList := [start]; CList := []; Visited := {[ start ]}; visitor := s;
     visitLog := [] |}.

Definition BackwardIAWalker_new {S : Type} (instIndex : nat) (BB : Block) (C : Ctx)
  (skipFirst : bool) (s : S) : IAWalker S :=
  newWalker (if skipFirst then instIndex else instIndex + 1, BB, C) s.

Definition ForwardIAWalker_new {S : Type} (instIndex : nat) (BB : Block) (C : Ctx)
  (skipFirst : bool) (s : S) : IAWalker S :=
  newWalker (if skipFirst then instIndex + 1 else instIndex, BB, C) s.

Definition queueWalkFrom {S : Type} (w : IAWalker S) (bic : BIC) : IAWalker S :=
  if bool_decide (bic ∈ Visited w) then w
  else {| PList := PList w ++ [bic]; CList := CList w;
          Visited := {[ bic ]} ∪ Visited w; visitor := visitor w;
          visitLog := visitLog w |}.

(** [PeelIteration::queuePredecessorsBW] and
    [InlineAttempt::queuePredecessorsBW]: the cursors queued. *)
Definition PeelIteration_queuePredecessorsBW (E : WalkEnv) (C : Ctx) (L : Loop)
  (iterationCount : nat) (parent : Ctx) (parentPA : list Ctx) (FromBB : Block)
  : list BIC :=
  let F := programOf E C in
  if bool_decide (FromBB = getHeader F L) then
    if bool_decide (iterationCount = 0) then
      [(length (insts F (getLoopPreheader F L)), getLoopPreheader F L, parent)]
    else
      match parentPA !! (iterationCount - 1) with
      | Some PreviousIter =>
          [(length (insts F (getLoopLatch F L)), getLoopLatch F L, PreviousIter)]
      | None => []
      end
  else queueNormalPredecessorsBW E C FromBB.

(** [BasicBlock::iterator(V)]: the index of [V] in the instructions [l]
    of its block. *)
Definition cursorOf (V : Value) (l : list Value) : nat :=
  match list_find (fun X => X = V) l with
  | Some r => fst r
  | None => length l
  end.

Definition InlineAttempt_queuePredecessorsBW (E : WalkEnv) (C : Ctx)
  (parent : option Ctx) (CI : option Value) (FromBB : Block) : list BIC :=
  let F := programOf E C in
  match parent, CI with
  | Some p, Some ci =>
      if bool_decide (FromBB = fentry F) then
        let G := programOf E p in
        [(cursorOf ci (insts G (getParent G ci)), getParent G ci, p)]
      else queueNormalPredecessorsBW E C FromBB
  | _, _ => queueNormalPredecessorsBW E C FromBB
  end.

Definition queuePredecessorsBW (E : WalkEnv) (C : Ctx) (FromBB : Block) : list BIC :=
  match kindAt E C with
  | InlineAttempt parent CI => InlineAttempt_queuePredecessorsBW E C parent CI FromBB
  | PeelIteration L iterationCount parent parentPA =>
      PeelIteration_queuePredecessorsBW E C L iterationCount parent parentPA FromBB
  end.

(** [BackwardIAWalker::walkFromInst] from cursor [k] of a block with
    instructions [l]: the iterator is decremented before it is compared
    with [begin()], so the instruction at [begin()] is not walked; a
    cursor outside the block walks nothing.  From the cursor 0 the code
    decrements [begin()], which is undefined; nothing is walked here. *)
Fixpoint BackwardIAWalker_walkFromInst {S : Type} (W : WalkerClass S) (F : Program)
  (l : list Value) (C : Ctx) (k : nat) (s : S)
  : S * WalkInstructionResult * option Value :=
  match k with
  | 0 => (s, WIRContinue, None)
  | S k' =>
      if bool_decide (k' = 0) then (s, WIRContinue, None)
      else
        match l !! k' with
        | None => (s, WIRContinue, None)
        | Some Ins =>
            let r := walkInstruction W s Ins C in
            match snd r with
            | WIRContinue =>
                if hasOpcode F Call Ins then
                  if negb (shouldEnterCall W (fst r) Ins C)
                  then BackwardIAWalker_walkFromInst W F l C k' (fst r)
                  else (fst r, WIRContinue, Some Ins)
                else BackwardIAWalker_walkFromInst W F l C k' (fst r)
            | WIR => (fst r, WIR, None)
            end
        end
  end.

(** [ForwardIAWalker::walkFromInst] over the instructions from the cursor
    to the end of the block. *)
Fixpoint ForwardIAWalker_walkFromInst {S : Type} (W : WalkerClass S) (F : Program)
  (l : list Value) (C : Ctx) (s : S) : S * WalkInstructionResult * option Value :=
  match l with
  | [] => (s, WIRContinue, None)
  | Ins :: l' =>
      let r := walkInstruction W s Ins C in
      match snd r with
      | WIRContinue =>
          if hasOpcode F Call Ins then
            if negb (shouldEnterCall W (fst r) Ins C)
            then ForwardIAWalker_walkFromInst W F l' C (fst r)
            else (fst r, WIRContinue, Some Ins)
          else ForwardIAWalker_walkFromInst W F l' C (fst r)
      | WIR => (fst r, WIR, None)
      end
  end.

(** [isa<ReturnInst>(BB->getTerminator())] *)
Definition endsInReturn (F : Program) (BB : Block) : bool :=
  match List.last (map Some (insts F BB)) None with
  | Some T => hasOpcode F Ret T
  | None => false
  end.

(** The body of the [for] loop of [BackwardIAWalker::walk] for one cursor:
    the new visitor state, whether the whole walk returns, and the cursors
    handed to [queueWalkFrom], in order. *)
Definition BackwardIAWalker_visit {S : Type} (W : WalkerClass S) (E : WalkEnv)
  (s : S) (ThisStart : BIC) : S * bool * list BIC :=
  let '(it, BB, C) := ThisStart in
  let F := programOf E C in
  let '(s, thisBlockResult, StoppedCI) :=
    BackwardIAWalker_walkFromInst W F (insts F BB) C it s in
  match thisBlockResult with
  | WIRStopThisPath => (s, false, [])
  | WIRStopWholeWalk => (s, true, [])
  | WIRContinue =>
      match StoppedCI with
      | Some CI =>
          match inlineAttemptAt E C CI with
          | Some IA =>
              let G := programOf E IA in
              (s, false,
               map (fun RB => (length (insts G RB), RB, IA))
                 (List.filter (fun RB => endsInReturn G RB && negb (blockIsDeadAt E IA RB))
                    (fblocks G)))
          | None =>
              let r := blockedByUnexpandedCall W s CI C in
              (fst r, snd r, [])
          end
      | None => (s, false, queuePredecessorsBW E C BB)
      end
  end.

Definition ForwardIAWalker_visit {S : Type} (W : WalkerClass S) (E : WalkEnv)
  (s : S) (ThisStart : BIC) : S * bool * list BIC :=
  let '(it, BB, C) := ThisStart in
  let F := programOf E C in
  let '(s, thisBlockResult, StoppedCI) :=
    ForwardIAWalker_walkFromInst W F (drop it (insts F BB)) C s in
  match thisBlockResult with
  | WIRStopThisPath => (s, false, [])
  | WIRStopWholeWalk => (s, true, [])
  | WIRContinue =>
      match StoppedCI with
      | Some CI =>
          match inlineAttemptAt E C CI with
          | Some IA => (s, false, [(0, fentry (programOf E IA), IA)])
          | None =>
              let r := blockedByUnexpandedCall W s CI C in
              (fst r, snd r, [])
          end
      | None => (s, false, queueSuccessorsFW E C BB)
      end
  end.

(** One cursor of [CList]: walk it, then queue what it leads to. *)
Definition walkOne {S : Type} (visit : S -> BIC -> S * bool * list BIC)
  (w : IAWalker S) (ThisStart : BIC) : IAWalker S * bool :=
  let r := visit (visitor w) ThisStart in
  let w1 := {| PList := PList w; CList := CList w; Visited := Visited w;
               visitor := fst (fst r); visitLog := visitLog w ++ [ThisStart] |} in
  (fold_left queueWalkFrom (snd r) w1, snd (fst r)).

(** [for(unsigned i = 0; i < CList->size(); ++i)], left by [return]
    ([true]) or at the end of the list. *)
Fixpoint walkCList {S : Type} (visit : S -> BIC -> S * bool * list BIC)
  (l : list BIC) (w : IAWalker S) : IAWalker S * bool :=
  match l with
  | [] => (w, false)
  | ThisStart :: l' =>
      let r := walkOne visit w ThisStart in
      if snd r then r else walkCList visit l' (fst r)
  end.

(** [CList->clear(); std::swap(PList, CList);] *)
Definition swapLists {S : Type} (w : IAWalker S) : IAWalker S :=
  {| PList := []; CList := PList w; Visited := Visited w; visitor := visitor w;
     visitLog := visitLog w |}.

(** [while(PList->size() || CList->size())], with [fuel] rounds at most;
    [None] when the fuel does not suffice. *)
Fixpoint walkLoop {S : Type} (visit : S -> BIC -> S * bool * list BIC) (fuel : nat)
  (w : IAWalker S) : option (IAWalker S) :=
  match PList w, CList w with
  | [], [] => Some w
  | _, _ =>
      match fuel with
      | 0 => None
      | S fuel' =>
          let r := walkCList visit (CList w) w in
          if snd r then Some (fst r)
          else walkLoop visit fuel' (swapLists (fst r))
      end
  end.

Definition BackwardIAWalker_walk {S : Type} (W : WalkerClass S) (E : WalkEnv)
  (fuel : nat) (w : IAWalker S) : option (IAWalker S) :=
  walkLoop (BackwardIAWalker_visit W E) fuel w.

Definition ForwardIAWalker_walk {S : Type} (W : WalkerClass S) (E : WalkEnv)
  (fuel : nat) (w : IAWalker S) : option (IAWalker S) :=
  walkLoop (ForwardIAWalker_visit W E) fuel w.

(** The invariant of a walk over the cursors of [U], while [rest] of
    [CList] is still to be walked: no cursor occurs twice among those
    walked, those still to be walked and those queued for the next round,
    and each of them is marked visited. *)
Definition WalkInv {S : Type} (U : list BIC) (rest : list BIC) (w : IAWalker S) : Prop :=
  NoDup (visitLog w ++ rest ++ PList w)
  /\ (forall b, b ∈ visitLog w ++ rest ++ PList w -> b ∈ Visited w /\ b ∈ U).

(** From a cursor of [U] the walk queues cursors of [U] only. *)
Definition ClosedUnder {S : Type} (U : list BIC)
  (visit : S -> BIC -> S * bool * list BIC) : Prop :=
  forall s b x, b ∈ U -> x ∈ snd (visit s b) -> x ∈ U.

(** ** Inline attempts of [LoopPeelHeuristics.cpp] *)

(** The members of the [InlineAttempt] class of this file that the return
    value search reads and writes. *)
Record InlineAttemptState := {
  initialConsts : gmap Value Value;
  initialIgnoreEdges : gset (Block * Block);
  returnValueAlreadyKnown : bool;
  returnVal : option Value
}.

Definition set_returnVal (x : option Value) (st : InlineAttemptState)
  : InlineAttemptState :=
  {| initialConsts := initialConsts st; initialIgnoreEdges := initialIgnoreEdges st;
     returnValueAlreadyKnown := returnValueAlreadyKnown st; returnVal := x |}.

(** The folder [H] and the static [HypotheticalConstantFolder::blockIsDead]
    live in the absent header. *)
Record FolderOracle := {
  HCF_blockIsDead : Block -> gset (Block * Block) -> bool;
  H_getBenefit : InlineAttemptState -> list (Value * Value) -> InlineAttemptState;
  considerCalls : InlineAttemptState -> InlineAttemptState
}.

(** The improvement of a returned operand: the operand if it is a
    constant, else its entry in [initialConsts]. *)
Definition returnedConstant (F : Program) (st : InlineAttemptState) (RI : Value)
  : option Value :=
  if isConstant (getReturnValue F RI) then Some (getReturnValue F RI)
  else initialConsts st !! getReturnValue F RI.

(** The inner loop over the instructions of one live block; [break] leaves
    this loop only.  The state is [(returnVal, foundReturnInst)]. *)
Fixpoint scanBlockForReturn (F : Program) (st : InlineAttemptState) (l : list Value)
  (acc : option Value * bool) : option Value * bool :=
  match l with
  | [] => acc
  | BI :: l' =>
      if hasOpcode F Ret BI then
        if snd acc then (None, true)
        else
          match returnedConstant F st BI with
          | Some C => scanBlockForReturn F st l' (Some C, true)
          | None => (fst acc, true)
          end
      else scanBlockForReturn F st l' acc
  end.

(** The outer loop over the blocks of the function. *)
Definition scanFunctionForReturn (F : Program) (HO : FolderOracle)
  (st : InlineAttemptState) (acc : option Value * bool) : option Value * bool :=
  fold_left
    (fun acc FI =>
       if HCF_blockIsDead HO FI (initialIgnoreEdges st) then acc
       else scanBlockForReturn F st (insts F FI) acc)
    (fblocks F) acc.

(** The return value search that ends [localFoldConstants]. *)
Definition findReturnValue (F : Program) (HO : FolderOracle) (st : InlineAttemptState)
  : InlineAttemptState :=
  if bool_decide (returnVal st = None) && negb (isVoidTy (freturnType F)) then
    set_returnVal (fst (scanFunctionForReturn F HO st (returnVal st, false))) st
  else st.

Definition localFoldConstants (F : Program) (HO : FolderOracle)
  (st : InlineAttemptState) (args : list (Value * Value)) : InlineAttemptState :=
  findReturnValue F HO (considerCalls HO (H_getBenefit HO st args)).

(** The end of [considerSubAttempt], after [IA->foldArguments]: the
    attempt of the call [CI] afterwards and the roots [newLocalRoots] that
    the caller folds for the call. *)
Definition forwardReturnValue (CI : Value) (st : InlineAttemptState)
  : InlineAttemptState * list (Value * Value) :=
  if negb (returnValueAlreadyKnown st) then
    match returnVal st with
    | Some C =>
        ({| initialConsts := initialConsts st;
            initialIgnoreEdges := initialIgnoreEdges st;
            returnValueAlreadyKnown := true; returnVal := returnVal st |},
         [(CI, C)])
    | None => (st, [])
    end
  else (st, []).

(** The live return instructions of the function, in scan order. *)
Definition liveReturns (F : Program) (HO : FolderOracle) (st : InlineAttemptState)
  : list Value :=
  flat_map (fun FI => List.filter (hasOpcode F Ret) (insts F FI))
    (List.filter (fun FI => negb (HCF_blockIsDead HO FI (initialIgnoreEdges st)))
       (fblocks F)).

(** The state [(returnVal, foundReturnInst)] of the search after the
    return instructions [rets] of live blocks have been passed, when the
    search began with no return value. *)
Definition searchStateAfter (F : Program) (st : InlineAttemptState) (rets : list Value)
  : option Value * bool :=
  match rets with
  | [] => (None, false)
  | [RI] => (returnedConstant F st RI, true)
  | _ :: _ :: _ => (None, true)
  end.

(** ** Example functions and contexts *)

(** A function without loops, given by its control-flow graph and its
    instruction tables; every value has type [i32]. *)
Definition plainProgram (blocks : list Block) (entry : Block)
  (prd scs : Block -> list Block) (ins : Block -> list Value)
  (opc : Value -> Opcode) (par : Value -> Block) (cond : Value -> Value)
  (incoming : Value -> Block -> Value) (retv : Value -> Value) : Program :=
  {| fblocks := blocks; fentry := entry; freturnType := IntegerTy 32;
     preds := prd; succs := scs; insts := ins;
     getOpcode := opc; getParent := par; getType := fun _ => IntegerTy 32;
     getOperands := fun _ => []; getPredicate := fun _ => ICMP_EQ;
     getCondition := cond; getTrueValue := fun V => V; getFalseValue := fun V => V;
     getSrcTy := fun _ => IntegerTy 32; getDestTy := fun _ => IntegerTy 32;
     findCaseValue := fun _ _ => 0; getReturnValue := retv;
     getIncomingValueForBlock := incoming; mayHaveSideEffects := fun _ => false;
     getLoopFor := fun _ => None; getHeader := fun _ => 0;
     getLoopPreheader := fun _ => 0; getLoopLatch := fun _ => 0;
     getExitEdges := fun _ => []; getParentLoop := fun _ => None;
     containsBlock := fun _ _ => false; contains := fun _ _ => false |}.

(** [entry: br i1 true, %then, %other], [then: ret i32 1],
    [other: %x = phi i32 [7, %entry]; ret i32 %x]. *)
Definition branchProgram : Program :=
  plainProgram [0; 1; 2] 0
    (fun BB => match BB with 1 | 2 => [0] | _ => [] end)
    (fun BB => match BB with 0 => [1; 2] | _ => [] end)
    (fun BB => match BB with
               | 0 => [Instruction 0]
               | 1 => [Instruction 2]
               | 2 => [Instruction 1; Instruction 3]
               | _ => []
               end)
    (fun V => match V with
              | Instruction 0 => Br
              | Instruction 1 => PHI
              | _ => Ret
              end)
    (fun V => match V with
              | Instruction 1 | Instruction 3 => 2
              | Instruction 2 => 1
              | _ => 0
              end)
    (fun _ => ConstantInt 1 1)
    (fun _ _ => ConstantInt 32 7)
    (fun V => match V with
              | Instruction 2 => ConstantInt 32 1
              | _ => Instruction 1
              end).

(** [entry: br i1 %c, %a, %b], [a: br %join], [b: br %join],
    [join: %x = phi [1, %a], [1, %b]; %y = phi [1, %a], [2, %b]; ret %x]. *)
Definition mergeProgram : Program :=
  plainProgram [0; 1; 2; 3] 0
    (fun BB => match BB with 1 | 2 => [0] | 3 => [1; 2] | _ => [] end)
    (fun BB => match BB with 0 => [1; 2] | 1 | 2 => [3] | _ => [] end)
    (fun BB => match BB with
               | 0 => [Instruction 0]
               | 1 => [Instruction 1]
               | 2 => [Instruction 2]
               | 3 => [Instruction 5; Instruction 6; Instruction 7]
               | _ => []
               end)
    (fun V => match V with
              | Instruction 5 | Instruction 6 => PHI
              | Instruction 7 => Ret
              | _ => Br
              end)
    (fun V => match V with
              | Instruction 1 => 1
              | Instruction 2 => 2
              | Instruction 5 | Instruction 6 | Instruction 7 => 3
              | _ => 0
              end)
    (fun _ => Argument 0)
    (fun PN PI => match PN, PI with
                  | Instruction 6, 2 => ConstantInt 32 2
                  | _, _ => ConstantInt 32 1
                  end)
    (fun _ => Instruction 5).

(** A counting loop: preheader 0, header 1 (which also exits to 3),
    latch 2.  [%i = phi [0, %pre], [%next, %latch]] in the header,
    [%next] in the latch, and the exit PHI [%r = phi [%i, %header]] in
    block 3. *)
Definition loopProgram : Program :=
  {| fblocks := [0; 1; 2; 3]; fentry := 0; freturnType := IntegerTy 32;
     preds := fun BB => match BB with 1 => [0; 2] | 2 => [1] | 3 => [1] | _ => [] end;
     succs := fun BB => match BB with 0 => [1] | 1 => [2; 3] | 2 => [1] | _ => [] end;
     insts := fun BB => match BB with
                        | 0 => [Instruction 0]
                        | 1 => [Instruction 1; Instruction 5]
                        | 2 => [Instruction 2; Instruction 6]
                        | 3 => [Instruction 4; Instruction 7]
                        | _ => []
                        end;
     getOpcode := fun V => match V with
                           | Instruction 1 | Instruction 4 => PHI
                           | Instruction 2 => BinaryOp
                           | Instruction 7 => Ret
                           | _ => Br
                           end;
     getParent := fun V => match V with
                           | Instruction 1 | Instruction 5 => 1
                           | Instruction 2 | Instruction 6 => 2
                           | Instruction 4 | Instruction 7 => 3
                           | _ => 0
                           end;
     getType := fun _ => IntegerTy 32;
     getOperands := fun _ => []; getPredicate := fun _ => ICMP_EQ;
     getCondition := fun _ => Argument 0;
     getTrueValue := fun V => V; getFalseValue := fun V => V;
     getSrcTy := fun _ => IntegerTy 32; getDestTy := fun _ => IntegerTy 32;
     findCaseValue := fun _ _ => 0; getReturnValue := fun _ => Instruction 4;
     getIncomingValueForBlock :=
       fun PN PI => match PN, PI with
                    | Instruction 1, 0 => ConstantInt 32 0
                    | Instruction 1, _ => Instruction 2
                    | _, _ => Instruction 1
                    end;
     mayHaveSideEffects := fun _ => false;
     getLoopFor := fun BB => match BB with 1 | 2 => Some 0 | _ => None end;
     getHeader := fun _ => 1; getLoopPreheader := fun _ => 0;
     getLoopLatch := fun _ => 2; getExitEdges := fun _ => [(1, 3)];
     getParentLoop := fun _ => None;
     containsBlock := fun _ BB => match BB with 1 | 2 => true | _ => false end;
     contains := fun _ X => bool_decide (X = Some 0) |}.

(** [mergeProgram] with loads as PHI operands: [%x = phi [%l10, %a],
    [%l11, %b]] and [%y = phi [%l20, %a], [%l20, %b]], the loads being in
    the entry block. *)
Definition operandProgram : Program :=
  plainProgram [0; 1; 2; 3] 0
    (fun BB => match BB with 1 | 2 => [0] | 3 => [1; 2] | _ => [] end)
    (fun BB => match BB with 0 => [1; 2] | 1 | 2 => [3] | _ => [] end)
    (fun BB => match BB with
               | 0 => [Instruction 10; Instruction 11; Instruction 20; Instruction 21;
                       Instruction 0]
               | 1 => [Instruction 1]
               | 2 => [Instruction 2]
               | 3 => [Instruction 5; Instruction 6; Instruction 7]
               | _ => []
               end)
    (fun V => match V with
              | Instruction 5 | Instruction 6 => PHI
              | Instruction 7 => Ret
              | Instruction 10 | Instruction 11 | Instruction 20 | Instruction 21 => Load
              | _ => Br
              end)
    (fun V => match V with
              | Instruction 1 => 1
              | Instruction 2 => 2
              | Instruction 5 | Instruction 6 | Instruction 7 => 3
              | _ => 0
              end)
    (fun _ => Argument 0)
    (fun PN PI => match PN, PI with
                  | Instruction 5, 1 => Instruction 10
                  | Instruction 5, _ => Instruction 11
                  | _, _ => Instruction 20
                  end)
    (fun _ => Instruction 5).

(** The root inline attempt, context 0. *)
Definition rootAttempt : Attempt :=
  {| self := 0; kind := InlineAttempt None None;
     getDefaultVC := fun V => if isConstant V then const_vc V else make_vc V 0 |}.

(** Iteration 1 of the peel attempt of loop 0, whose iterations are the
    contexts 10 and 11. *)
Definition secondIteration : Attempt :=
  {| self := 11; kind := PeelIteration 0 1 0 [10; 11];
     getDefaultVC := fun V => if isConstant V then const_vc V else make_vc V 11 |}.

(** A context on its own: no children, no improvements elsewhere, and an
    edge is dead iff it is in [deadEdges]. *)
Definition localOracle : Oracle :=
  {| getValueScope := fun _ => None; getEdgeScope := fun _ _ => None;
     getBlockScopeVariant := fun _ => None;
     edgeIsDead := fun st FromBB ToBB => bool_decide ((FromBB, ToBB) ∈ deadEdges st);
     getReplacementAt := fun C V => make_vc V C;
     getUltimateUnderlyingObject := fun C V => make_vc V C;
     isIdentifiedObject := fun _ => false;
     forwardableOpenCalls := fun _ _ => false;
     getPeelAttempt := fun _ => None; getInlineAttempt := fun _ => None;
     getOrCreatePeelAttempt_ok := fun _ _ => false;
     getOrCreateInlineAttempt_ok := fun _ _ => false;
     statusAfterNextIteration := fun st => iterStatus st;
     tryGetReturnValue := fun _ => VCNull;
     getImprovedCallArgument := fun _ => VCNull;
     tryForwardLoad := fun _ _ => VCNull;
     valueIsDead := fun _ _ => false;
     isAvailable := fun _ => true;
     callWithScope := fun _ => None;
     constantFold := fun _ _ => None |}.


(** The oracle [O] at a moment when every use of every value is dead. *)
Definition allUsesDead (O : Oracle) : Oracle :=
  {| getValueScope := getValueScope O; getEdgeScope := getEdgeScope O;
     getBlockScopeVariant := getBlockScopeVariant O;
     edgeIsDead := edgeIsDead O;
     getReplacementAt := getReplacementAt O;
     getUltimateUnderlyingObject := getUltimateUnderlyingObject O;
     isIdentifiedObject := isIdentifiedObject O;
     forwardableOpenCalls := forwardableOpenCalls O;
     getPeelAttempt := getPeelAttempt O; getInlineAttempt := getInlineAttempt O;
     getOrCreatePeelAttempt_ok := getOrCreatePeelAttempt_ok O;
     getOrCreateInlineAttempt_ok := getOrCreateInlineAttempt_ok O;
     statusAfterNextIteration := statusAfterNextIteration O;
     tryGetReturnValue := tryGetReturnValue O;
     getImprovedCallArgument := getImprovedCallArgument O;
     tryForwardLoad := tryForwardLoad O;
     valueIsDead := fun _ _ => true;
     isAvailable := isAvailable O;
     callWithScope := callWithScope O;
     constantFold := constantFold O |}.

(** The tree around [loopProgram]: loop 0 has a peel attempt whose
    iterations 10 and 11 are not final; in iteration 10 [%next] is
    improved to 5. *)
Definition peelOracle : Oracle :=
  {| getValueScope := fun V => match V with
                               | Instruction 1 | Instruction 2 => Some 0
                               | _ => None
                               end;
     getEdgeScope := fun _ _ => None;
     getBlockScopeVariant := fun _ => None;
     edgeIsDead := fun st FromBB ToBB => bool_decide ((FromBB, ToBB) ∈ deadEdges st);
     getReplacementAt :=
       fun C V => match C, V with
                  | 10, Instruction 2 => const_vc (ConstantInt 32 5)
                  | _, _ => make_vc V C
                  end;
     getUltimateUnderlyingObject := fun C V => make_vc V C;
     isIdentifiedObject := fun _ => false;
     forwardableOpenCalls := fun _ _ => false;
     getPeelAttempt :=
       fun L => match L with
                | 0 => Some {| firstIteration :=
                                 {| iterCtx := 10; iterStatusOf := IterationStatusUnknown |};
                               laterIterations :=
                                 [{| iterCtx := 11;
                                     iterStatusOf := IterationStatusUnknown |}] |}
                | _ => None
                end;
     getInlineAttempt := fun _ => None;
     getOrCreatePeelAttempt_ok := fun _ _ => true;
     getOrCreateInlineAttempt_ok := fun _ _ => false;
     statusAfterNextIteration := fun st => iterStatus st;
     tryGetReturnValue := fun _ => VCNull;
     getImprovedCallArgument := fun _ => VCNull;
     tryForwardLoad := fun _ _ => VCNull;
     valueIsDead := fun _ _ => false;
     isAvailable := fun _ => true;
     callWithScope := fun _ => None;
     constantFold := fun _ _ => None |}.

(** The run of [branchProgram] in the root context: the PHI is evaluated,
    then the branch, then block 2 is checked. *)
Definition afterPHI : IAState :=
  runItems branchProgram rootAttempt [(localOracle, TryEvaluate (Instruction 1))]
    initialState.

Definition afterBranch : IAState :=
  runItems branchProgram rootAttempt [(localOracle, TryEvaluate (Instruction 0))]
    afterPHI.

(** [operandProgram] after both operands of [%x] were improved to 7. *)
Definition bothSeven : IAState :=
  setReplacement (Instruction 10) (const_vc (ConstantInt 32 7))
    (setReplacement (Instruction 11) (const_vc (ConstantInt 32 7)) initialState).

(** An inline attempt of [LoopPeelHeuristics.cpp] with nothing known. *)
Definition freshInlineAttempt : InlineAttemptState :=
  {| initialConsts := ∅; initialIgnoreEdges := ∅; returnValueAlreadyKnown := false;
     returnVal := None |}.

(** [entry: ret i32 %arg], and an inline attempt of it in which [%arg]
    is known to be 10. *)
Definition identityProgram : Program :=
  plainProgram [0] 0 (fun _ => []) (fun _ => [])
    (fun BB => match BB with 0 => [Instruction 0] | _ => [] end)
    (fun _ => Ret) (fun _ => 0) (fun V => V) (fun V _ => V) (fun _ => Argument 0).

Definition argumentKnown : InlineAttemptState :=
  {| initialConsts := {[ Argument 0 := ConstantInt 32 10 ]}; initialIgnoreEdges := ∅;
     returnValueAlreadyKnown := false; returnVal := None |}.

(** A folder that has found the blocks in [dead] dead. *)
Definition folderWithDead (dead : list Block) : FolderOracle :=
  {| HCF_blockIsDead := fun BB _ => bool_decide (BB ∈ dead);
     H_getBenefit := fun st _ => st;
     considerCalls := fun st => st |}.

(** A walker that walks on at every instruction and enters no call, and
    the walk environment of [loopProgram] in the single context 0. *)
Definition plainWalker : WalkerClass unit :=
  {| walkInstruction := fun s _ _ => (s, WIRContinue);
     shouldEnterCall := fun _ _ _ => false;
     blockedByUnexpandedCall := fun s _ _ => (s, false) |}.

Definition loopWalkEnv : WalkEnv :=
  {| programOf := fun _ => loopProgram;
     kindAt := fun _ => InlineAttempt None None;
     inlineAttemptAt := fun _ _ => None;
     blockIsDeadAt := fun _ _ => false;
     queueNormalPredecessorsBW :=
       fun _ BB => map (fun PB => (length (insts loopProgram PB), PB, 0))
                     (preds loopProgram BB);
     queueSuccessorsFW :=
       fun _ BB => map (fun SB => (0, SB, 0)) (succs loopProgram BB) |}.

(** All block-end and block-begin cursors of [loopProgram] in context 0. *)
Definition loopCursors : list BIC :=
  [(1, 0, 0); (2, 1, 0); (2, 2, 0); (2, 3, 0); (0, 0, 0); (0, 1, 0); (0, 2, 0); (0, 3, 0)].

(** ** Further members of the integration attempts *)

(** The [n]-th loop on the parent chain of [L], [L] being the 0-th. *)
Fixpoint ancestorLoop (P : Program) (n : nat) (L : Loop) : option Loop :=
  match n with
  | 0 => Some L
  | S n' =>
      match getParentLoop P L with
      | Some up => ancestorLoop P n' up
      | None => None
      end
  end.

(** Only the request log differs. *)
Definition sameTables (st st' : IAState) : Prop :=
  deadBlocks st' = deadBlocks st /\ certainBlocks st' = certainBlocks st
  /\ deadEdges st' = deadEdges st /\ improvedValues st' = improvedValues st
  /\ deadValues st' = deadValues st /\ iterStatus st' = iterStatus st
  /\ CFGBlockedLoads st' = CFGBlockedLoads st
  /\ CFGBlockedOpens st' = CFGBlockedOpens st.

(** ** Uses and operands *)

(** Use lists, PHI operands, call sites and formal arguments of the host
    IR. *)
Record UseInfo := {
  arg_size : nat;                            (* F.arg_size() *)
  users : Value -> list Value;               (* V->use_begin() .. V->use_end() *)
  getIncomingValues : Value -> list Value;   (* PN->getIncomingValue(0 .. n-1) *)
  getCalledValue : Value -> Value;           (* CI->getCalledValue() *)
  getArgOperands : Value -> list Value;      (* CI->getArgOperand(0 .. n-1) *)
  mayWriteToMemory : Value -> bool
}.

Section Operands.

Context (P : Program) (A : Attempt) (O : Oracle) (U : UseInfo).

(** [walkHeaderPHIOperands]: [Some] of the callbacks made when it returns
    true, [None] when it returns false. *)
Definition InlineAttempt_walkHeaderPHIOperands (PN : Value) : option (list (Ctx * Value)) :=
  None.

(** [std::find(Iterations.begin(), Iterations.end(), this)] followed by
    [it--]: the iteration before the first occurrence of [this], the last
    iteration if there is none.  On an empty vector (where the code reads
    [Iterations[0]]) no callback is made. *)
Definition PeelIteration_walkHeaderPHIOperands (L : Loop) (parent : Ctx)
  (parentPA : list Ctx) (PN : Value) : option (list (Ctx * Value)) :=
  if bool_decide (getParent P PN = getHeader P L) then
    if bool_decide (parentPA !! 0 = Some (self A)) then
      Some [(parent, getIncomingValueForBlock P PN (getLoopPreheader P L))]
    else
      let it := match list_find (fun C => C = self A) parentPA with
                | Some r => fst r
                | None => length parentPA
                end in
      match parentPA !! (it - 1) with
      | Some C => Some [(C, getIncomingValueForBlock P PN (getLoopLatch P L))]
      | None => Some []
      end
  else None.

Definition walkHeaderPHIOperands (PN : Value) : option (list (Ctx * Value)) :=
  match kind A with
  | InlineAttempt _ _ => InlineAttempt_walkHeaderPHIOperands PN
  | PeelIteration L _ parent parentPA =>
      PeelIteration_walkHeaderPHIOperands L parent parentPA PN
  end.

(** [IntegrationAttempt::walkOperands]: the contexts and values on which
    the callback runs, in order. *)
Definition IntegrationAttempt_walkOperands (V : Value) : list (Ctx * Value) :=
  if isInstruction V then
    if hasOpcode P PHI V then
      match (if bool_decide (getLoopContext A = getValueScope O V)
             then walkHeaderPHIOperands V else None) with
      | Some callbacks => callbacks
      | None => omap (walkOperand P A O) (getIncomingValues U V)
      end
    else omap (walkOperand P A O) (getOperands P V)
  else [].

(** [InlineAttempt::walkOperands]: an argument sends the caller to the
    operand of the call. *)
Definition InlineAttempt_walkOperands (parent : option Ctx) (CI : option Value)
  (V : Value) : list (Ctx * Value) :=
  match V with
  | Argument ArgNo =>
      match CI, parent with
      | Some ci, Some p =>
          match getArgOperands U ci !! ArgNo with
          | Some op => [(p, op)]
          | None => []
          end
      | _, _ => []
      end
  | _ => IntegrationAttempt_walkOperands V
  end.

Definition walkOperands (V : Value) : list (Ctx * Value) :=
  match kind A with
  | InlineAttempt parent CI => InlineAttempt_walkOperands parent CI V
  | PeelIteration _ _ _ _ => IntegrationAttempt_walkOperands V
  end.

(** [queueDIEOperands]: [QueueDIECallback] calls [Ctx->queueDIE(V)] for
    every operand walked; the calls made in this context change its
    state, the others are the list returned. *)
Definition queueDIEOperands (st : IAState) (V : Value) : IAState * list (Ctx * Value) :=
  fold_left
    (fun r cb =>
       if bool_decide (fst cb = self A) then (queueDIE P A O (fst r) (snd cb), snd r)
       else (fst r, snd r ++ [cb]))
    (walkOperands V) (st, []).

(** [IntegrationAttempt::queueAllLiveValuesMatching]: the state after the
    loop over the blocks.  The two loops that follow hand the same
    predicate to every inline child and to every iteration of every peel
    child. *)
Definition IntegrationAttempt_queueAllLiveValuesMatching (Pred : Value -> bool)
  (st : IAState) : IAState :=
  let MyL := getLoopContext A in
  fold_left
    (fun st BB =>
       if blockIsDead st BB then st
       else if match MyL with Some m => negb (containsBlock P m BB) | None => false end
       then st
       else
         fold_left
           (fun st I =>
              if bool_decide (getValueScope O I <> MyL) then st
              else if Pred I then queueDIE P A O st I else st)
           (insts P BB) st)
    (fblocks P) st.

(** [InlineAttempt::queueAllLiveValuesMatching] looks at the formal
    arguments [Argument 0 .. Argument (arg_size - 1)] of the function
    first. *)
Definition InlineAttempt_queueAllLiveValuesMatching (Pred : Value -> bool)
  (st : IAState) : IAState :=
  let st :=
    fold_left
      (fun st Arg =>
         if negb (localValueIsDead P A O st Arg) && Pred Arg
         then queueDIE P A O st Arg else st)
      (map Argument (seq 0 (arg_size U))) st in
  IntegrationAttempt_queueAllLiveValuesMatching Pred st.

Definition queueAllLiveValuesMatching (Pred : Value -> bool) (st : IAState) : IAState :=
  match kind A with
  | InlineAttempt _ _ => InlineAttempt_queueAllLiveValuesMatching Pred st
  | PeelIteration _ _ _ _ => IntegrationAttempt_queueAllLiveValuesMatching Pred st
  end.

(** [queueAllReturnInsts], that is [queueAllLiveValuesMatching] with the
    predicate [isa<ReturnInst>], with the children of the context as
    [inlineChildren] and [peelChildren] list them.  The same call on a
    child is what [queueAllReturnInsts] does there, and is logged as
    that. *)
Definition queueAllReturnInsts (inlineChildren : list (Value * Ctx))
  (peelChildren : list (Loop * PeelAttempt)) (st : IAState) : IAState :=
  let st := queueAllLiveValuesMatching (hasOpcode P Ret) st in
  let st :=
    fold_left (fun st c => request (call_queueAllReturnInsts (snd c)) st)
      inlineChildren st in
  fold_left
    (fun st pa =>
       fold_left (fun st it => request (call_queueAllReturnInsts (iterCtx it)) st)
         (Iterations (snd pa)) st)
    peelChildren st.

(** The instructions that the loop over the blocks in
    [queueAllLiveValuesMatching] hands to the pass: those of the live
    blocks of the scope that belong to the scope, match the predicate, may
    be eliminated and are not dead yet. *)
Definition liveValuesMatching (Pred : Value -> bool) (st : IAState) : list Value :=
  flat_map
    (fun BB =>
       List.filter
         (fun I => bool_decide (getValueScope O I = getLoopContext A) && Pred I
                   && shouldDIE P O I && negb (localValueIsDead P A O st I))
         (insts P BB))
    (List.filter
       (fun BB => negb (blockIsDead st BB)
                  && match getLoopContext A with
                     | Some m => containsBlock P m BB
                     | None => true
                     end)
       (fblocks P)).

End Operands.

(** [InstBlockedLoads] and [InstBlockedOpens]: the work that waits for an
    instruction of this context. *)
Record BlockedWork := {
  InstBlockedLoads : gmap Value (list (Ctx * Value));
  InstBlockedOpens : gmap Value (list (ValCtx * ValCtx))
}.

(** [queueWorkBlockedOn(SI)]: the two tables afterwards and the requests
    made to the pass. *)
Definition queueWorkBlockedOn (P : Program) (U : UseInfo) (bw : BlockedWork) (SI : Value)
  : BlockedWork * list Request :=
  let r1 :=
    if mayWriteToMemory U SI then
      match InstBlockedLoads bw !! SI with
      | Some blocked =>
          ({| InstBlockedLoads := delete SI (InstBlockedLoads bw);
              InstBlockedOpens := InstBlockedOpens bw |},
           map (fun LI => pass_queueCheckLoad (fst LI) (snd LI)) blocked)
      | None => (bw, [])
      end
    else (bw, []) in
  if hasOpcode P Call SI then
    match InstBlockedOpens (fst r1) !! SI with
    | Some blocked =>
        ({| InstBlockedLoads := InstBlockedLoads (fst r1);
            InstBlockedOpens := delete SI (InstBlockedOpens (fst r1)) |},
         snd r1 ++ map (fun OI => pass_queueOpenPush (fst OI) (snd OI)) blocked)
    | None => r1
    end
  else r1.

(** ** The users of a value across the context tree *)

(** A peel attempt as the users of a value are looked for in it: its
    loop, and for each iteration its context and the peel attempts of the
    loops nested in it. *)
#[local] Unset Elimination Schemes.
Inductive PeelTree :=
| PeelNode (L : Loop) (iterations : list (Ctx * list PeelTree)).

#[local] Set Elimination Schemes.

Definition peelLoop (PA : PeelTree) : Loop :=
  match PA with PeelNode L _ => L end.

(** What a walk over the users does to its visitor: [Visitor.visit(Ctx,
    UserI)] or [Visitor.notifyUsersMissed()]. *)
Inductive VisitEvent :=
| VisitAt (C : Ctx) (UserI : Value)
| UsersMissed.

(** [PeelAttempt::visitVariant], with [PeelIteration::visitVariant]
    inlined at its call: an iteration looks up the peel attempt of its
    child loop towards [VILoop] ([getPeelAttempt], the inner loop over the
    children) and hands the instruction down. *)
Fixpoint PeelAttempt_visitVariant (P : Program) (PA : PeelTree) (VI : Value)
  (VILoop : Loop) : list VisitEvent :=
  match PA with
  | PeelNode L iterations =>
      if bool_decide (VILoop = L) && bool_decide (getParent P VI = getHeader P L)
         && hasOpcode P PHI VI
      then
        match iterations with
        | it0 :: _ => [VisitAt (fst it0) VI]
        | [] => []
        end
      else
        (fix each (its : list (Ctx * list PeelTree)) : list VisitEvent :=
           match its with
           | [] => []
           | it :: its' =>
               (if bool_decide (VILoop = L) then [VisitAt (fst it) VI]
                else
                  match immediateChildLoop P (Some L) VILoop with
                  | Some immediateChild =>
                      (fix getPeelAttempt (children : list PeelTree) : list VisitEvent :=
                         match children with
                         | [] => []
                         | LPA :: children' =>
                             if bool_decide (peelLoop LPA = immediateChild)
                             then PeelAttempt_visitVariant P LPA VI VILoop
                             else getPeelAttempt children'
                         end) (snd it)
                  | None => []
                  end)
               ++ each its'
           end) iterations
  end.

(** What the walk over the users reads around the context: its peel
    children as trees, the members declared in the absent header, and the
    tables of the other contexts. *)
Record Surroundings := {
  peelChildren : list PeelTree;
  getNextIteration : option Ctx;
  localValueIsDeadAt : Ctx -> Value -> bool;         (* C->localValueIsDead(V) *)
  getInlineAttemptAt : Ctx -> Value -> option Ctx;   (* C->getInlineAttempt(CI) *)
  isOwnCallUnused : bool             (* getFunctionRoot()->isOwnCallUnused() *)
}.

(** [class VisitorContext] over the state [S] of the visitor. *)
Record VisitorContext (S : Type) := {
  visit : S -> Ctx -> Value -> S;
  notifyUsersMissed : S -> S;
  shouldContinue : S -> bool
}.

Arguments visit {S}.
Arguments notifyUsersMissed {S}.
Arguments shouldContinue {S}.

Section Users.

Context (P : Program) (A : Attempt) (O : Oracle) (U : UseInfo) (E : Surroundings)
  (st : IAState).

(** [getPeelAttempt(L)] on the children of this context. *)
Definition getPeelTree (L : Loop) : option PeelTree :=
  head (List.filter (fun LPA => bool_decide (peelLoop LPA = L)) (peelChildren E)).

(** [visitNextIterationPHI]: [Some] of what the visitor is told when it
    returns true, [None] when it returns false. *)
Definition visitNextIterationPHI (I : Value) : option (list VisitEvent) :=
  match kind A with
  | InlineAttempt _ _ => None
  | PeelIteration L _ _ _ =>
      if hasOpcode P PHI I && bool_decide (getParent P I = getHeader P L) then
        match getNextIteration E with
        | Some PI => Some [VisitAt PI I]
        | None => Some [UsersMissed]
        end
      else None
  end.

(** [visitExitPHI]; the base class asserts that it is not called. *)
Definition visitExitPHI (UserI : Value) : list VisitEvent :=
  match kind A with
  | InlineAttempt _ _ => []
  | PeelIteration _ _ parent _ =>
      match PeelIteration_visitExitPHI st parent UserI with
      | Some r => [VisitAt (fst r) (snd r)]
      | None => []
      end
  end.

(** The body of the loop of [visitUsers] for one user.  A user whose
    scope is no loop, or whose chain of loops does not pass below this
    context, makes the code follow a null pointer; the model tells the
    visitor nothing then. *)
Definition visitUser (UI : Value) : list VisitEvent :=
  if isInstruction UI then
    let UserI := UI in
    let L := getValueScope O UserI in
    let MyL := getLoopContext A in
    if bool_decide (L = MyL) then
      match visitNextIterationPHI UserI with
      | Some told => told
      | None => [VisitAt (self A) UserI]
      end
    else if match MyL with Some m => contains P m L | None => true end then
      match L with
      | Some l =>
          match immediateChildLoop P MyL l with
          | Some outermostChildLoop =>
              match getPeelTree outermostChildLoop with
              | Some LPA => PeelAttempt_visitVariant P LPA UserI l
              | None => [UsersMissed]
              end
          | None => []
          end
      | None => []
      end
    else visitExitPHI UserI
  else [].

Definition tell {S : Type} (Visitor : VisitorContext S) (s : S) (e : VisitEvent) : S :=
  match e with
  | VisitAt C UserI => visit Visitor s C UserI
  | UsersMissed => notifyUsersMissed Visitor s
  end.

(** [for(UI = V->use_begin(); UI != UE && Visitor.shouldContinue(); ++UI)] *)
Fixpoint visitUsers_from {S : Type} (Visitor : VisitorContext S) (us : list Value)
  (s : S) : S :=
  match us with
  | [] => s
  | UI :: us' =>
      if shouldContinue Visitor s
      then visitUsers_from Visitor us' (fold_left (tell Visitor) (visitUser UI) s)
      else s
  end.

Definition visitUsers {S : Type} (Visitor : VisitorContext S) (V : Value) (s : S) : S :=
  visitUsers_from Visitor (users U V) s.

(** [C->localValueIsDead(V)] and [C->getInlineAttempt(CI)], in this
    context or in another one. *)
Definition localValueIsDeadIn (C : Ctx) (V : Value) : bool :=
  if bool_decide (C = self A) then localValueIsDead P A O st V
  else localValueIsDeadAt E C V.

Definition getInlineAttemptIn (C : Ctx) (CI : Value) : option Ctx :=
  if bool_decide (C = self A) then getInlineAttempt O CI else getInlineAttemptAt E C CI.

(** The loop of [DIVisitor::visit] over the operands of a call, from
    operand [i]; the formal argument [i] of the callee is [Argument i]. *)
Fixpoint argumentMaybeLive (IA : Ctx) (V : Value) (i : nat) (ops : list Value)
  (maybeLive : bool) : bool :=
  match ops with
  | [] => maybeLive
  | op :: ops' =>
      if bool_decide (op = V) && negb (localValueIsDeadIn IA (Argument i)) then true
      else argumentMaybeLive IA V (S i) ops' maybeLive
  end.

(** [class DIVisitor]; its state is the member [maybeLive]. *)
Definition DIVisitor (V : Value) : VisitorContext bool :=
  {| visit := fun maybeLive C UserI =>
       if localValueIsDeadIn C UserI then maybeLive
       else if hasOpcode P Call UserI then
         match getInlineAttemptIn C UserI with
         | None => true
         | Some IA =>
             if bool_decide (V = getCalledValue U UserI) then true
             else argumentMaybeLive IA V 0 (getArgOperands U UserI) maybeLive
         end
       else true;
     notifyUsersMissed := fun _ => true;
     shouldContinue := fun maybeLive => negb maybeLive |}.

(** [IntegrationAttempt::valueIsDead] *)
Definition IntegrationAttempt_valueIsDead (V : Value) : bool :=
  if hasOpcode P Ret V then isOwnCallUnused E
  else negb (visitUsers (DIVisitor V) V false).

(** A use that does not keep [V] alive: the user is dead where it is
    visited, or it is a call with an inline attempt that does not call [V]
    and in which every formal argument that receives [V] is dead. *)
Definition deadUse (V : Value) (e : VisitEvent) : Prop :=
  match e with
  | UsersMissed => False
  | VisitAt C UserI =>
      localValueIsDeadIn C UserI = true
      \/ (hasOpcode P Call UserI = true
          /\ exists IA,
               getInlineAttemptIn C UserI = Some IA
               /\ V <> getCalledValue U UserI
               /\ forall i op, getArgOperands U UserI !! i = Some op -> op = V ->
                               localValueIsDeadIn IA (Argument i) = true)
  end.

(** Whether an event sets [maybeLive]. *)
Definition keepsAlive (V : Value) (e : VisitEvent) : bool :=
  match e with
  | UsersMissed => true
  | VisitAt C UserI =>
      negb (localValueIsDeadIn C UserI)
      && (if hasOpcode P Call UserI then
            match getInlineAttemptIn C UserI with
            | None => true
            | Some IA =>
                bool_decide (V = getCalledValue U UserI)
                || argumentMaybeLive IA V 0 (getArgOperands U UserI) false
            end
          else true)
  end.

End Users.

(** The oracle [O] with [valueIsDead] computed by [f]. *)
Definition withValueIsDead (f : IAState -> Value -> bool) (O : Oracle) : Oracle :=
  {| getValueScope := getValueScope O; getEdgeScope := getEdgeScope O;
     getBlockScopeVariant := getBlockScopeVariant O;
     edgeIsDead := edgeIsDead O;
     getReplacementAt := getReplacementAt O;
     getUltimateUnderlyingObject := getUltimateUnderlyingObject O;
     isIdentifiedObject := isIdentifiedObject O;
     forwardableOpenCalls := forwardableOpenCalls O;
     getPeelAttempt := getPeelAttempt O; getInlineAttempt := getInlineAttempt O;
     getOrCreatePeelAttempt_ok := getOrCreatePeelAttempt_ok O;
     getOrCreateInlineAttempt_ok := getOrCreateInlineAttempt_ok O;
     statusAfterNextIteration := statusAfterNextIteration O;
     tryGetReturnValue := tryGetReturnValue O;
     getImprovedCallArgument := getImprovedCallArgument O;
     tryForwardLoad := tryForwardLoad O;
     valueIsDead := f;
     isAvailable := isAvailable O;
     callWithScope := callWithScope O;
     constantFold := constantFold O |}.

(** ** Alias analysis over value-context pairs ([BasicAliasAnalysis.cpp]) *)

Inductive ExtensionKind :=
| EK_NotExtended
| EK_SignExt
| EK_ZeroExt.

#[global] Instance ExtensionKind_eq_dec : EqDecision ExtensionKind.
Proof. solve_decision. Defined.

(** [struct VariableGEPIndex]; [Scale] is an [int64_t]. *)
Record VariableGEPIndex := {
  VC : ValCtx;
  Extension : ExtensionKind;
  Scale : Z
}.

(** Two's complement arithmetic on [int64_t]. *)
Definition int64 (z : Z) : Z := ((z + 2 ^ 63) mod 2 ^ 64 - 2 ^ 63)%Z.

(** The inner loop of [GetIndexDifference]: the first entry of [Dest] for
    [(V, E)] has [Scale] subtracted, or is erased if that leaves nothing;
    [None] if there is no such entry. *)
Fixpoint subtractScale (Dest : list VariableGEPIndex) (V : ValCtx) (E : ExtensionKind)
  (Scale_ : Z) : option (list VariableGEPIndex) :=
  match Dest with
  | [] => None
  | d :: Dest' =>
      if bool_decide (VC d <> V) || bool_decide (Extension d <> E) then
        match subtractScale Dest' V E Scale_ with
        | Some r => Some (d :: r)
        | None => None
        end
      else if bool_decide (Scale d <> Scale_) then
        Some ({| VC := VC d; Extension := Extension d;
                 Scale := int64 (Scale d - Scale_) |} :: Dest')
      else Some Dest'
  end.

(** [GetIndexDifference(Dest, Src)]: [Dest] afterwards. *)
Definition GetIndexDifference (Dest Src : list VariableGEPIndex)
  : list VariableGEPIndex :=
  fold_left
    (fun Dest s =>
       match subtractScale Dest (VC s) (Extension s) (Scale s) with
       | Some Dest' => Dest'
       | None =>
           if bool_decide (Scale s <> 0%Z) then
             Dest ++ [{| VC := VC s; Extension := Extension s;
                         Scale := int64 (- Scale s) |}]
           else Dest
       end)
    Src Dest.

(** The offset in bytes that a list of scaled indices stands for, when the
    index [(V, E)] has the value [rho V E]. *)
Definition indexOffset (rho : ValCtx -> ExtensionKind -> Z) (l : list VariableGEPIndex)
  : Z :=
  fold_right (fun d acc => (Scale d * rho (VC d) (Extension d) + acc)%Z) 0%Z l.

(** The indices hold [int64_t] scales, none of them zero, and no index
    variable twice. *)
Definition scalesInRange (l : list VariableGEPIndex) : Prop :=
  Forall (fun d => (- 2 ^ 63 <= Scale d < 2 ^ 63)%Z) l.

Definition scalesNonZero (l : list VariableGEPIndex) : Prop :=
  Forall (fun d => Scale d <> 0%Z) l.

Definition indexKeys (l : list VariableGEPIndex) : list (ValCtx * ExtensionKind) :=
  map (fun d => (VC d, Extension d)) l.

(** [AliasAnalysis::AliasResult] *)
Inductive AliasResult :=
| NoAlias
| MayAlias
| MustAlias.

#[global] Instance AliasResult_eq_dec : EqDecision AliasResult.
Proof. solve_decision. Defined.

(** [~0U], the size of an access of unknown extent. *)
Definition UnknownSize : Z := (2 ^ 32 - 1)%Z.

(** What [aliasGEP] calls: the test [isa<GEPOperator>], the recursive
    [aliasCheck] (which reads and extends [Visited]) and
    [DecomposeGEPExpression], which returns the base pointer and writes
    the constant offset and the variable indices. *)
Record AliasEnv := {
  isGEPOperator : ValCtx -> bool;
  aliasCheck : gset Value -> ValCtx -> Z -> ValCtx -> Z -> AliasResult * gset Value;
  DecomposeGEPExpression : ValCtx -> ValCtx * Z * list VariableGEPIndex
}.

(** The loop of [aliasGEP] that takes from the constant offset the
    multiples of each scaled index while the offset is not zero.  The
    division is that of C++, which truncates ([Z.quot]); for a zero scale,
    where the division of the code is undefined, nothing is removed
    here. *)
Definition removeStrides (GEP1BaseOffset : Z) (GEP1VariableIndices : list VariableGEPIndex)
  : Z :=
  fold_left
    (fun off d =>
       if bool_decide (off = 0%Z) then off
       else
         let RemovedOffset := Z.quot off (Scale d) in
         if bool_decide (RemovedOffset <> 0%Z)
         then int64 (off - int64 (RemovedOffset * Scale d))
         else off)
    GEP1VariableIndices GEP1BaseOffset.

(** The end of [aliasGEP], from the symbolic difference of the two
    pointers. *)
Definition aliasByOffset (GEP1BaseOffset : Z) (GEP1VariableIndices : list VariableGEPIndex)
  (V1Size V2Size : Z) : AliasResult :=
  if bool_decide (GEP1BaseOffset = 0%Z) && bool_decide (GEP1VariableIndices = [])
  then MustAlias
  else
    let GEP1BaseOffset := removeStrides GEP1BaseOffset GEP1VariableIndices in
    if bool_decide (GEP1BaseOffset <> 0%Z)
       && ((V2Size <=? GEP1BaseOffset)%Z || (GEP1BaseOffset <=? - V1Size)%Z)
    then NoAlias
    else MayAlias.

(** [BasicAliasAnalysis::aliasGEP], with the member [Visited] passed in
    and returned.  [GEP1] is the pointer [V1.first]; on a null pointer
    [cast<GEPOperator>] fails its assertion, and the answer here is
    [MayAlias].  The sizes are [unsigned] values. *)
Definition aliasGEP (E : AliasEnv) (Visited : gset Value) (V1 : ValCtx) (V1Size : Z)
  (V2 : ValCtx) (V2Size : Z) (UnderlyingV1 UnderlyingV2 : ValCtx)
  : AliasResult * gset Value :=
  match fst V1 with
  | None => (MayAlias, Visited)
  | Some GEP1 =>
      if bool_decide (GEP1 ∈ Visited) then (MayAlias, Visited)
      else
        let Visited := {[ GEP1 ]} ∪ Visited in
        if isGEPOperator E V2 then
          let r := aliasCheck E Visited UnderlyingV1 UnknownSize UnderlyingV2 UnknownSize in
          if bool_decide (fst r <> MustAlias) then r
          else
            let '(GEP1BasePtr, GEP1BaseOffset, GEP1VariableIndices) :=
              DecomposeGEPExpression E V1 in
            let '(GEP2BasePtr, GEP2BaseOffset, GEP2VariableIndices) :=
              DecomposeGEPExpression E V2 in
            if bool_decide (GEP1BasePtr <> UnderlyingV1)
               || bool_decide (GEP2BasePtr <> UnderlyingV2)
            then (MayAlias, snd r)
            else
              (aliasByOffset (int64 (GEP1BaseOffset - GEP2BaseOffset))
                 (GetIndexDifference GEP1VariableIndices GEP2VariableIndices)
                 V1Size V2Size,
               snd r)
        else
          if bool_decide (V1Size = UnknownSize) && bool_decide (V2Size = UnknownSize)
          then (MayAlias, Visited)
          else
            let r := aliasCheck E Visited UnderlyingV1 UnknownSize V2 V2Size in
            if bool_decide (fst r <> MustAlias) then r
            else
              let '(GEP1BasePtr, GEP1BaseOffset, GEP1VariableIndices) :=
                DecomposeGEPExpression E V1 in
              if bool_decide (GEP1BasePtr <> UnderlyingV1) then (MayAlias, snd r)
              else (aliasByOffset GEP1BaseOffset GEP1VariableIndices V1Size V2Size, snd r)
  end.

(** Equal as [int64_t], that is modulo [2 ^ 64]. *)
Definition cong64 (a b : Z) : Prop := exists k : Z, (a = b + k * 2 ^ 64)%Z.

(** ** Graph output ([DOT.cpp]) *)

(** [std::string] as the list of its characters. *)
Abbreviation Str := (list ascii).

(** [static std::string TruncStr(std::string str, unsigned maxlen)] *)
Definition TruncStr (str : Str) (maxlen : nat) : Str :=
  if decide (maxlen < length str)
  then take maxlen str ++ [" "; "."; "."; "."]%char
  else str.

(** [Str.replace(i, 1, s)] and [Str.insert(Str.begin() + i, c)] *)
Definition string_replace1 (i : nat) (by_ : Str) (str : Str) : Str :=
  take i str ++ by_ ++ drop (S i) str.

Definition string_insert (i : nat) (c : ascii) (str : Str) : Str :=
  take i str ++ c :: drop i str.

(** Arithmetic on the [unsigned] index of [escapeHTML]. *)
Definition wrap32 (z : Z) : Z := (z mod 2 ^ 32)%Z.

(** The [switch] of [escapeHTML] on [Str[i]]: the string and the index
    after the case taken. *)
Definition escapeHTML_case (str : Str) (i : Z) : Str * Z :=
  let n := Z.to_nat i in
  match str !! n with
  | Some c =>
      if Ascii.eqb c "&" then
        (string_replace1 n ["&"; "a"; "m"; "p"; ";"]%char str, wrap32 (i + 4))
      else if Ascii.eqb c "092" then
        (string_insert n "092"%char str, wrap32 (i + 1))
      else if Ascii.eqb c "009" then
        (<[ Z.to_nat (wrap32 (i + 1)) := " "%char ]> (string_insert n " "%char str),
         wrap32 (i + 1))
      else if Ascii.eqb c "<" then
        (string_replace1 n ["&"; "l"; "t"; ";"]%char str, wrap32 (i + 3))
      else if Ascii.eqb c ">" then
        (string_replace1 n ["&"; "g"; "t"; ";"]%char str, wrap32 (i + 3))
      else if Ascii.eqb c "034" then
        (string_replace1 n ["&"; "q"; "u"; "o"; "t"; ";"]%char str, wrap32 (i + 5))
      else (str, i)
  | None => (str, i)
  end.

(** [for (unsigned i = 0; i != Str.length(); ++i)] from index [i], with
    at most [fuel] iterations; [None] when they do not suffice. *)
Fixpoint escapeHTML_from (fuel : nat) (str : Str) (i : Z) : option Str :=
  if bool_decide (i = Z.of_nat (length str)) then Some str
  else
    match fuel with
    | 0 => None
    | S fuel' =>
        let r := escapeHTML_case str i in
        escapeHTML_from fuel' (fst r) (wrap32 (snd r + 1))
    end.

(** [static std::string escapeHTML(std::string Str)]; every iteration
    passes one character of the argument. *)
Definition escapeHTML (str : Str) : option Str :=
  escapeHTML_from (length str) str 0.

(** What [escapeHTML] writes for one character. *)
Definition escapedChar (c : ascii) : Str :=
  if Ascii.eqb c "&" then ["&"; "a"; "m"; "p"; ";"]%char
  else if Ascii.eqb c "092" then ["092"; "092"]%char
  else if Ascii.eqb c "009" then [" "; " "]%char
  else if Ascii.eqb c "<" then ["&"; "l"; "t"; ";"]%char
  else if Ascii.eqb c ">" then ["&"; "g"; "t"; ";"]%char
  else if Ascii.eqb c "034" then ["&"; "q"; "u"; "o"; "t"; ";"]%char
  else [c].

Definition escaped (str : Str) : Str := flat_map escapedChar str.

(** [escapeHTMLValue]: the printed value [RSO.str()] cut to 500
    characters, then escaped; the right-hand column of
    [describeBlockAsDOT] is cut to 400. *)
Definition escapeHTMLValue (printed : Str) : option Str :=
  escapeHTML (TruncStr printed 500).

Definition escapedRHS (printed : Str) : option Str :=
  escapeHTML (TruncStr printed 400).

(** ** Further examples *)

(** The uses in [branchProgram]: [%x] is used by the return of its
    block. *)
Definition branchUses : UseInfo :=
  {| arg_size := 0;
     users := fun V => match V with Instruction 1 => [Instruction 3] | _ => [] end;
     getIncomingValues :=
       fun V => match V with Instruction 1 => [ConstantInt 32 7] | _ => [] end;
     getCalledValue := fun V => V;
     getArgOperands := fun _ => [];
     mayWriteToMemory := fun _ => false |}.

(** The uses in [loopProgram]: [%i] is used by [%next] and by the exit
    PHI, [%next] by [%i]. *)
Definition loopUses : UseInfo :=
  {| arg_size := 1;
     users := fun V => match V with
                       | Instruction 1 => [Instruction 2; Instruction 4]
                       | Instruction 2 => [Instruction 1]
                       | Instruction 4 => [Instruction 7]
                       | _ => []
                       end;
     getIncomingValues :=
       fun V => match V with
                | Instruction 1 => [ConstantInt 32 0; Instruction 2]
                | Instruction 4 => [Instruction 1]
                | _ => []
                end;
     getCalledValue := fun V => V;
     getArgOperands := fun _ => [];
     mayWriteToMemory := fun _ => false |}.

(** A context without peel children and without a next iteration. *)
Definition noSurroundings : Surroundings :=
  {| peelChildren := []; getNextIteration := None;
     localValueIsDeadAt := fun _ _ => false;
     getInlineAttemptAt := fun _ _ => None;
     isOwnCallUnused := false |}.

(** [branchProgram] with block 2 dead, and [mergeProgram] with both edges
    into the join block dead. *)
Definition otherBlockDead : IAState := set_deadBlocks {[ 2 ]} initialState.

Definition joinCutOff : IAState := setEdgeDead 1 3 (setEdgeDead 2 3 initialState).

(** Two GEPs [%p = gep %a, 16] and [%q = gep %a, 0] over the argument
    [%a], whose bases must alias. *)
Definition sameBaseEnv : AliasEnv :=
  {| isGEPOperator := fun _ => true;
     aliasCheck := fun Visited _ _ _ _ => (MustAlias, Visited);
     DecomposeGEPExpression :=
       fun V => (make_vc (Argument 0) 0,
                 match fst V with Some (Instruction 1) => 16%Z | _ => 0%Z end,
                 []) |}.

(** The scaled indices [4 * sext %a] and [8 * zext %b]. *)
Definition index4 : VariableGEPIndex :=
  {| VC := make_vc (Argument 0) 0; Extension := EK_SignExt; Scale := 4 |}.

Definition index8 : VariableGEPIndex :=
  {| VC := make_vc (Argument 1) 0; Extension := EK_ZeroExt; Scale := 8 |}.

(** [loopProgram] with a second loop, 1, nested in loop 0. *)
Definition nestedProgram : Program :=
  {| fblocks := fblocks loopProgram; fentry := fentry loopProgram;
     freturnType := freturnType loopProgram;
     preds := preds loopProgram; succs := succs loopProgram; insts := insts loopProgram;
     getOpcode := getOpcode loopProgram; getParent := getParent loopProgram;
     getType := getType loopProgram; getOperands := getOperands loopProgram;
     getPredicate := getPredicate loopProgram; getCondition := getCondition loopProgram;
     getTrueValue := getTrueValue loopProgram; getFalseValue := getFalseValue loopProgram;
     getSrcTy := getSrcTy loopProgram; getDestTy := getDestTy loopProgram;
     findCaseValue := findCaseValue loopProgram;
     getReturnValue := getReturnValue loopProgram;
     getIncomingValueForBlock := getIncomingValueForBlock loopProgram;
     mayHaveSideEffects := mayHaveSideEffects loopProgram;
     getLoopFor := getLoopFor loopProgram; getHeader := getHeader loopProgram;
     getLoopPreheader := getLoopPreheader loopProgram;
     getLoopLatch := getLoopLatch loopProgram;
     getExitEdges := getExitEdges loopProgram;
     getParentLoop := fun L => match L with 1 => Some 0 | _ => None end;
     containsBlock := containsBlock loopProgram; contains := contains loopProgram |}.

(** A block [call @f(); ret], in which the call may write to memory, and
    a load of context 0 that waits for the call. *)
Definition callProgram : Program :=
  plainProgram [0] 0 (fun _ => []) (fun _ => [])
    (fun BB => match BB with 0 => [Instruction 0; Instruction 1] | _ => [] end)
    (fun V => match V with Instruction 0 => Call | _ => Ret end)
    (fun _ => 0) (fun V => V) (fun V _ => V) (fun _ => ConstantInt 32 0).

Definition callUses : UseInfo :=
  {| arg_size := 0;
     users := fun _ => [];
     getIncomingValues := fun _ => [];
     getCalledValue := fun V => V;
     getArgOperands := fun _ => [];
     mayWriteToMemory := fun V => bool_decide (V = Instruction 0) |}.

(** [localOracle] once the call of [callProgram] has the inline attempt
    7, whose return value is known to be 10. *)
Definition calleeOracle : Oracle :=
  {| getValueScope := getValueScope localOracle;
     getEdgeScope := getEdgeScope localOracle;
     getBlockScopeVariant := getBlockScopeVariant localOracle;
     edgeIsDead := edgeIsDead localOracle;
     getReplacementAt := getReplacementAt localOracle;
     getUltimateUnderlyingObject := getUltimateUnderlyingObject localOracle;
     isIdentifiedObject := isIdentifiedObject localOracle;
     forwardableOpenCalls := forwardableOpenCalls localOracle;
     getPeelAttempt := getPeelAttempt localOracle;
     getInlineAttempt := fun V => match V with Instruction 0 => Some 7 | _ => None end;
     getOrCreatePeelAttempt_ok := getOrCreatePeelAttempt_ok localOracle;
     getOrCreateInlineAttempt_ok := getOrCreateInlineAttempt_ok localOracle;
     statusAfterNextIteration := statusAfterNextIteration localOracle;
     tryGetReturnValue := fun _ => const_vc (ConstantInt 32 10);
     getImprovedCallArgument := getImprovedCallArgument localOracle;
     tryForwardLoad := tryForwardLoad localOracle;
     valueIsDead := valueIsDead localOracle;
     isAvailable := isAvailable localOracle;
     callWithScope := callWithScope localOracle;
     constantFold := constantFold localOracle |}.

Definition waitingForCall : BlockedWork :=
  {| InstBlockedLoads := {[ Instruction 0 := [(0, Instruction 5)] ]};
     InstBlockedOpens := ∅ |}.

(* ================================================================== *)
(** * Theorems *)


(** A non-negative handle makes every fold of [handleCmpSpec] the true
    outcome of the comparison. *)
Lemma handleCmpSpec_sound (Pred : Predicate) (h c : Z) (b : bool) :
  (0 <= h)%Z -> handleCmpSpec Pred c = Some b -> evalSignedCmp Pred h c = Some b.
Proof.
  intros Hh. destruct Pred; simpl; try discriminate;
    destruct (decide _); try discriminate; intros [= <-]; f_equal;
    repeat match goal with
      | |- context [(?a <? ?b)%Z] => destruct (Z.ltb_spec a b)
      | |- context [(?a <=? ?b)%Z] => destruct (Z.leb_spec a b)
      | |- context [(?a =? ?b)%Z] => destruct (Z.eqb_spec a b)
      end; simpl; try reflexivity; lia.
Qed.


(** Membership in a literal list of opcodes. *)
Ltac in_list := repeat first [apply list_elem_of_here | apply list_elem_of_further].
Ltac not_in_list :=
  let H := fresh "Hin" in
  intros H; repeat (apply elem_of_cons in H as [H|H]; [discriminate H |]);
  apply elem_of_nil in H; exact H.

(** The opcodes that [shouldDIE] turns away. *)
Lemma shouldDIE_instruction (P : Program) (O : Oracle) (n : nat) :
  shouldDIE P O (Instruction n) = true <->
  (getOpcode P (Instruction n) = Call /\ getInlineAttempt O (Instruction n) <> None)
  \/ (getOpcode P (Instruction n)
      ∉ [Call; VAArg; Alloca; Invoke; Store; Br; IndirectBr; Switch; Unwind; Unreachable]).
Proof.
  unfold shouldDIE.
  destruct (getOpcode P (Instruction n)) eqn:E; rewrite ?bool_decide_eq_true;
    (split;
     [ intros H; first [ discriminate H | right; not_in_list | left; split; [reflexivity | exact H] ]
     | intros [[H1 H2]|H];
       first [ discriminate H1 | reflexivity | exact H2 | exfalso; apply H; in_list ] ]).
Qed.


(** ** PHI nodes *)

Section PHI.

Context (P : Program) (O : Oracle).

(** In a peel iteration, a header PHI is never handed to the scan of the
    predecessors. *)
Lemma header_phi_not_scanned (A : Attempt) (st : IAState) (PN : Value) (r : ValCtx) :
  getLoopHeaderPHIValue P A O PN = Some r ->
  getPHINodeValue P A O st PN = forwardOrNull P O r.
Proof. unfold getPHINodeValue. now intros ->. Qed.

(** [tryEvaluate] on a PHI node: the value of [getPHINodeValue] is
    recorded if there is one. *)
Lemma tryEvaluate_PHI (A : Attempt) (st : IAState) (PN : Value) :
  hasOpcode P PHI PN = true ->
  tryEvaluate P A O st PN
  = if shouldTryEvaluate P A st PN then
      let v := getPHINodeValue P A O st PN in
      if bool_decide (fst v <> None) && shouldForwardValue P O v
      then request (call_investigateUsers PN) (setReplacement PN v st)
      else st
    else st.
Proof.
  intros Hphi. unfold hasOpcode in Hphi.
  apply andb_true_iff in Hphi as [HI Hop]. apply bool_decide_eq_true in Hop.
  destruct PN as [|n| | |]; try discriminate HI.
  assert (Hres : tryEvaluateResult P A O st (Instruction n)
                 = if shouldTryEvaluate P A st (Instruction n)
                   then (st, getPHINodeValue P A O st (Instruction n))
                   else (st, VCNull)).
  { unfold tryEvaluateResult, InlineAttempt_tryEvaluateResult,
      IntegrationAttempt_tryEvaluateResult, hasOpcode.
    rewrite Hop. cbn [isInstruction andb].
    destruct (shouldTryEvaluate P A st (Instruction n)); cbn [negb];
      rewrite ?(bool_decide_false (PHI = Br)), ?(bool_decide_false (PHI = Switch)),
        ?(bool_decide_false (PHI = Call)), ?(bool_decide_true (PHI = PHI))
        by (discriminate || reflexivity);
      now destruct (kind A). }
  unfold tryEvaluate. rewrite Hres.
  destruct (shouldTryEvaluate P A st (Instruction n)); reflexivity.
Qed.

(** A value that [getPHINodeValue] returns passes the test of
    [tryEvaluate]. *)
Lemma forwardOrNull_recorded (v : ValCtx) :
  forwardOrNull P O v <> VCNull ->
  bool_decide (fst (forwardOrNull P O v) <> None)
  && shouldForwardValue P O (forwardOrNull P O v) = true.
Proof.
  unfold forwardOrNull.
  destruct (bool_decide (fst v <> None) && shouldForwardValue P O v) eqn:E;
    [intros _; exact E | contradiction].
Qed.

(** C3. In iteration [n] of a peeled loop a header PHI reads, for
    [n > 0], the replacement of its latch-incoming value in iteration
    [n - 1], and for [n = 0] the replacement of its preheader-incoming
    value in the parent context; its evaluation is this value (if it may
    be forwarded) whatever the state of the predecessors, and the backward
    walker leaves the header for the latch of iteration [n - 1] or the
    preheader in the parent, not for the ordinary predecessors. *)
Theorem loop_iteration_identity (E : WalkEnv) (me : Ctx) (dvc : Value -> ValCtx)
  (L : Loop) (n : nat) (parent : Ctx) (parentPA : list Ctx) (PN : Value) :
  getParent P PN = getHeader P L ->
  let A := {| self := me; kind := PeelIteration L n parent parentPA;
              getDefaultVC := dvc |} in
  (n = 0 ->
     let v := getReplacementAt O parent
                (getIncomingValueForBlock P PN (getLoopPreheader P L)) in
     getLoopHeaderPHIValue P A O PN = Some v
     /\ (forall st, getPHINodeValue P A O st PN = forwardOrNull P O v))
  /\ (forall PreviousIter,
        0 < n -> parentPA !! (n - 1) = Some PreviousIter ->
        let v := getReplacementAt O PreviousIter
                   (getIncomingValueForBlock P PN (getLoopLatch P L)) in
        getLoopHeaderPHIValue P A O PN = Some v
        /\ (forall st, getPHINodeValue P A O st PN = forwardOrNull P O v))
  /\ (kindAt E me = PeelIteration L n parent parentPA ->
      programOf E me = P ->
      (n = 0 ->
         queuePredecessorsBW E me (getHeader P L)
         = [(length (insts P (getLoopPreheader P L)), getLoopPreheader P L, parent)])
      /\ (forall PreviousIter,
            0 < n -> parentPA !! (n - 1) = Some PreviousIter ->
            queuePredecessorsBW E me (getHeader P L)
            = [(length (insts P (getLoopLatch P L)), getLoopLatch P L, PreviousIter)])).
Proof.
  intros Hhdr A.
  assert (Hzero : n = 0 ->
            getLoopHeaderPHIValue P A O PN
            = Some (getReplacementAt O parent
                      (getIncomingValueForBlock P PN (getLoopPreheader P L)))).
  { intros ->. unfold getLoopHeaderPHIValue, PeelIteration_getLoopHeaderPHIValue.
    simpl. rewrite bool_decide_true by exact Hhdr. reflexivity. }
  assert (Hpos : forall PreviousIter,
            0 < n -> parentPA !! (n - 1) = Some PreviousIter ->
            getLoopHeaderPHIValue P A O PN
            = Some (getReplacementAt O PreviousIter
                      (getIncomingValueForBlock P PN (getLoopLatch P L)))).
  { intros prev Hn Hprev.
    unfold getLoopHeaderPHIValue, PeelIteration_getLoopHeaderPHIValue. simpl.
    rewrite bool_decide_true by exact Hhdr.
    rewrite bool_decide_false by lia. now rewrite Hprev. }
  split; [| split].
  - intros Hn v. split; [now apply Hzero |].
    intros st. apply header_phi_not_scanned. now apply Hzero.
  - intros prev Hn Hprev v. split; [now apply Hpos |].
    intros st. apply header_phi_not_scanned. now apply Hpos.
  - intros Hkind Hprog. unfold queuePredecessorsBW, PeelIteration_queuePredecessorsBW.
    rewrite Hkind, Hprog. rewrite bool_decide_true by reflexivity. split.
    + intros ->. reflexivity.
    + intros prev Hn Hprev. rewrite bool_decide_false by lia. now rewrite Hprev.
Qed.

Context (A : Attempt).

(** What [predValueOnEdge] answers for a value defined in a child loop. *)
Lemma predValueOnEdge_child_loop (st : IAState) (PN : Value) (PI : Block) :
  fromChildLoop P (getValueScope O PN)
    (getValueScope O (getIncomingValueForBlock P PN PI)) = true ->
  forall x,
    predValueOnEdge P A O st PN PI = Some x <->
    exists pl PA,
      getValueScope O (getIncomingValueForBlock P PN PI) = Some pl
      /\ getPeelAttempt O pl = Some PA
      /\ iterStatusOf (lastIteration PA) = IterationStatusFinal
      /\ x = getReplacementAt O (iterCtx (lastIteration PA))
               (getIncomingValueForBlock P PN PI).
Proof.
  intros Hc x. unfold predValueOnEdge. rewrite Hc.
  destruct (getValueScope O (getIncomingValueForBlock P PN PI)) as [pl|].
  - destruct (getPeelAttempt O pl) as [PA|] eqn:HPA.
    + destruct (bool_decide_reflect (iterStatusOf (lastIteration PA) = IterationStatusFinal))
        as [Hf|Hf].
      * split.
        -- intros [= <-]. exists pl, PA. repeat split; assumption || reflexivity.
        -- intros (pl' & PA' & [= <-] & HPA' & _ & ->).
           rewrite HPA in HPA'. now injection HPA' as <-.
      * split; [discriminate |].
        intros (pl' & PA' & [= <-] & HPA' & Hf' & _).
        rewrite HPA in HPA'. injection HPA' as <-. contradiction.
    + split; [discriminate |]. intros (pl' & PA' & [= <-] & Hn & _).
      rewrite HPA in Hn. discriminate.
  - split; [discriminate |]. intros (pl' & PA' & Hn & _). discriminate.
Qed.

(** Once the scan holds [VCNull] after a live edge was refused, or meets
    a refusal, it ends in [VCNull]. *)
Lemma scanPredecessors_refused (st : IAState) (PN : Value) (BB : Block)
  (l : list Block) (PI : Block) :
  PI ∈ l -> edgeIsDead O st PI BB = false -> predValueOnEdge P A O st PN PI = None ->
  forall onlyValue, scanPredecessors P A O st PN BB l onlyValue = VCNull.
Proof.
  intros Hin Hlive Hnone. induction l as [|PI' l IH]; [now apply elem_of_nil in Hin |].
  intros onlyValue. simpl.
  apply elem_of_cons in Hin as [<- |Hin].
  - now rewrite Hlive, Hnone.
  - destruct (edgeIsDead O st PI' BB); [now apply IH |].
    destruct (predValueOnEdge P A O st PN PI') as [pv|]; [| reflexivity].
    destruct (bool_decide (onlyValue = VCNull)); [now apply IH |].
    destruct (bool_decide (onlyValue <> pv)); [reflexivity | now apply IH].
Qed.

Lemma forwardOrNull_VCNull : forwardOrNull P O VCNull = VCNull.
Proof. reflexivity. Qed.

(** C5. A value that flows out of a child loop is read from the last
    iteration of the loop's peel attempt, and only when that iteration is
    [Final]: [predValueOnEdge] answers exactly then, an exit PHI with a
    live edge whose loop has no peel attempt or whose last iteration is
    not [Final] stays unimproved, [walkOperand] hands such an operand to
    the last iteration only if it is [Final], and [visitExitPHI] reaches
    the parent only from a [Final] iteration. *)
Theorem lcssa_exit_constraint (st : IAState) (PN : Value) (PI : Block) :
  let oldValue := getIncomingValueForBlock P PN PI in
  fromChildLoop P (getValueScope O PN) (getValueScope O oldValue) = true ->
  (forall x,
      predValueOnEdge P A O st PN PI = Some x ->
      exists pl PA,
        getValueScope O oldValue = Some pl /\ getPeelAttempt O pl = Some PA
        /\ iterStatusOf (lastIteration PA) = IterationStatusFinal
        /\ x = getReplacementAt O (iterCtx (lastIteration PA)) oldValue)
  /\ (getLoopHeaderPHIValue P A O PN = None ->
      PI ∈ preds P (getParent P PN) ->
      edgeIsDead O st PI (getParent P PN) = false ->
      (forall pl, getValueScope O oldValue = Some pl ->
                  match getPeelAttempt O pl with
                  | None => True
                  | Some PA => iterStatusOf (lastIteration PA) <> IterationStatusFinal
                  end) ->
      getPHINodeValue P A O st PN = VCNull
      /\ (hasOpcode P PHI PN = true -> tryEvaluate P A O st PN = st))
  /\ (forall V C V',
        getValueScope O V <> getLoopContext A ->
        match getLoopContext A with None => true | Some m => contains P m (getValueScope O V) end
        = true ->
        walkOperand P A O V = Some (C, V') ->
        exists l LPA,
          getValueScope O V = Some l /\ getPeelAttempt O l = Some LPA
          /\ iterStatusOf (lastIteration LPA) = IterationStatusFinal
          /\ C = iterCtx (lastIteration LPA) /\ V' = V)
  /\ (forall parent UserI r,
        PeelIteration_visitExitPHI st parent UserI = Some r ->
        iterStatus st = IterationStatusFinal /\ r = (parent, UserI)).
Proof.
  intros oldValue Hc. split; [| split; [| split]].
  - intros x Hx. now apply (predValueOnEdge_child_loop st PN PI Hc).
  - intros Hhdr Hin Hlive Hnot.
    assert (Hnull : getPHINodeValue P A O st PN = VCNull).
    { unfold getPHINodeValue. rewrite Hhdr.
      rewrite (scanPredecessors_refused st PN _ _ PI Hin Hlive); [reflexivity |].
      destruct (predValueOnEdge P A O st PN PI) as [x|] eqn:Hx; [| reflexivity].
      apply (predValueOnEdge_child_loop st PN PI Hc) in Hx
        as (pl & PA & Hs & Hpa & Hf & _).
      specialize (Hnot pl Hs). rewrite Hpa in Hnot. contradiction. }
    split; [exact Hnull |].
    intros Hphi. rewrite (tryEvaluate_PHI A st PN Hphi), Hnull.
    now destruct (shouldTryEvaluate P A st PN).
  - intros V C V' Hne Hcont. unfold walkOperand.
    rewrite bool_decide_true by exact Hne. rewrite Hcont.
    destruct (getValueScope O V) as [l|]; [| discriminate].
    destruct (getPeelAttempt O l) as [LPA|] eqn:HPA; [| discriminate].
    destruct (bool_decide_reflect (iterStatusOf (lastIteration LPA) <> IterationStatusFinal))
      as [Hf|Hf]; [discriminate |].
    intros [= <- <-]. exists l, LPA. repeat split; try reflexivity; try assumption.
    destruct (decide (iterStatusOf (lastIteration LPA) = IterationStatusFinal)); tauto.
  - intros parent UserI r. unfold PeelIteration_visitExitPHI.
    destruct (bool_decide_reflect (iterStatus st = IterationStatusFinal)) as [Hf|Hf];
      [| discriminate].
    intros [= <-]. split; [exact Hf | reflexivity].
Qed.

End PHI.

Section PHIScan.

Context (P : Program) (A : Attempt) (O : Oracle) (st : IAState) (PN : Value).

Let BB := getParent P PN.

(** The scan keeps a value on which all live edges agree. *)
Lemma scanPredecessors_agree (K : ValCtx) (l : list Block) :
  K <> VCNull ->
  (forall PI, PI ∈ l -> edgeIsDead O st PI BB = false ->
              predValueOnEdge P A O st PN PI = Some K) ->
  forall onlyValue,
    onlyValue = VCNull \/ onlyValue = K ->
    onlyValue = K \/ (exists PI, PI ∈ l /\ edgeIsDead O st PI BB = false) ->
    scanPredecessors P A O st PN BB l onlyValue = K.
Proof.
  intros HK. induction l as [|PI l IH]; intros Hall onlyValue Hacc Hsome.
  - destruct Hsome as [-> |(PI & Hin & _)]; [reflexivity | now apply elem_of_nil in Hin].
  - simpl. destruct (edgeIsDead O st PI BB) eqn:Hd.
    + apply IH; [intros; apply Hall; [now apply elem_of_cons; right | assumption] | assumption |].
      destruct Hsome as [-> |(PI' & Hin & Hl)]; [now left | right].
      apply elem_of_cons in Hin as [-> |Hin]; [congruence | eauto].
    + rewrite (Hall PI) by (assumption || apply elem_of_cons; now left).
      assert (Hrest : forall PI', PI' ∈ l -> edgeIsDead O st PI' BB = false ->
                                  predValueOnEdge P A O st PN PI' = Some K)
        by (intros; apply Hall; [now apply elem_of_cons; right | assumption]).
      destruct (bool_decide_reflect (onlyValue = VCNull)) as [-> |Hnn].
      * apply IH; auto.
      * destruct Hacc as [-> | ->]; [contradiction |].
        rewrite bool_decide_false by (intros H; now apply H).
        apply IH; auto.
Qed.

(** When no live edge carries the null pair, a scan that ends in a value
    has read that value on every live edge. *)
(** What an edge carries is what the scan reads on it. *)
Lemma edgeCarries_read (PI : Block) (K : ValCtx) :
  edgeCarries P A O st PN PI K -> predValueOnEdge P A O st PN PI = Some K.
Proof.
  unfold edgeCarries, predValueOnEdge. cbv zeta.
  destruct (fromChildLoop P _ _).
  - intros (pl & PA & -> & -> & HF & HK). now rewrite bool_decide_true, HK.
  - now intros ->.
Qed.

(** The scan over edges that all carry [K] ends with [K] or with nothing. *)
Lemma scanPredecessors_common (K : ValCtx) (l : list Block) :
  (forall PI, PI ∈ l -> edgeIsDead O st PI BB = false ->
              predValueOnEdge P A O st PN PI = Some K) ->
  forall onlyValue,
    onlyValue = VCNull \/ onlyValue = K ->
    scanPredecessors P A O st PN BB l onlyValue = VCNull
    \/ scanPredecessors P A O st PN BB l onlyValue = K.
Proof.
  induction l as [|PI l IH]; intros Hall onlyValue Hacc; cbn [scanPredecessors];
    [exact Hacc |].
  assert (Hrest : forall PI', PI' ∈ l -> edgeIsDead O st PI' BB = false ->
                              predValueOnEdge P A O st PN PI' = Some K)
    by (intros; apply Hall; [now apply list_elem_of_further | assumption]).
  destruct (edgeIsDead O st PI BB) eqn:Hd; [now apply IH |].
  rewrite (Hall PI) by (assumption || apply list_elem_of_here).
  destruct (bool_decide (onlyValue = VCNull)); [apply IH; auto |].
  destruct (bool_decide (onlyValue <> K)); [now left | now apply IH].
Qed.

(** Once a value is held, a live edge that reads another one, or none,
    ends the scan with nothing. *)
Lemma scanPredecessors_conflict (l : list Block) :
  forall onlyValue,
    onlyValue <> VCNull ->
    (exists PI, PI ∈ l /\ edgeIsDead O st PI BB = false
                /\ predValueOnEdge P A O st PN PI <> Some onlyValue) ->
    scanPredecessors P A O st PN BB l onlyValue = VCNull.
Proof.
  induction l as [|PI l IH]; intros onlyValue Hset (PI' & Hin & Hlive & Hne);
    [now apply elem_of_nil in Hin |].
  cbn [scanPredecessors].
  destruct (edgeIsDead O st PI BB) eqn:Hd.
  - apply IH; [assumption |]. exists PI'.
    apply elem_of_cons in Hin as [-> | Hin]; [congruence | auto].
  - destruct (predValueOnEdge P A O st PN PI) as [pv |] eqn:Hpv; [| reflexivity].
    rewrite bool_decide_false by assumption.
    destruct (bool_decide_reflect (onlyValue <> pv)) as [Hd' | He]; [reflexivity |].
    assert (onlyValue = pv) as -> by (destruct (decide (onlyValue = pv)); tauto).
    apply IH; [assumption |]. exists PI'.
    apply elem_of_cons in Hin as [-> | Hin]; [congruence | auto].
Qed.

(** Two live edges that read different values end the scan with
    nothing. *)
Lemma scanPredecessors_disagree (K1 K2 : ValCtx) (l : list Block) :
  K1 <> K2 -> K1 <> VCNull -> K2 <> VCNull ->
  (exists PI1, PI1 ∈ l /\ edgeIsDead O st PI1 BB = false
               /\ predValueOnEdge P A O st PN PI1 = Some K1) ->
  (exists PI2, PI2 ∈ l /\ edgeIsDead O st PI2 BB = false
               /\ predValueOnEdge P A O st PN PI2 = Some K2) ->
  scanPredecessors P A O st PN BB l VCNull = VCNull.
Proof.
  intros Hne H1 H2. induction l as [|PI l IH];
    intros (PI1 & Hin1 & Hl1 & Hv1) (PI2 & Hin2 & Hl2 & Hv2);
    [now apply elem_of_nil in Hin1 |].
  cbn [scanPredecessors].
  destruct (edgeIsDead O st PI BB) eqn:Hd.
  - apply IH; [exists PI1 | exists PI2].
    + apply elem_of_cons in Hin1 as [-> | Hin1]; [congruence | auto].
    + apply elem_of_cons in Hin2 as [-> | Hin2]; [congruence | auto].
  - destruct (predValueOnEdge P A O st PN PI) as [pv |] eqn:Hpv; [| reflexivity].
    rewrite bool_decide_true by reflexivity.
    destruct (decide (pv = VCNull)) as [-> | Hpvn].
    + apply IH; [exists PI1 | exists PI2].
      * apply elem_of_cons in Hin1 as [-> | Hin1]; [congruence | auto].
      * apply elem_of_cons in Hin2 as [-> | Hin2]; [congruence | auto].
    + apply scanPredecessors_conflict; [assumption |].
      destruct (decide (pv = K1)) as [-> | Hpv1].
      * exists PI2. apply elem_of_cons in Hin2 as [-> | Hin2]; [congruence |].
        repeat split; [assumption | assumption | congruence].
      * exists PI1. apply elem_of_cons in Hin1 as [-> | Hin1]; [congruence |].
        repeat split; [assumption | assumption | congruence].
Qed.

(** C2, as amended. For a PHI that is not a loop header PHI of its
    context, with [edgeCarries] the value in effect on an edge (the
    replacement of the incoming operand): if at least one incoming edge is
    live and every live edge carries the same value [K], and [K] may be
    forwarded ([shouldForwardValue]: a constant, a pointer whose
    underlying object is identified, a forwardable open call), the PHI
    evaluates to [K] and [tryEvaluate] records [K] for it; if every live
    edge carries the same [K] and [K] may not be forwarded, or if two live
    edges carry different values, the PHI stays unimproved and
    [tryEvaluate] changes nothing. *)
Theorem phi_evaluation :
  getLoopHeaderPHIValue P A O PN = None ->
  hasOpcode P PHI PN = true ->
  (forall K,
      (exists PI, PI ∈ preds P BB /\ edgeIsDead O st PI BB = false) ->
      (forall PI, PI ∈ preds P BB -> edgeIsDead O st PI BB = false ->
                  edgeCarries P A O st PN PI K) ->
      shouldForwardValue P O K = true ->
      getPHINodeValue P A O st PN = K
      /\ (shouldTryEvaluate P A st PN = true ->
          improvedValues (tryEvaluate P A O st PN) !! PN = Some K))
  /\ (forall K,
        (forall PI, PI ∈ preds P BB -> edgeIsDead O st PI BB = false ->
                    edgeCarries P A O st PN PI K) ->
        shouldForwardValue P O K = false ->
        getPHINodeValue P A O st PN = VCNull /\ tryEvaluate P A O st PN = st)
  /\ (forall PI1 PI2 K1 K2,
        PI1 ∈ preds P BB -> PI2 ∈ preds P BB ->
        edgeIsDead O st PI1 BB = false -> edgeIsDead O st PI2 BB = false ->
        edgeCarries P A O st PN PI1 K1 -> edgeCarries P A O st PN PI2 K2 ->
        K1 <> VCNull -> K2 <> VCNull -> K1 <> K2 ->
        getPHINodeValue P A O st PN = VCNull /\ tryEvaluate P A O st PN = st).
Proof.
  intros Hhdr Hphi.
  assert (Hskip : getPHINodeValue P A O st PN = VCNull -> tryEvaluate P A O st PN = st).
  { intros Hn. rewrite (tryEvaluate_PHI P O A st PN Hphi), Hn.
    now destruct (shouldTryEvaluate P A st PN). }
  split; [| split].
  - intros K Hlive Hall Hfw.
    assert (HK : fst K <> None).
    { destruct K as [[v |] c]; [discriminate | discriminate Hfw]. }
    assert (Hres : getPHINodeValue P A O st PN = K).
    { unfold getPHINodeValue. rewrite Hhdr.
      fold BB. rewrite (scanPredecessors_agree K).
      + unfold forwardOrNull. rewrite bool_decide_true by exact HK. now rewrite Hfw.
      + intros ->. now apply HK.
      + intros PI Hin Hl. now apply edgeCarries_read, Hall.
      + now left.
      + now right. }
    split; [exact Hres |].
    intros Hshould. rewrite (tryEvaluate_PHI P O A st PN Hphi), Hshould, Hres.
    cbv zeta. rewrite bool_decide_true by exact HK. rewrite Hfw. cbn.
    apply lookup_insert_eq.
  - intros K Hall Hfw.
    assert (Hres : getPHINodeValue P A O st PN = VCNull).
    { unfold getPHINodeValue. rewrite Hhdr. fold BB.
      destruct (scanPredecessors_common K (preds P BB)) with (onlyValue := VCNull)
        as [-> | ->].
      + intros PI Hin Hl. now apply edgeCarries_read, Hall.
      + now left.
      + apply forwardOrNull_VCNull.
      + unfold forwardOrNull. rewrite Hfw. now rewrite andb_false_r. }
    split; [exact Hres | now apply Hskip].
  - intros PI1 PI2 K1 K2 Hin1 Hin2 Hl1 Hl2 Hc1 Hc2 Hn1 Hn2 Hne.
    assert (Hres : getPHINodeValue P A O st PN = VCNull).
    { unfold getPHINodeValue. rewrite Hhdr. fold BB.
      rewrite (scanPredecessors_disagree K1 K2); try assumption.
      + apply forwardOrNull_VCNull.
      + exists PI1. repeat split; [assumption | assumption |].
        now apply edgeCarries_read.
      + exists PI2. repeat split; [assumption | assumption |].
        now apply edgeCarries_read. }
    split; [exact Hres | now apply Hskip].
Qed.

End PHIScan.

(** ** The return value of an inline attempt *)

Section ReturnValue.

Context (F : Program) (HO : FolderOracle) (st : InlineAttemptState).

Lemma searchStateAfter_many (rets : list Value) (RI : Value) (more : list Value) :
  rets <> [] -> searchStateAfter F st (rets ++ RI :: more) = (None, true).
Proof.
  destruct rets as [|a [|b rets]]; [contradiction | reflexivity | reflexivity].
Qed.

Lemma scanBlockForReturn_after (l : list Value) :
  forall rets,
    scanBlockForReturn F st l (searchStateAfter F st rets)
    = searchStateAfter F st (rets ++ List.filter (hasOpcode F Ret) l).
Proof.
  induction l as [|BI l IH]; intros rets; simpl.
  - now rewrite app_nil_r.
  - destruct (hasOpcode F Ret BI) eqn:HR.
    + destruct rets as [|a rets].
      * simpl. destruct (returnedConstant F st BI) as [C|] eqn:HC.
        -- replace (Some C, true) with (searchStateAfter F st [BI])
             by (simpl; now rewrite HC).
           now rewrite IH.
        -- destruct (List.filter (hasOpcode F Ret) l); simpl; now rewrite ?HC.
      * assert (Hf : snd (searchStateAfter F st (a :: rets)) = true)
          by (destruct rets; reflexivity).
        rewrite Hf. symmetry. now apply searchStateAfter_many.
    + apply IH.
Qed.

Lemma scanFunctionForReturn_after (bs : list Block) :
  forall rets,
    fold_left
      (fun acc FI =>
         if HCF_blockIsDead HO FI (initialIgnoreEdges st) then acc
         else scanBlockForReturn F st (insts F FI) acc)
      bs (searchStateAfter F st rets)
    = searchStateAfter F st
        (rets ++
         flat_map (fun FI => List.filter (hasOpcode F Ret) (insts F FI))
           (List.filter
              (fun FI => negb (HCF_blockIsDead HO FI (initialIgnoreEdges st))) bs)).
Proof.
  induction bs as [|FI bs IH]; intros rets; simpl.
  - now rewrite app_nil_r.
  - destruct (HCF_blockIsDead HO FI (initialIgnoreEdges st)); simpl.
    + apply IH.
    + rewrite scanBlockForReturn_after, IH. now rewrite <- app_assoc.
Qed.

Lemma findReturnValue_search :
  returnVal st = None -> isVoidTy (freturnType F) = false ->
  returnVal (findReturnValue F HO st)
  = fst (searchStateAfter F st (liveReturns F HO st)).
Proof.
  intros Hrv Hvoid. unfold findReturnValue, scanFunctionForReturn, liveReturns.
  rewrite Hrv, Hvoid. simpl.
  change (@None Value, false) with (searchStateAfter F st []).
  now rewrite scanFunctionForReturn_after.
Qed.

End ReturnValue.

(** C6. The return value of an inline attempt.  [localFoldConstants],
    for a function that returns a value and has no return value recorded
    after [getBenefit] and [considerCalls]: with a single live return
    instruction the return value is the improvement of that instruction's
    operand (the operand itself if it is a constant, else its entry in
    [initialConsts], nothing if it has none), and this is the root that
    [considerSubAttempt] folds for the call; with more than one live
    return instruction the return value is unknown and nothing is folded
    for the call.  In [tryEvaluateResult] the improvement of a call with
    an inline attempt is what that attempt's [tryGetReturnValue] reports,
    and [tryEvaluate] records it if it is set and may be forwarded. *)
Theorem return_value_resolution (F : Program) (HO : FolderOracle)
  (st : InlineAttemptState) (args : list (Value * Value)) (CI : Value) :
  let st' := considerCalls HO (H_getBenefit HO st args) in
  returnVal st' = None -> isVoidTy (freturnType F) = false ->
  returnValueAlreadyKnown st' = false ->
  (forall RI,
      liveReturns F HO st' = [RI] ->
      let C := if isConstant (getReturnValue F RI) then Some (getReturnValue F RI)
               else initialConsts st' !! getReturnValue F RI in
      returnVal (localFoldConstants F HO st args) = C
      /\ snd (forwardReturnValue CI (localFoldConstants F HO st args))
         = match C with
           | Some c => [(CI, c)]
           | None => []
           end)
  /\ (1 < length (liveReturns F HO st') ->
      returnVal (localFoldConstants F HO st args) = None
      /\ snd (forwardReturnValue CI (localFoldConstants F HO st args)) = [])
  /\ (forall (P : Program) (A : Attempt) (O : Oracle) (s : IAState) (CallI : Value)
        (IA : Ctx),
        hasOpcode P Call CallI = true -> getInlineAttempt O CallI = Some IA ->
        shouldTryEvaluate P A s CallI = true ->
        let R := tryGetReturnValue O IA in
        tryEvaluateResult P A O s CallI = (s, R)
        /\ (fst R <> None -> shouldForwardValue P O R = true ->
            improvedValues (tryEvaluate P A O s CallI) !! CallI = Some R)
        /\ (fst R = None \/ shouldForwardValue P O R = false ->
            tryEvaluate P A O s CallI = s)).
Proof.
  intros st' Hrv Hvoid Hknown.
  assert (Hfold : localFoldConstants F HO st args = findReturnValue F HO st')
    by reflexivity.
  assert (Hk : returnValueAlreadyKnown (findReturnValue F HO st') = false).
  { unfold findReturnValue. now destruct (_ && _). }
  split; [| split].
  - intros RI Hone C.
    assert (Hr : returnVal (localFoldConstants F HO st args) = C).
    { rewrite Hfold, findReturnValue_search, Hone by assumption. reflexivity. }
    split; [exact Hr |]. unfold forwardReturnValue. rewrite Hr. rewrite Hfold, Hk.
    cbn [negb]. now destruct C.
  - intros Hmany.
    assert (Hr : returnVal (localFoldConstants F HO st args) = None).
    { rewrite Hfold, findReturnValue_search by assumption.
      destruct (liveReturns F HO st') as [|a [|b l]]; simpl in *;
        [lia | lia | reflexivity]. }
    split; [exact Hr |]. unfold forwardReturnValue. rewrite Hr. rewrite Hfold, Hk.
    reflexivity.
  - intros P A O s CallI IA HCall HIA Hs R.
    assert (HI : exists n, CallI = Instruction n).
    { unfold hasOpcode in HCall. destruct CallI; try discriminate HCall. now eexists. }
    destruct HI as [n ->].
    assert (Hop : getOpcode P (Instruction n) = Call).
    { unfold hasOpcode in HCall. cbn in HCall. now apply bool_decide_eq_true in HCall. }
    assert (Hres : tryEvaluateResult P A O s (Instruction n) = (s, R)).
    { unfold tryEvaluateResult, InlineAttempt_tryEvaluateResult,
        IntegrationAttempt_tryEvaluateResult.
      rewrite Hs, HCall, HIA. unfold hasOpcode. cbn [isInstruction andb]. rewrite Hop.
      cbn. now destruct (kind A). }
    split; [exact Hres |]. unfold tryEvaluate. rewrite Hres. cbn [fst snd]. split.
    + intros H1 H2. rewrite bool_decide_true by assumption. rewrite H2. cbn.
      apply lookup_insert_eq.
    + intros [H1 | H1].
      * rewrite bool_decide_false by (intros H; now apply H). reflexivity.
      * rewrite H1, andb_false_r. reflexivity.
Qed.

(** ** The liveness and improvement tables *)

Section Tables.

Context (P : Program) (A : Attempt) (O : Oracle).

Lemma onlyAddsDeadEdges_refl (st : IAState) : onlyAddsDeadEdges st st.
Proof. repeat split; reflexivity. Qed.

Lemma onlyAddsDeadEdges_trans (st1 st2 st3 : IAState) :
  onlyAddsDeadEdges st1 st2 -> onlyAddsDeadEdges st2 st3 -> onlyAddsDeadEdges st1 st3.
Proof.
  unfold onlyAddsDeadEdges.
  intros (-> & -> & -> & -> & H1) (-> & -> & -> & -> & H2).
  repeat split; try reflexivity. etrans; eassumption.
Qed.

Lemma onlyAddsDeadEdges_fold {X : Type} (f : IAState -> X -> IAState) (l : list X) :
  (forall st x, onlyAddsDeadEdges st (f st x)) ->
  forall st, onlyAddsDeadEdges st (fold_left f l st).
Proof.
  intros Hf. induction l as [|x l IH]; intros st; simpl.
  - apply onlyAddsDeadEdges_refl.
  - eapply onlyAddsDeadEdges_trans; [apply Hf | apply IH].
Qed.

Lemma onlyAddsDeadEdges_request (r : Request) (st : IAState) :
  onlyAddsDeadEdges st (request r st).
Proof. repeat split; reflexivity. Qed.

Lemma onlyAddsDeadEdges_set_iterStatus (x : IterationStatus) (st : IAState) :
  onlyAddsDeadEdges st (set_iterStatus x st).
Proof. repeat split; reflexivity. Qed.

Lemma onlyAddsDeadEdges_clear_CFGBlockedOpens (st : IAState) :
  onlyAddsDeadEdges st (clear_CFGBlockedOpens st).
Proof. repeat split; reflexivity. Qed.

Lemma onlyAddsDeadEdges_clear_CFGBlockedLoads (st : IAState) :
  onlyAddsDeadEdges st (clear_CFGBlockedLoads st).
Proof. repeat split; reflexivity. Qed.

Lemma onlyAddsDeadEdges_insert (e : Block * Block) (st : IAState) :
  onlyAddsDeadEdges st (set_deadEdges ({[ e ]} ∪ deadEdges st) st).
Proof. repeat split; try reflexivity. cbn. apply union_subseteq_r. Qed.

(** [after g] reduces a goal about [g (f st)] to one about [f st]. *)
Ltac after lem := eapply onlyAddsDeadEdges_trans; [| apply lem].

Lemma onlyAddsDeadEdges_queueCFGBlockedOpens (st : IAState) :
  onlyAddsDeadEdges st (queueCFGBlockedOpens st).
Proof.
  unfold queueCFGBlockedOpens. after onlyAddsDeadEdges_clear_CFGBlockedOpens.
  apply onlyAddsDeadEdges_fold. intros; apply onlyAddsDeadEdges_request.
Qed.

Lemma onlyAddsDeadEdges_queueCFGBlockedLoads (st : IAState) :
  onlyAddsDeadEdges st (queueCFGBlockedLoads st).
Proof.
  unfold queueCFGBlockedLoads. after onlyAddsDeadEdges_clear_CFGBlockedLoads.
  apply onlyAddsDeadEdges_fold. intros; apply onlyAddsDeadEdges_request.
Qed.

Lemma onlyAddsDeadEdges_killExitEdges (L : Loop) (st : IAState) :
  onlyAddsDeadEdges st (killExitEdges P A O L st).
Proof.
  unfold killExitEdges. apply onlyAddsDeadEdges_fold. intros st' it.
  after onlyAddsDeadEdges_request.
  destruct (_ || _); [apply onlyAddsDeadEdges_insert | apply onlyAddsDeadEdges_refl].
Qed.

Lemma onlyAddsDeadEdges_IntegrationAttempt_checkLoopSpecialEdge (st : IAState)
  (FromBB ToBB : Block) :
  onlyAddsDeadEdges st (fst (IntegrationAttempt_checkLoopSpecialEdge P A O st FromBB ToBB)).
Proof.
  unfold IntegrationAttempt_checkLoopSpecialEdge.
  destruct (getLoopFor P ToBB) as [L|]; [| apply onlyAddsDeadEdges_refl].
  destruct (_ && _); [| apply onlyAddsDeadEdges_refl].
  cbv zeta.
  destruct (getOrCreatePeelAttempt_ok O _ L); simpl.
  - after onlyAddsDeadEdges_request. apply onlyAddsDeadEdges_queueCFGBlockedOpens.
  - destruct (edgeIsDead O _ FromBB ToBB); simpl.
    + after onlyAddsDeadEdges_killExitEdges. after onlyAddsDeadEdges_request.
      apply onlyAddsDeadEdges_queueCFGBlockedOpens.
    + after onlyAddsDeadEdges_request. apply onlyAddsDeadEdges_queueCFGBlockedOpens.
Qed.

Lemma onlyAddsDeadEdges_PeelIteration_checkLoopSpecialEdge (L : Loop) (st : IAState)
  (FromBB ToBB : Block) :
  onlyAddsDeadEdges st
    (fst (PeelIteration_checkLoopSpecialEdge P A O L st FromBB ToBB)).
Proof.
  unfold PeelIteration_checkLoopSpecialEdge. cbv zeta.
  match goal with
  | |- context [if ?c && ?s then ?a else st] =>
      assert (H1 : onlyAddsDeadEdges st (if c && s then a else st))
  end.
  { destruct (_ && _); [| apply onlyAddsDeadEdges_refl].
    destruct (bool_decide _).
    - after onlyAddsDeadEdges_request. after onlyAddsDeadEdges_set_iterStatus.
      apply onlyAddsDeadEdges_request.
    - after onlyAddsDeadEdges_set_iterStatus. apply onlyAddsDeadEdges_request. }
  destruct (_ || _); simpl.
  - after onlyAddsDeadEdges_queueCFGBlockedOpens. exact H1.
  - after onlyAddsDeadEdges_IntegrationAttempt_checkLoopSpecialEdge. exact H1.
Qed.

Lemma onlyAddsDeadEdges_checkLoopSpecialEdge (st : IAState) (FromBB ToBB : Block) :
  onlyAddsDeadEdges st (fst (checkLoopSpecialEdge P A O st FromBB ToBB)).
Proof.
  unfold checkLoopSpecialEdge. destruct (kind A).
  - apply onlyAddsDeadEdges_IntegrationAttempt_checkLoopSpecialEdge.
  - apply onlyAddsDeadEdges_PeelIteration_checkLoopSpecialEdge.
Qed.

Lemma onlyAddsDeadEdges_checkLocalEdge (st : IAState) (FromBB ToBB : Block) :
  onlyAddsDeadEdges st (checkLocalEdge P A O st FromBB ToBB).
Proof.
  unfold checkLocalEdge. cbv zeta. destruct (snd _).
  - apply onlyAddsDeadEdges_checkLoopSpecialEdge.
  - after onlyAddsDeadEdges_request. apply onlyAddsDeadEdges_checkLoopSpecialEdge.
Qed.

Lemma onlyAddsDeadEdges_checkVariantEdge (st : IAState) (FromBB ToBB : Block)
  (ScopeL : Loop) :
  onlyAddsDeadEdges st (checkVariantEdge P A O st FromBB ToBB ScopeL).
Proof.
  unfold checkVariantEdge. cbv zeta.
  destruct (bool_decide _); [apply onlyAddsDeadEdges_checkLocalEdge |].
  destruct (immediateChildLoop P _ ScopeL) as [ChildL|]; [| apply onlyAddsDeadEdges_refl].
  destruct (getPeelAttempt O ChildL); [| apply onlyAddsDeadEdges_refl].
  apply onlyAddsDeadEdges_fold. intros; apply onlyAddsDeadEdges_request.
Qed.

Lemma onlyAddsDeadEdges_checkEdge (st : IAState) (FromBB ToBB : Block) :
  onlyAddsDeadEdges st (checkEdge P A O st FromBB ToBB).
Proof.
  unfold checkEdge.
  destruct (getEdgeScope O FromBB ToBB) as [EdgeScope|];
    [| apply onlyAddsDeadEdges_checkLocalEdge].
  destruct (contains P EdgeScope _);
    [apply onlyAddsDeadEdges_checkLocalEdge | apply onlyAddsDeadEdges_checkVariantEdge].
Qed.

Lemma onlyAddsDeadEdges_promoteCalls (BB : Block) (st : IAState) :
  onlyAddsDeadEdges st (promoteCalls P O BB st).
Proof.
  unfold promoteCalls. apply onlyAddsDeadEdges_fold. intros st' BI.
  destruct (hasOpcode P Call BI); [| apply onlyAddsDeadEdges_refl].
  cbv zeta. destruct (getOrCreateInlineAttempt_ok O st' BI).
  - apply onlyAddsDeadEdges_request.
  - after onlyAddsDeadEdges_request. apply onlyAddsDeadEdges_request.
Qed.

Lemma onlyAddsDeadEdges_setEdgeDead (FromBB ToBB : Block) (st : IAState) :
  onlyAddsDeadEdges st (setEdgeDead FromBB ToBB st).
Proof. apply onlyAddsDeadEdges_insert. Qed.

Lemma onlyAddsDeadEdges_evaluateTerminator (st : IAState) (V : Value) :
  onlyAddsDeadEdges st (evaluateTerminator P A O st V).
Proof.
  unfold evaluateTerminator.
  destruct (getConstReplacement A st _); [| apply onlyAddsDeadEdges_refl].
  cbv zeta.
  match goal with |- context [match ?t with Some _ => _ | None => _ end] => destruct t end;
    [| apply onlyAddsDeadEdges_refl].
  apply onlyAddsDeadEdges_fold. intros st' thisTarget.
  destruct (shouldCheckBlock st' thisTarget); [| apply onlyAddsDeadEdges_refl].
  cbv zeta. after onlyAddsDeadEdges_checkEdge.
  destruct (bool_decide _); [apply onlyAddsDeadEdges_setEdgeDead | apply onlyAddsDeadEdges_refl].
Qed.


(** *** [checkBlock] *)

Lemma classifyBlock_scan (st : IAState) (BB : Block) (l : list Block) :
  forall dc,
    fst (fold_left
           (fun dc PI =>
              if negb (edgeIsDead O st PI BB) then
                (false,
                 if blockIsCertain st PI
                 then (if onlySuccessor P O st PI BB then snd dc else false)
                 else false)
              else dc) l dc)
    = fst dc && forallb (fun PI => edgeIsDead O st PI BB) l.
Proof.
  induction l as [|PI l IH]; intros dc; simpl.
  - now rewrite andb_true_r.
  - rewrite IH. destruct (edgeIsDead O st PI BB); simpl.
    + reflexivity.
    + now rewrite andb_false_r.
Qed.

Lemma classifyBlock_isDead (st : IAState) (BB : Block) :
  fst (classifyBlock P A O st BB)
  = negb (bool_decide (BB = getEntryBlock P A))
    && forallb (fun PI => edgeIsDead O st PI BB) (preds P BB).
Proof.
  unfold classifyBlock. destruct (bool_decide (BB = getEntryBlock P A)); [reflexivity |].
  now rewrite classifyBlock_scan.
Qed.

Lemma eraseImprovements_tables (BB : Block) (st : IAState) :
  deadBlocks (eraseImprovements P BB st) = deadBlocks st
  /\ certainBlocks (eraseImprovements P BB st) = certainBlocks st
  /\ deadEdges (eraseImprovements P BB st) = deadEdges st
  /\ deadValues (eraseImprovements P BB st) = deadValues st.
Proof.
  unfold eraseImprovements. generalize (insts P BB). intros l. revert st.
  induction l as [|BI l IH]; intros st; simpl; [tauto |].
  destruct (IH (set_improvedValues (delete BI (improvedValues st)) st))
    as (-> & -> & -> & ->). simpl. tauto.
Qed.

Lemma eraseImprovements_lookup (BB : Block) (st : IAState) (V : Value) :
  improvedValues (eraseImprovements P BB st) !! V
  = if bool_decide (V ∈ insts P BB) then None else improvedValues st !! V.
Proof.
  unfold eraseImprovements. generalize (insts P BB). intros l. revert st.
  induction l as [|BI l IH]; intros st; cbn [fold_left].
  - rewrite bool_decide_false; [reflexivity | apply not_elem_of_nil].
  - rewrite IH. cbn [improvedValues set_improvedValues].
    destruct (bool_decide_reflect (V ∈ l)) as [Hin|Hin].
    + rewrite bool_decide_true; [reflexivity | apply elem_of_cons; now right].
    + destruct (decide (V = BI)) as [-> | Hne].
      * rewrite bool_decide_true by (apply elem_of_cons; now left).
        apply lookup_delete_eq.
      * rewrite bool_decide_false
          by (intros [H|H]%elem_of_cons; [contradiction | contradiction]).
        now apply lookup_delete_ne.
Qed.

(** The loop of [checkBlock] over the successors. *)
Lemma successors_loop (isDead : bool) (BB : Block) (l : list Block) :
  forall st,
    let st' :=
      fold_left
        (fun st SI =>
           let st := if isDead then set_deadEdges ({[ (BB, SI) ]} ∪ deadEdges st) st
                     else st in
           checkEdge P A O st BB SI) l st in
    onlyAddsDeadEdges st st'
    /\ (isDead = true -> forall SI, SI ∈ l -> (BB, SI) ∈ deadEdges st').
Proof.
  induction l as [|SI l IH]; intros st; simpl.
  - split; [apply onlyAddsDeadEdges_refl |]. intros _ SI Hin. now apply elem_of_nil in Hin.
  - set (st1 := checkEdge P A O _ BB SI).
    assert (H1 : onlyAddsDeadEdges st st1).
    { subst st1. after onlyAddsDeadEdges_checkEdge.
      destruct isDead; [apply onlyAddsDeadEdges_insert | apply onlyAddsDeadEdges_refl]. }
    destruct (IH st1) as [H2 H3]. split.
    + eapply onlyAddsDeadEdges_trans; eassumption.
    + intros Hd SI' [-> | Hin]%elem_of_cons; [| now apply H3].
      destruct H2 as (_ & _ & _ & _ & Hsub). apply Hsub.
      subst st1. rewrite Hd.
      pose proof (onlyAddsDeadEdges_checkEdge
                    (set_deadEdges ({[ (BB, SI) ]} ∪ deadEdges st) st) BB SI)
        as (_ & _ & _ & _ & Hsub').
      apply Hsub'. cbn. apply elem_of_union_l, elem_of_singleton. reflexivity.
Qed.

(** The tables after [checkBlock] has examined a block. *)
Lemma checkBlock_tables (st : IAState) (BB : Block) :
  shouldCheckBlock st BB = true ->
  let isDead := fst (classifyBlock P A O st BB) in
  let isCertain := negb isDead && snd (classifyBlock P A O st BB) in
  let st' := checkBlock P A O st BB in
  deadBlocks st' = (if isDead then {[ BB ]} ∪ deadBlocks st else deadBlocks st)
  /\ certainBlocks st'
     = (if isCertain then {[ BB ]} ∪ certainBlocks st else certainBlocks st)
  /\ deadEdges st ⊆ deadEdges st'
  /\ (isDead = true -> forall SI, SI ∈ succs P BB -> (BB, SI) ∈ deadEdges st')
  /\ deadValues st' = deadValues st
  /\ (forall V, improvedValues st' !! V
                = if isDead && bool_decide (V ∈ insts P BB) then None
                  else improvedValues st !! V).
Proof.
  intros Hshould isDead isCertain st'. subst st'. unfold checkBlock.
  rewrite Hshould. simpl negb. cbv iota. cbv zeta.
  fold isDead.
  replace (if isDead && snd (classifyBlock P A O st BB) then false
           else snd (classifyBlock P A O st BB)) with isCertain
    by (unfold isCertain; destruct isDead, (snd (classifyBlock P A O st BB)); reflexivity).
  set (st1 := if isDead
              then eraseImprovements P BB (set_deadBlocks ({[ BB ]} ∪ deadBlocks st) st)
              else st).
  set (st2 := if isCertain
              then queueCFGBlockedOpens
                     (promoteCalls P O BB
                        (set_certainBlocks ({[ BB ]} ∪ certainBlocks st1) st1))
              else st1).
  set (st3 := if isDead || isCertain
              then fold_left
                     (fun st SI =>
                        let st := if isDead
                                  then set_deadEdges ({[ (BB, SI) ]} ∪ deadEdges st) st
                                  else st in
                        checkEdge P A O st BB SI) (succs P BB) st2
              else st2).
  set (st4 := if negb isDead
              then fold_left (fun st BI => request (pass_queueTryEvaluate (self A) BI) st)
                     (leadingPHIs P (insts P BB)) st3
              else queueCFGBlockedLoads st3).
  assert (H12 : deadBlocks st2 = deadBlocks st1
                /\ certainBlocks st2
                   = (if isCertain then {[ BB ]} ∪ certainBlocks st1 else certainBlocks st1)
                /\ improvedValues st2 = improvedValues st1
                /\ deadValues st2 = deadValues st1
                /\ deadEdges st1 ⊆ deadEdges st2).
  { subst st2. destruct isCertain; [| repeat split; reflexivity].
    pose proof (onlyAddsDeadEdges_queueCFGBlockedOpens
                  (promoteCalls P O BB
                     (set_certainBlocks ({[ BB ]} ∪ certainBlocks st1) st1)))
      as (Ha & Hb & Hc & Hd & He).
    pose proof (onlyAddsDeadEdges_promoteCalls BB
                  (set_certainBlocks ({[ BB ]} ∪ certainBlocks st1) st1))
      as (Ha' & Hb' & Hc' & Hd' & He').
    rewrite Ha, Hb, Hc, Hd, Ha', Hb', Hc', Hd'. cbn.
    repeat split; try reflexivity. etrans; [exact He' | exact He]. }
  assert (H23 : onlyAddsDeadEdges st2 st3
                /\ (isDead = true -> forall SI, SI ∈ succs P BB -> (BB, SI) ∈ deadEdges st3)).
  { subst st3. destruct (isDead || isCertain) eqn:Hor.
    - apply successors_loop.
    - split; [apply onlyAddsDeadEdges_refl |]. intros Hd. rewrite Hd in Hor. discriminate. }
  assert (H34 : onlyAddsDeadEdges st3 st4).
  { subst st4. destruct (negb isDead).
    - apply onlyAddsDeadEdges_fold. intros; apply onlyAddsDeadEdges_request.
    - apply onlyAddsDeadEdges_queueCFGBlockedLoads. }
  destruct H12 as (Ha2 & Hb2 & Hc2 & Hd2 & He2).
  destruct H23 as ((Ha3 & Hb3 & Hc3 & Hd3 & He3) & Hsucc).
  destruct H34 as (Ha4 & Hb4 & Hc4 & Hd4 & He4).
  assert (Hdc : isDead = true -> isCertain = false)
    by (unfold isCertain; now intros ->).
  assert (H01 : deadBlocks st1 = (if isDead then {[ BB ]} ∪ deadBlocks st else deadBlocks st)
                /\ certainBlocks st1 = certainBlocks st
                /\ deadEdges st1 = deadEdges st
                /\ deadValues st1 = deadValues st
                /\ (forall V, improvedValues st1 !! V
                              = if isDead && bool_decide (V ∈ insts P BB) then None
                                else improvedValues st !! V)).
  { subst st1. destruct isDead; [| simpl; tauto].
    destruct (eraseImprovements_tables BB (set_deadBlocks ({[ BB ]} ∪ deadBlocks st) st))
      as (-> & -> & -> & ->).
    simpl. repeat split; try reflexivity.
    intros V. now rewrite eraseImprovements_lookup. }
  destruct H01 as (Ha1 & Hb1 & Hc1 & Hd1 & He1).
  repeat split.
  - now rewrite Ha4, Ha3, Ha2, Ha1.
  - now rewrite Hb4, Hb3, Hb2, Hb1.
  - rewrite <- Hc1. etrans; [exact He2 |]. etrans; [exact He3 | exact He4].
  - intros Hd SI Hin. apply He4. now apply Hsucc.
  - now rewrite Hd4, Hd3, Hd2, Hd1.
  - intros V. now rewrite Hc4, Hc3, Hc2, He1.
Qed.


Lemma shouldCheckBlock_true (st : IAState) (BB : Block) :
  shouldCheckBlock st BB = true <-> (BB ∉ deadBlocks st) /\ (BB ∉ certainBlocks st).
Proof.
  unfold shouldCheckBlock, blockIsDead, blockIsCertain.
  rewrite negb_true_iff, orb_false_iff, !bool_decide_eq_false. reflexivity.
Qed.

Lemma forallb_elem_of {X : Type} (f : X -> bool) (l : list X) :
  forallb f l = true <-> forall x, x ∈ l -> f x = true.
Proof.
  rewrite forallb_forall. split; intros H x Hx; apply H; now apply list_elem_of_In.
Qed.

(** A block that [checkBlock] examines is marked dead exactly when the
    classification says so. *)
Lemma checkBlock_marks_dead (st : IAState) (BB : Block) :
  shouldCheckBlock st BB = true ->
  (BB ∈ deadBlocks (checkBlock P A O st BB) <-> fst (classifyBlock P A O st BB) = true)
  /\ (BB ∈ certainBlocks (checkBlock P A O st BB)
      -> fst (classifyBlock P A O st BB) = false).
Proof.
  intros Hshould.
  pose proof (checkBlock_tables st BB Hshould) as (HD & HC & _).
  apply shouldCheckBlock_true in Hshould as [HnD HnC].
  rewrite HD, HC. destruct (fst (classifyBlock P A O st BB)); simpl.
  - split; [| intros H; contradiction].
    split; [reflexivity |]. intros _. apply elem_of_union_l, elem_of_singleton. reflexivity.
  - split; [| reflexivity]. split; [contradiction | discriminate].
Qed.

(** [checkBlock] keeps the tables consistent. *)
Lemma checkBlock_consistent (st : IAState) (BB : Block) :
  LivenessConsistent P A st -> LivenessConsistent P A (checkBlock P A O st BB).
Proof.
  intros Hcons. set (st' := checkBlock P A O st BB).
  destruct (shouldCheckBlock st BB) eqn:Hshould.
  - pose proof (checkBlock_tables st BB Hshould) as (HD & HC & HE & HS & _ & _).
    fold st' in HD, HC, HE, HS.
    apply shouldCheckBlock_true in Hshould as [HnD HnC].
    destruct Hcons as (Hout & Hdisj & Hentry).
    pose proof (classifyBlock_isDead st BB) as Hdead.
    split; [| split].
    + intros B SI HB HSI. rewrite HD in HB.
      destruct (fst (classifyBlock P A O st BB)) eqn:HisDead.
      * apply elem_of_union in HB as [->%elem_of_singleton | HB]; [now apply HS |].
        apply HE. now apply Hout.
      * apply HE. now apply Hout.
    + rewrite HD, HC.
      destruct (fst (classifyBlock P A O st BB)); simpl.
      * intros x [->%elem_of_singleton | Hx]%elem_of_union Hc; [contradiction |].
        now apply (Hdisj x).
      * destruct (snd (classifyBlock P A O st BB)); [| exact Hdisj].
        intros x Hx [->%elem_of_singleton | Hc]%elem_of_union; [contradiction |].
        now apply (Hdisj x).
    + rewrite HD. destruct (fst (classifyBlock P A O st BB)); [| exact Hentry].
      intros [Heq%elem_of_singleton | H]%elem_of_union; [| contradiction].
      symmetry in Hdead. apply andb_true_iff in Hdead as [Hne _].
      apply negb_true_iff, bool_decide_eq_false in Hne. now apply Hne.
  - subst st'. unfold checkBlock. rewrite Hshould. exact Hcons.
Qed.

(** C1. For a block [BB] that [checkBlock] examines: if [BB] is not the
    entry block it is marked dead iff every incoming edge is dead, the
    entry block is not marked dead, if [BB] is marked dead every outgoing
    edge of [BB] is marked dead, and if [BB] is marked certain it is not
    marked dead.  Over all calls, [checkBlock] keeps the tables of the
    context consistent: every edge out of a dead block is dead, no block
    is both dead and certain, the entry block is not dead. *)
Theorem liveness_consistency (st : IAState) (BB : Block) :
  let st' := checkBlock P A O st BB in
  (shouldCheckBlock st BB = true ->
     (BB <> getEntryBlock P A ->
        (BB ∈ deadBlocks st'
         <-> forall PI, PI ∈ preds P BB -> edgeIsDead O st PI BB = true))
     /\ (BB = getEntryBlock P A -> ~ BB ∈ deadBlocks st')
     /\ (BB ∈ deadBlocks st' ->
         forall SI, SI ∈ succs P BB -> (BB, SI) ∈ deadEdges st')
     /\ (BB ∈ certainBlocks st' -> ~ BB ∈ deadBlocks st'))
  /\ (LivenessConsistent P A st -> LivenessConsistent P A st').
Proof.
  intros st'. split; [| apply checkBlock_consistent].
  intros Hshould.
  destruct (checkBlock_marks_dead st BB Hshould) as [Hdead Hcertain].
  pose proof (checkBlock_tables st BB Hshould) as (_ & _ & _ & HS & _).
  pose proof (classifyBlock_isDead st BB) as Hcl.
  fold st' in Hdead, Hcertain, HS.
  split; [| split; [| split]].
  - intros Hne. rewrite Hdead, Hcl. rewrite bool_decide_false by exact Hne.
    simpl. apply forallb_elem_of.
  - intros He. rewrite Hdead, Hcl. rewrite bool_decide_true by exact He. discriminate.
  - intros Hd. apply HS. now apply Hdead.
  - intros Hc Hd. apply Hdead in Hd. rewrite (Hcertain Hc) in Hd. discriminate.
Qed.

(** *** The evaluator and the other work items *)

Lemma onlyAddsDeadEdges_tryEvaluateResult (st : IAState) (V : Value) :
  onlyAddsDeadEdges st (fst (tryEvaluateResult P A O st V)).
Proof.
  assert (H : onlyAddsDeadEdges st
                (fst (IntegrationAttempt_tryEvaluateResult P A O st V))).
  { unfold IntegrationAttempt_tryEvaluateResult.
    destruct (negb (shouldTryEvaluate P A st V)); [apply onlyAddsDeadEdges_refl |].
    destruct V; try apply onlyAddsDeadEdges_refl.
    cbv zeta.
    repeat match goal with
      | |- context [if ?c then _ else _] => destruct c
      | |- context [match ?c with Some _ => _ | None => _ end] => destruct c
      end; cbn [fst];
      first [ apply onlyAddsDeadEdges_refl
            | apply onlyAddsDeadEdges_request
            | apply onlyAddsDeadEdges_evaluateTerminator ]. }
  unfold tryEvaluateResult, InlineAttempt_tryEvaluateResult.
  destruct (kind A); [| exact H].
  destruct V; try exact H. apply onlyAddsDeadEdges_refl.
Qed.

Lemma tryEvaluateResult_skip (st : IAState) (V : Value) :
  readFromCallSite A V = false ->
  shouldTryEvaluate P A st V = false ->
  snd (tryEvaluateResult P A O st V) = VCNull.
Proof.
  intros Hr H. unfold tryEvaluateResult, InlineAttempt_tryEvaluateResult,
    IntegrationAttempt_tryEvaluateResult, readFromCallSite in *.
  rewrite H. destruct (kind A); [| reflexivity]. destruct V; try reflexivity.
  discriminate.
Qed.

Lemma shouldTryEvaluate_true (st : IAState) (V : Value) :
  shouldTryEvaluate P A st V = true ->
  getReplacement A st V = getDefaultVC A V
  /\ (isInstruction V = true -> ~ getParent P V ∈ deadBlocks st).
Proof.
  unfold shouldTryEvaluate, blockIsDead.
  destruct (bool_decide_reflect (getReplacement A st V <> getDefaultVC A V))
    as [Hne|He]; [discriminate |].
  intros Hs. split.
  - destruct (decide (getReplacement A st V = getDefaultVC A V)); tauto.
  - intros HI. destruct V; try discriminate HI.
    now apply negb_true_iff, bool_decide_eq_false in Hs.
Qed.

Lemma factsKept_refl (st : IAState) : factsKept st st.
Proof. repeat split; reflexivity. Qed.

Lemma factsKept_trans (st1 st2 st3 : IAState) :
  factsKept st1 st2 -> factsKept st2 st3 -> factsKept st1 st3.
Proof.
  intros (Ha & Hb & Hc & Hd) (Ha' & Hb' & Hc' & Hd').
  repeat split; etrans; eassumption.
Qed.

Lemma onlyAddsDeadEdges_factsKept (st st' : IAState) :
  onlyAddsDeadEdges st st' -> factsKept st st'.
Proof.
  intros (Ha & Hb & _ & Hd & He). unfold factsKept. rewrite Ha, Hb, Hd.
  repeat split; try reflexivity. exact He.
Qed.

Lemma factsKept_checkBlock (st : IAState) (BB : Block) :
  factsKept st (checkBlock P A O st BB).
Proof.
  destruct (shouldCheckBlock st BB) eqn:Hshould.
  - pose proof (checkBlock_tables st BB Hshould) as (HD & HC & HE & _ & HV & _).
    unfold factsKept. rewrite HD, HC, HV. repeat split; try reflexivity; try exact HE.
    + destruct (fst _); [apply union_subseteq_r | reflexivity].
    + destruct (_ && _); [apply union_subseteq_r | reflexivity].
  - unfold checkBlock. rewrite Hshould. apply factsKept_refl.
Qed.

Lemma factsKept_tryEvaluate (st : IAState) (V : Value) :
  factsKept st (tryEvaluate P A O st V).
Proof.
  unfold tryEvaluate. cbv zeta.
  pose proof (onlyAddsDeadEdges_factsKept _ _ (onlyAddsDeadEdges_tryEvaluateResult st V))
    as H.
  destruct (_ && _); [| exact H].
  eapply factsKept_trans; [exact H |]. repeat split; reflexivity.
Qed.

Lemma factsKept_checkLoad (st : IAState) (LI : Value) :
  factsKept st (checkLoad P A O st LI).
Proof.
  unfold checkLoad. destruct (negb _); [apply factsKept_refl |].
  cbv zeta. destruct (bool_decide _); [| apply factsKept_refl].
  repeat split; reflexivity.
Qed.

Lemma factsKept_tryKillValue (st : IAState) (V : Value) :
  factsKept st (tryKillValue P O st V).
Proof.
  unfold tryKillValue.
  repeat match goal with
    | |- context [if ?c then _ else _] => destruct c
    | |- context [match ?c with Some _ => _ | None => _ end] => destruct c
    end; try apply factsKept_refl; repeat split; try reflexivity.
  cbn. apply union_subseteq_r.
Qed.

(** An improvement survives [checkBlock] unless the block of the
    improved instruction dies. *)
Lemma keptOrErased_checkBlock (st : IAState) (BB : Block) (V : Value) (K : ValCtx) :
  blocksWellFormed P ->
  keptOrErased P st V K -> keptOrErased P (checkBlock P A O st BB) V K.
Proof.
  intros Hwf Hk. destruct (shouldCheckBlock st BB) eqn:Hshould.
  - pose proof (checkBlock_tables st BB Hshould) as (HD & _ & _ & _ & _ & HI).
    unfold keptOrErased. rewrite HD, HI.
    destruct (fst (classifyBlock P A O st BB)); [| exact Hk]. simpl.
    destruct (bool_decide_reflect (V ∈ insts P BB)) as [Hin|Hin].
    + right. destruct (Hwf BB V Hin) as [HV Hp].
      split; [reflexivity |]. split; [exact HV |]. rewrite Hp.
      apply elem_of_union_l, elem_of_singleton. reflexivity.
    + destruct Hk as [Hk|(Hk & HV & Hd)]; [now left | right].
      split; [exact Hk |]. split; [exact HV | now apply elem_of_union_r].
  - unfold checkBlock. now rewrite Hshould.
Qed.

Lemma keptOrErased_onlyAddsDeadEdges (st st' : IAState) (V : Value) (K : ValCtx) :
  onlyAddsDeadEdges st st' -> keptOrErased P st V K -> keptOrErased P st' V K.
Proof. intros (Ha & _ & Hc & _ & _). unfold keptOrErased. now rewrite Ha, Hc. Qed.

(** No improved value and no instruction of a dead block passes
    [shouldTryEvaluate]. *)
Lemma keptOrErased_not_evaluated (st : IAState) (V : Value) (K : ValCtx) :
  K <> getDefaultVC A V ->
  keptOrErased P st V K ->
  shouldTryEvaluate P A st V = false.
Proof.
  intros HK Hk. destruct (shouldTryEvaluate P A st V) eqn:Hs; [| reflexivity].
  apply shouldTryEvaluate_true in Hs as [Hr Hd]. exfalso.
  destruct Hk as [Hk|(_ & HV & Hk)]; [| now apply Hd].
  unfold getReplacement in Hr. rewrite Hk in Hr. simpl in Hr. contradiction.
Qed.

Lemma keptOrErased_tryEvaluate (st : IAState) (V' V : Value) (K : ValCtx) :
  readFromCallSite A V = false ->
  K <> getDefaultVC A V ->
  keptOrErased P st V K ->
  keptOrErased P (tryEvaluate P A O st V') V K.
Proof.
  intros Hsite HK Hk. unfold tryEvaluate. cbv zeta.
  pose proof (keptOrErased_onlyAddsDeadEdges _ _ _ K
                (onlyAddsDeadEdges_tryEvaluateResult st V') Hk) as H1.
  destruct (decide (V' = V)) as [-> | Hne].
  - rewrite tryEvaluateResult_skip
      by (assumption || eapply keptOrErased_not_evaluated; eassumption).
    exact H1.
  - destruct (_ && _); [| exact H1].
    unfold keptOrErased in *. cbn.
    rewrite lookup_insert_ne by exact Hne. exact H1.
Qed.


Lemma keptOrErased_checkLoad (st : IAState) (LI : Value) (V : Value) (K : ValCtx) :
  K <> getDefaultVC A V ->
  keptOrErased P st V K ->
  keptOrErased P (checkLoad P A O st LI) V K.
Proof.
  intros HK Hk. unfold checkLoad.
  destruct (decide (LI = V)) as [-> | Hne].
  - rewrite (keptOrErased_not_evaluated st V K HK Hk). exact Hk.
  - destruct (negb _); [exact Hk |]. cbv zeta.
    destruct (bool_decide _); [| exact Hk].
    unfold keptOrErased in *. cbn. rewrite lookup_insert_ne by exact Hne. exact Hk.
Qed.

Lemma keptOrErased_tryKillValue (st : IAState) (V' V : Value) (K : ValCtx) :
  keptOrErased P st V K -> keptOrErased P (tryKillValue P O st V') V K.
Proof.
  intros Hk. unfold tryKillValue.
  repeat match goal with
    | |- context [if ?c then _ else _] => destruct c
    | |- context [match ?c with Some _ => _ | None => _ end] => destruct c
    end; exact Hk.
Qed.

End Tables.

Section Runs.

Context (P : Program) (A : Attempt).

Lemma factsKept_runItem (O : Oracle) (st : IAState) (w : WorkItem) :
  factsKept st (runItem P A O st w).
Proof.
  destruct w; simpl.
  - apply factsKept_checkBlock.
  - apply factsKept_tryEvaluate.
  - apply factsKept_checkLoad.
  - apply factsKept_tryKillValue.
  - apply onlyAddsDeadEdges_factsKept, onlyAddsDeadEdges_checkVariantEdge.
Qed.

Lemma keptOrErased_runItem (O : Oracle) (st : IAState) (w : WorkItem) (V : Value)
  (K : ValCtx) :
  blocksWellFormed P -> readFromCallSite A V = false -> K <> getDefaultVC A V ->
  keptOrErased P st V K ->
  keptOrErased P (runItem P A O st w) V K.
Proof.
  intros Hwf Hsite HK Hk. destruct w; simpl.
  - now apply keptOrErased_checkBlock.
  - now apply keptOrErased_tryEvaluate.
  - now apply keptOrErased_checkLoad.
  - now apply keptOrErased_tryKillValue.
  - eapply keptOrErased_onlyAddsDeadEdges; [apply onlyAddsDeadEdges_checkVariantEdge | exact Hk].
Qed.

Lemma liveness_consistency_runItem (O : Oracle) (st : IAState) (w : WorkItem) :
  LivenessConsistent P A st -> LivenessConsistent P A (runItem P A O st w).
Proof.
  intros Hc.
  assert (Hframe : forall st', deadBlocks st' = deadBlocks st ->
                               certainBlocks st' = certainBlocks st ->
                               deadEdges st ⊆ deadEdges st' ->
                               LivenessConsistent P A st').
  { intros st' Ha Hb He. destruct Hc as (H1 & H2 & H3).
    unfold LivenessConsistent. rewrite Ha, Hb. repeat split; try assumption.
    intros B SI HB HS. apply He. now apply H1. }
  destruct w; simpl.
  - now apply checkBlock_consistent.
  - unfold tryEvaluate. cbv zeta.
    pose proof (onlyAddsDeadEdges_tryEvaluateResult P A O st V) as (Ha & Hb & _ & _ & He).
    destruct (_ && _); now apply Hframe.
  - unfold checkLoad. destruct (negb _); [exact Hc |]. cbv zeta.
    destruct (bool_decide _); [| exact Hc]. now apply Hframe.
  - unfold tryKillValue.
    repeat match goal with
      | |- context [if ?c then _ else _] => destruct c
      | |- context [match ?c with Some _ => _ | None => _ end] => destruct c
      end; try exact Hc; now apply Hframe.
  - pose proof (onlyAddsDeadEdges_checkVariantEdge P A O st FromBB ToBB ScopeL)
      as (Ha & Hb & _ & _ & He).
    now apply Hframe.
Qed.




End Runs.

(** ** The walkers *)

Section Walk.

Context {S : Type} (U : list BIC) (visit : S -> BIC -> S * bool * list BIC).

Lemma queueWalkFrom_visited (w : IAWalker S) (bic : BIC) :
  bic ∈ Visited w -> queueWalkFrom w bic = w.
Proof. intros H. unfold queueWalkFrom. now rewrite bool_decide_true. Qed.

Lemma queueWalkFrom_fresh (w : IAWalker S) (bic : BIC) :
  bic ∉ Visited w ->
  PList (queueWalkFrom w bic) = PList w ++ [bic]
  /\ Visited (queueWalkFrom w bic) = {[ bic ]} ∪ Visited w.
Proof. intros H. unfold queueWalkFrom. now rewrite bool_decide_false. Qed.

Lemma queueWalkFrom_frame (w : IAWalker S) (bic : BIC) :
  CList (queueWalkFrom w bic) = CList w
  /\ visitLog (queueWalkFrom w bic) = visitLog w
  /\ visitor (queueWalkFrom w bic) = visitor w.
Proof. unfold queueWalkFrom. now destruct (bool_decide _). Qed.

Lemma queueWalkFrom_inv (rest : list BIC) (w : IAWalker S) (bic : BIC) :
  bic ∈ U -> WalkInv U rest w -> WalkInv U rest (queueWalkFrom w bic).
Proof.
  intros HU [Hnd Hin]. unfold queueWalkFrom.
  destruct (bool_decide_reflect (bic ∈ Visited w)) as [Hv|Hv]; [now split |].
  split; cbn.
  - rewrite !app_assoc. apply NoDup_app. split; [now rewrite <- app_assoc |].
    split; [| apply NoDup_singleton].
    intros x Hx ->%list_elem_of_singleton. rewrite <- app_assoc in Hx.
    apply Hv. now apply Hin.
  - intros b Hb. rewrite !app_assoc in Hb.
    apply elem_of_app in Hb as [Hb | ->%list_elem_of_singleton].
    + rewrite <- app_assoc in Hb. destruct (Hin b Hb) as [H1 H2].
      split; [now apply elem_of_union_r | exact H2].
    + split; [apply elem_of_union_l, elem_of_singleton; reflexivity | exact HU].
Qed.

Lemma queueWalkFrom_fold_inv (rest : list BIC) (l : list BIC) :
  forall w : IAWalker S,
    (forall x, x ∈ l -> x ∈ U) -> WalkInv U rest w ->
    WalkInv U rest (fold_left queueWalkFrom l w)
    /\ CList (fold_left queueWalkFrom l w) = CList w
    /\ visitLog (fold_left queueWalkFrom l w) = visitLog w.
Proof.
  induction l as [|x l IH]; intros w HU Hinv; simpl; [tauto |].
  destruct (IH (queueWalkFrom w x)) as (H1 & H2 & H3).
  - intros y Hy. apply HU. apply elem_of_cons. now right.
  - apply queueWalkFrom_inv; [apply HU, elem_of_cons; now left | exact Hinv].
  - destruct (queueWalkFrom_frame w x) as (Hc & Hl & _).
    rewrite H2, H3, Hc, Hl. tauto.
Qed.

Lemma walkOne_inv (rest : list BIC) (w : IAWalker S) (b : BIC) :
  ClosedUnder U visit -> WalkInv U (b :: rest) w ->
  WalkInv U rest (fst (walkOne visit w b))
  /\ CList (fst (walkOne visit w b)) = CList w
  /\ visitLog (fst (walkOne visit w b)) = visitLog w ++ [b].
Proof.
  intros Hcl [Hnd Hin]. unfold walkOne. cbv zeta. cbn [fst].
  set (r := visit (visitor w) b).
  set (w1 := {| PList := PList w; CList := CList w; Visited := Visited w;
                visitor := fst (fst r); visitLog := visitLog w ++ [b] |}).
  assert (Hb : b ∈ U).
  { apply (Hin b). apply elem_of_app. right. apply elem_of_cons. now left. }
  assert (Hinv1 : WalkInv U rest w1).
  { split; cbn; rewrite <- app_assoc; assumption. }
  destruct (queueWalkFrom_fold_inv rest (snd r) w1) as (H1 & H2 & H3).
  - intros x Hx. eapply Hcl; [exact Hb | exact Hx].
  - exact Hinv1.
  - rewrite H2, H3. tauto.
Qed.

Lemma walkCList_inv (l : list BIC) :
  forall w : IAWalker S,
    ClosedUnder U visit -> WalkInv U l w ->
    exists rest,
      WalkInv U rest (fst (walkCList visit l w))
      /\ CList (fst (walkCList visit l w)) = CList w
      /\ (snd (walkCList visit l w) = false ->
          rest = [] /\ visitLog (fst (walkCList visit l w)) = visitLog w ++ l).
Proof.
  induction l as [|b l IH]; intros w Hcl Hinv; cbn [walkCList]; cbv zeta.
  - exists []. cbn. rewrite app_nil_r. tauto.
  - destruct (walkOne_inv l w b Hcl Hinv) as (H1 & H2 & H3).
    destruct (snd (walkOne visit w b)) eqn:Hab.
    + exists l. rewrite Hab. split; [exact H1 |]. split; [exact H2 | discriminate].
    + destruct (IH (fst (walkOne visit w b)) Hcl H1) as (rest & H4 & H5 & H6).
      exists rest. split; [exact H4 |]. split; [now rewrite H5 |].
      intros Hf. destruct (H6 Hf) as [-> Hlog]. split; [reflexivity |].
      rewrite Hlog, H3, <- app_assoc. reflexivity.
Qed.

Lemma WalkInv_log (rest : list BIC) (w : IAWalker S) :
  WalkInv U rest w ->
  NoDup (visitLog w) /\ (forall b, b ∈ visitLog w -> b ∈ U)
  /\ length (visitLog w) + length rest + length (PList w) <= length U.
Proof.
  intros [Hnd Hin]. split; [| split].
  - now apply NoDup_app in Hnd as [H _].
  - intros b Hb. apply (Hin b). apply elem_of_app. now left.
  - rewrite <- !length_app, <- app_assoc.
    apply submseteq_length, NoDup_submseteq; [exact Hnd |].
    intros x Hx. now apply Hin.
Qed.

Lemma walkLoop_done (fuel : nat) (w : IAWalker S) :
  PList w = [] -> CList w = [] -> walkLoop visit fuel w = Some w.
Proof. intros HP HC. destruct fuel; simpl; now rewrite HP, HC. Qed.

Lemma walkLoop_round (fuel : nat) (w : IAWalker S) :
  ~ (PList w = [] /\ CList w = []) ->
  walkLoop visit (Datatypes.S fuel) w
  = if snd (walkCList visit (CList w) w) then Some (fst (walkCList visit (CList w) w))
    else walkLoop visit fuel (swapLists (fst (walkCList visit (CList w) w))).
Proof.
  intros H. simpl. destruct (PList w), (CList w); try reflexivity.
  exfalso. now apply H.
Qed.

(** The loop ends within the fuel given by the cursors not yet walked. *)
Lemma walkLoop_terminates (fuel : nat) :
  forall w : IAWalker S,
    ClosedUnder U visit -> WalkInv U (CList w) w ->
    2 * (length U - length (visitLog w)) + (if CList w is [] then 1 else 0) < fuel ->
    exists w' rest, walkLoop visit fuel w = Some w' /\ WalkInv U rest w'.
Proof.
  induction fuel as [|fuel IH]; intros w Hcl Hinv Hfuel; [lia |].
  destruct (WalkInv_log _ _ Hinv) as (Hnd & HU & Hlen).
  destruct (decide (PList w = [] /\ CList w = [])) as [[HP HC]|Hmore].
  - exists w, (CList w). split; [now apply walkLoop_done | exact Hinv].
  - rewrite walkLoop_round by exact Hmore.
    destruct (walkCList_inv (CList w) w Hcl Hinv) as (rest & H1 & H2 & H3).
    destruct (snd (walkCList visit (CList w) w)) eqn:Hab.
    + eexists _, rest. split; [reflexivity | exact H1].
    + destruct (H3 eq_refl) as [-> Hlog].
      destruct (WalkInv_log _ _ H1) as (_ & _ & Hlen').
      apply IH; [exact Hcl | |].
      * destruct H1 as [Ha Hb]. split; cbn in *; rewrite ?app_nil_r in *; assumption.
      * cbn [swapLists CList visitLog]. rewrite Hlog, length_app.
        rewrite Hlog, length_app in Hlen'. cbn in Hlen'.
        destruct (CList w) as [|c cl] eqn:HC.
        -- (* nothing to walk: the round only swaps the lists *)
           cbn in *. rewrite app_nil_r in Hlog.
           destruct (PList w) eqn:HP'; [exfalso; now apply Hmore | lia].
        -- cbn [length] in *.
           destruct (PList (fst (walkCList visit (c :: cl) w))); lia.
Qed.

(** A walk from a start cursor ends, and it has walked no cursor twice. *)
Lemma walkLoop_from_start (start : BIC) (s : S) :
  start ∈ U -> ClosedUnder U visit ->
  exists w',
    walkLoop visit (2 * length U + 2) (newWalker start s) = Some w'
    /\ NoDup (visitLog w') /\ NoDup (PList w')
    /\ (forall b, b ∈ visitLog w' ++ PList w' -> b ∈ Visited w' /\ b ∈ U).
Proof.
  intros Hs Hcl.
  destruct (walkLoop_terminates (2 * length U + 2) (newWalker start s) Hcl)
    as (w' & rest & Hw & Hnd & Hin).
  - split; cbn.
    + apply NoDup_singleton.
    + intros b ->%list_elem_of_singleton.
      split; [apply elem_of_singleton; reflexivity | exact Hs].
  - cbn. lia.
  - exists w'. split; [exact Hw |].
    apply NoDup_app in Hnd as (Hn1 & _ & Hn2). apply NoDup_app in Hn2 as (_ & _ & Hn3).
    split; [exact Hn1 |]. split; [exact Hn3 |].
    intros b Hb. apply Hin.
    apply elem_of_app in Hb as [Hb|Hb]; apply elem_of_app; [now left | right].
    apply elem_of_app. now right.
Qed.

End Walk.

(** C8. In a walk of the backward or of the forward walker,
    [queueWalkFrom] pushes a cursor only if it is not yet in the visited
    set (and then marks it), so no (cursor, context) pair is walked twice
    or queued twice; over a finite set [U] of cursors that the walk cannot
    leave, the two-buffer loop ends within [2 * length U + 2] rounds,
    whatever cycles the graph has. *)
Theorem walker_visits_once_and_terminates {S : Type} (W : WalkerClass S) (E : WalkEnv)
  (U : list BIC) (start : BIC) (s : S) :
  start ∈ U ->
  (forall (w : IAWalker S) bic,
      (bic ∈ Visited w -> queueWalkFrom w bic = w)
      /\ (bic ∉ Visited w ->
          PList (queueWalkFrom w bic) = PList w ++ [bic]
          /\ bic ∈ Visited (queueWalkFrom w bic)))
  /\ (ClosedUnder U (BackwardIAWalker_visit W E) ->
      exists w',
        BackwardIAWalker_walk W E (2 * length U + 2) (newWalker start s) = Some w'
        /\ NoDup (visitLog w') /\ NoDup (PList w')
        /\ (forall b, b ∈ visitLog w' ++ PList w' -> b ∈ Visited w' /\ b ∈ U))
  /\ (ClosedUnder U (ForwardIAWalker_visit W E) ->
      exists w',
        ForwardIAWalker_walk W E (2 * length U + 2) (newWalker start s) = Some w'
        /\ NoDup (visitLog w') /\ NoDup (PList w')
        /\ (forall b, b ∈ visitLog w' ++ PList w' -> b ∈ Visited w' /\ b ∈ U)).
Proof.
  intros Hs. split; [| split].
  - intros w bic. split; [apply queueWalkFrom_visited |].
    intros Hf. destruct (queueWalkFrom_fresh w bic Hf) as [H1 H2].
    split; [exact H1 |]. rewrite H2. apply elem_of_union_l, elem_of_singleton. reflexivity.
  - intros Hcl. now apply walkLoop_from_start.
  - intros Hcl. now apply walkLoop_from_start.
Qed.

(** ** The examples *)

Lemma LivenessConsistent_initial (P : Program) (A : Attempt) :
  LivenessConsistent P A initialState.
Proof.
  split; [| split]; cbn.
  - intros B SI HB. now apply not_elem_of_empty in HB.
  - apply disjoint_empty_l.
  - apply not_elem_of_empty.
Qed.

Lemma liveness_consistency_runItems (P : Program) (A : Attempt)
  (ws : list (Oracle * WorkItem)) :
  forall st, LivenessConsistent P A st -> LivenessConsistent P A (runItems P A ws st).
Proof.
  induction ws as [|[O w] ws IH]; intros st Hc; [exact Hc |].
  apply IH. now apply liveness_consistency_runItem.
Qed.

Lemma branchProgram_wellFormed : blocksWellFormed branchProgram.
Proof.
  intros BB V H. destruct BB as [|[|[|BB]]]; cbn in H;
    repeat (apply elem_of_cons in H as [-> | H]; [split; reflexivity |]);
    now apply elem_of_nil in H.
Qed.

(** After the branch on [true] is evaluated, [checkBlock] marks block 2
    dead. *)
Lemma liveness_consistency_witness :
  2 ∈ deadBlocks (checkBlock branchProgram rootAttempt localOracle afterBranch 2)
  /\ LivenessConsistent branchProgram rootAttempt
       (checkBlock branchProgram rootAttempt localOracle afterBranch 2).
Proof.
  assert (Hc : LivenessConsistent branchProgram rootAttempt afterBranch).
  { unfold afterBranch, afterPHI. apply liveness_consistency_runItems.
    apply liveness_consistency_runItems. apply LivenessConsistent_initial. }
  destruct (liveness_consistency branchProgram rootAttempt localOracle afterBranch 2)
    as (H1 & H2).
  split; [| exact (H2 Hc)].
  destruct H1 as (Hiff & _); [vm_compute; reflexivity |].
  apply Hiff; [discriminate |].
  intros PI Hin. cbn in Hin. apply list_elem_of_singleton in Hin. rewrite Hin.
  vm_compute. reflexivity.
Defined.



(** A return instruction is a candidate for elimination: [queueDIE]
    queues it, and [tryKillValue] marks it dead once its uses are. *)
Lemma return_is_candidate :
  getOpcode branchProgram (Instruction 2) = Ret
  /\ shouldDIE branchProgram localOracle (Instruction 2) = true
  /\ requests (queueDIE branchProgram rootAttempt localOracle initialState
                 (Instruction 2))
     = [pass_queueDIE 0 (Instruction 2)]
  /\ Instruction 2
     ∈ deadValues (tryKillValue branchProgram (allUsesDead localOracle) initialState
                     (Instruction 2)).
Proof.
  split; [reflexivity |]. split; [reflexivity |]. split; [reflexivity |].
  cbn. apply elem_of_union_l, elem_of_singleton. reflexivity.
Qed.


(** Both live edges of [%y] in [operandProgram] carry the load [%l20] of
    context 0, which is no constant, no pointer and no open call: [%y] is
    not improved to it. *)
Lemma phi_common_value_not_forwarded :
  let K := make_vc (Instruction 20) 0 in
  getLoopHeaderPHIValue operandProgram rootAttempt localOracle (Instruction 6) = None
  /\ (forall PI, PI ∈ preds operandProgram 3 ->
         edgeIsDead localOracle initialState PI 3 = false
         /\ edgeCarries operandProgram rootAttempt localOracle initialState
              (Instruction 6) PI K)
  /\ getPHINodeValue operandProgram rootAttempt localOracle initialState (Instruction 6)
     <> K
  /\ improvedValues
       (tryEvaluate operandProgram rootAttempt localOracle initialState (Instruction 6))
     !! Instruction 6 = None.
Proof.
  split; [reflexivity |]. split.
  - intros PI Hin. cbn in Hin.
    apply elem_of_cons in Hin as [-> | Hin]; [split; vm_compute; reflexivity |].
    apply list_elem_of_singleton in Hin. subst PI. split; vm_compute; reflexivity.
  - split; [vm_compute; discriminate | vm_compute; reflexivity].
Qed.

(** Both operands of [%x] in [operandProgram] were improved to 7, so
    [%x] is improved to 7; the edges of [%y] carry the same load, which
    may not be forwarded; the edges of [%y] in [mergeProgram] carry 1 and
    2. *)
Lemma phi_evaluation_witness :
  improvedValues
    (tryEvaluate operandProgram rootAttempt localOracle bothSeven (Instruction 5))
  !! Instruction 5 = Some (const_vc (ConstantInt 32 7))
  /\ getPHINodeValue operandProgram rootAttempt localOracle initialState (Instruction 6)
     = VCNull
  /\ getPHINodeValue mergeProgram rootAttempt localOracle initialState (Instruction 6)
     = VCNull.
Proof.
  split; [| split].
  - destruct (phi_evaluation operandProgram rootAttempt localOracle bothSeven
                (Instruction 5) eq_refl eq_refl) as [H _].
    destruct (H (const_vc (ConstantInt 32 7))) as [_ Hrec].
    + exists 1. split; [cbn; apply list_elem_of_here | reflexivity].
    + intros PI Hin _. cbn in Hin.
      apply elem_of_cons in Hin as [-> | Hin]; [vm_compute; reflexivity |].
      apply list_elem_of_singleton in Hin. subst PI. vm_compute. reflexivity.
    + reflexivity.
    + apply Hrec. vm_compute. reflexivity.
  - destruct (phi_evaluation operandProgram rootAttempt localOracle initialState
                (Instruction 6) eq_refl eq_refl) as (_ & H & _).
    apply (H (make_vc (Instruction 20) 0)); [| reflexivity].
    intros PI Hin _. cbn in Hin.
    apply elem_of_cons in Hin as [-> | Hin]; [vm_compute; reflexivity |].
    apply list_elem_of_singleton in Hin. subst PI. vm_compute. reflexivity.
  - destruct (phi_evaluation mergeProgram rootAttempt localOracle initialState
                (Instruction 6) eq_refl eq_refl) as (_ & _ & H).
    apply (H 1 2 (const_vc (ConstantInt 32 1)) (const_vc (ConstantInt 32 2)));
      try discriminate; try (vm_compute; reflexivity).
    + cbn. apply list_elem_of_here.
    + cbn. apply list_elem_of_further, list_elem_of_here.
Defined.

(** In iteration 1 the header PHI [%i] reads [%next] of iteration 0,
    which is 5. *)
Lemma loop_iteration_identity_witness :
  getPHINodeValue loopProgram secondIteration peelOracle initialState (Instruction 1)
  = const_vc (ConstantInt 32 5)
  /\ queuePredecessorsBW
       {| programOf := fun _ => loopProgram;
          kindAt := fun _ => PeelIteration 0 1 0 [10; 11];
          inlineAttemptAt := fun _ _ => None; blockIsDeadAt := fun _ _ => false;
          queueNormalPredecessorsBW := fun _ _ => [];
          queueSuccessorsFW := fun _ _ => [] |} 11 1
     = [(2, 2, 10)].
Proof.
  destruct (loop_iteration_identity loopProgram peelOracle
              {| programOf := fun _ => loopProgram;
                 kindAt := fun _ => PeelIteration 0 1 0 [10; 11];
                 inlineAttemptAt := fun _ _ => None; blockIsDeadAt := fun _ _ => false;
                 queueNormalPredecessorsBW := fun _ _ => [];
                 queueSuccessorsFW := fun _ _ => [] |}
              11 (fun V => if isConstant V then const_vc V else make_vc V 11)
              0 1 0 [10; 11] (Instruction 1) eq_refl) as (_ & Hphi & Hwalk).
  split.
  - destruct (Hphi 10 ltac:(lia) eq_refl) as [_ H]. exact (H initialState).
  - destruct (Hwalk eq_refl eq_refl) as [_ H]. exact (H 10 ltac:(lia) eq_refl).
Defined.

(** The exit PHI [%r] of [loopProgram] stays unimproved in the root
    context while the last iteration of the loop is not final. *)
Lemma lcssa_exit_constraint_witness :
  getPHINodeValue loopProgram rootAttempt peelOracle initialState (Instruction 4)
  = VCNull.
Proof.
  destruct (lcssa_exit_constraint loopProgram peelOracle rootAttempt initialState
              (Instruction 4) 1 eq_refl) as (_ & H & _).
  apply H.
  - reflexivity.
  - cbn. apply list_elem_of_here.
  - reflexivity.
  - intros pl [= <-]. cbn. discriminate.
Defined.

(** The single return of [identityProgram] returns [%arg], known to be
    10; with block 2 dead the only live return of [branchProgram] returns
    1; with both returns live the return value is unknown; the call of
    [callProgram] is improved to the 10 that its inline attempt
    reports. *)
Lemma return_value_resolution_witness :
  returnVal (localFoldConstants identityProgram (folderWithDead []) argumentKnown [])
  = Some (ConstantInt 32 10)
  /\ returnVal (localFoldConstants branchProgram (folderWithDead [2]) freshInlineAttempt [])
     = Some (ConstantInt 32 1)
  /\ snd (forwardReturnValue (Instruction 9)
            (localFoldConstants branchProgram (folderWithDead [2]) freshInlineAttempt []))
     = [(Instruction 9, ConstantInt 32 1)]
  /\ returnVal (localFoldConstants branchProgram (folderWithDead []) freshInlineAttempt [])
     = None
  /\ improvedValues
       (tryEvaluate callProgram rootAttempt calleeOracle initialState (Instruction 0))
     !! Instruction 0 = Some (const_vc (ConstantInt 32 10)).
Proof.
  split; [| split; [| split; [| split]]].
  - destruct (return_value_resolution identityProgram (folderWithDead []) argumentKnown
                [] (Instruction 9) eq_refl eq_refl eq_refl) as [H _].
    destruct (H (Instruction 0) eq_refl) as [Hr _]. exact Hr.
  - destruct (return_value_resolution branchProgram (folderWithDead [2])
                freshInlineAttempt [] (Instruction 9) eq_refl eq_refl eq_refl) as [H _].
    destruct (H (Instruction 2) eq_refl) as [Hr _]. exact Hr.
  - destruct (return_value_resolution branchProgram (folderWithDead [2])
                freshInlineAttempt [] (Instruction 9) eq_refl eq_refl eq_refl) as [H _].
    destruct (H (Instruction 2) eq_refl) as [_ Hr]. exact Hr.
  - destruct (return_value_resolution branchProgram (folderWithDead [])
                freshInlineAttempt [] (Instruction 9) eq_refl eq_refl eq_refl)
      as (_ & H & _).
    destruct (H ltac:(vm_compute; lia)) as [Hr _]. exact Hr.
  - destruct (return_value_resolution branchProgram (folderWithDead [])
                freshInlineAttempt [] (Instruction 9) eq_refl eq_refl eq_refl)
      as (_ & _ & H).
    destruct (H callProgram rootAttempt calleeOracle initialState (Instruction 0) 7
                eq_refl eq_refl eq_refl) as (_ & Hrec & _).
    apply Hrec; [discriminate | reflexivity].
Defined.

Lemma loopWalk_closed_backward :
  ClosedUnder loopCursors (BackwardIAWalker_visit plainWalker loopWalkEnv).
Proof.
  intros s b x Hb Hx. apply list_elem_of_In. apply list_elem_of_In in Hb.
  cbv in Hb.
  repeat (destruct Hb as [<- | Hb]; [apply list_elem_of_In in Hx; cbv in Hx |- *; tauto |]).
  contradiction.
Qed.

Lemma loopWalk_closed_forward :
  ClosedUnder loopCursors (ForwardIAWalker_visit plainWalker loopWalkEnv).
Proof.
  intros s b x Hb Hx. apply list_elem_of_In. apply list_elem_of_In in Hb.
  cbv in Hb.
  repeat (destruct Hb as [<- | Hb]; [apply list_elem_of_In in Hx; cbv in Hx |- *; tauto |]).
  contradiction.
Qed.

(** The walks of the cyclic [loopProgram] end. *)
Lemma walker_visits_once_and_terminates_witness :
  (exists w', BackwardIAWalker_walk plainWalker loopWalkEnv 18 (newWalker (2, 3, 0) tt)
              = Some w' /\ NoDup (visitLog w'))
  /\ (exists w', ForwardIAWalker_walk plainWalker loopWalkEnv 18 (newWalker (2, 3, 0) tt)
                 = Some w' /\ NoDup (visitLog w')).
Proof.
  destruct (walker_visits_once_and_terminates plainWalker loopWalkEnv loopCursors
              (2, 3, 0) tt) as (_ & Hb & Hf).
  - apply list_elem_of_In. cbv. tauto.
  - split.
    + destruct (Hb loopWalk_closed_backward) as (w' & Hw & Hnd & _).
      exists w'. split; [exact Hw | exact Hnd].
    + destruct (Hf loopWalk_closed_forward) as (w' & Hw & Hnd & _).
      exists w'. split; [exact Hw | exact Hnd].
Defined.

(* ================================================================== *)
(** * Further properties of the code *)

Section Certainty.

Context (P : Program) (A : Attempt) (O : Oracle).

Lemma classifyBlock_scan_snd (st : IAState) (BB : Block) (l : list Block) :
  forall dc,
    snd (fold_left
           (fun dc PI =>
              if negb (edgeIsDead O st PI BB) then
                (false,
                 if blockIsCertain st PI
                 then (if onlySuccessor P O st PI BB then snd dc else false)
                 else false)
              else dc) l dc)
    = snd dc
      && forallb (fun PI => edgeIsDead O st PI BB
                            || (blockIsCertain st PI && onlySuccessor P O st PI BB)) l.
Proof.
  induction l as [|PI l IH]; intros dc; cbn [fold_left forallb].
  - now rewrite andb_true_r.
  - rewrite IH. destruct (edgeIsDead O st PI BB); cbn [negb orb snd]; [reflexivity |].
    destruct (blockIsCertain st PI), (onlySuccessor P O st PI BB), (snd dc); reflexivity.
Qed.

Lemma classifyBlock_isCertain (st : IAState) (BB : Block) :
  BB <> getEntryBlock P A ->
  snd (classifyBlock P A O st BB)
  = forallb (fun PI => edgeIsDead O st PI BB
                       || (blockIsCertain st PI && onlySuccessor P O st PI BB))
      (preds P BB).
Proof.
  intros Hne. unfold classifyBlock. rewrite bool_decide_false by assumption.
  now rewrite classifyBlock_scan_snd.
Qed.

Lemma onlySuccessor_true (st : IAState) (PI BB : Block) :
  onlySuccessor P O st PI BB = true
  <-> forall SI, SI ∈ succs P PI -> SI <> BB -> edgeIsDead O st PI SI = true.
Proof.
  unfold onlySuccessor. rewrite forallb_elem_of. split; intros H SI Hin.
  - intros Hne. specialize (H SI Hin). rewrite bool_decide_false in H by assumption.
    cbn in H. now destruct (edgeIsDead O st PI SI).
  - destruct (bool_decide_reflect (SI = BB)) as [-> | Hne]; [reflexivity |].
    cbn. now rewrite (H SI Hin Hne).
Qed.

(** X1. The certainty rule of [checkBlock]: the entry block of the context
    becomes certain; any other examined block becomes certain iff it has a
    live incoming edge and every live incoming edge comes from a certain
    block all of whose other outgoing edges are dead; no other block's
    certainty changes. *)
Theorem block_certainty (st : IAState) (BB : Block) :
  shouldCheckBlock st BB = true ->
  let st' := checkBlock P A O st BB in
  (BB = getEntryBlock P A -> BB ∈ certainBlocks st')
  /\ (BB <> getEntryBlock P A ->
      (BB ∈ certainBlocks st'
       <-> (exists PI, PI ∈ preds P BB /\ edgeIsDead O st PI BB = false)
           /\ forall PI, PI ∈ preds P BB -> edgeIsDead O st PI BB = false ->
                PI ∈ certainBlocks st
                /\ forall SI, SI ∈ succs P PI -> SI <> BB ->
                     edgeIsDead O st PI SI = true))
  /\ (forall B, B <> BB -> (B ∈ certainBlocks st' <-> B ∈ certainBlocks st)).
Proof.
  intros Hshould st'.
  pose proof (checkBlock_tables P A O st BB Hshould) as (_ & HC & _).
  fold st' in HC. cbv zeta in HC.
  apply shouldCheckBlock_true in Hshould as [_ HnC].
  split; [| split].
  - intros He. rewrite HC. unfold classifyBlock.
    rewrite bool_decide_true by assumption. cbn.
    apply elem_of_union_l, elem_of_singleton. reflexivity.
  - intros Hne. rewrite HC, classifyBlock_isDead, classifyBlock_isCertain by assumption.
    rewrite bool_decide_false by assumption. cbn [negb andb].
    set (allDead := forallb (fun PI => edgeIsDead O st PI BB) (preds P BB)).
    set (allOK := forallb _ (preds P BB)).
    assert (HallDead : allDead = false
                       <-> exists PI, PI ∈ preds P BB /\ edgeIsDead O st PI BB = false).
    { unfold allDead. split.
      - intros H. apply not_true_iff_false in H. rewrite forallb_elem_of in H.
        induction (preds P BB) as [|x l IH].
        + exfalso. apply H. intros y Hy. now apply elem_of_nil in Hy.
        + destruct (edgeIsDead O st x BB) eqn:Hx.
          * destruct IH as (PI & Hin & Hd).
            { intros Hall. apply H. intros y Hy.
              apply elem_of_cons in Hy as [-> | Hy]; [assumption | now apply Hall]. }
            exists PI. split; [now apply list_elem_of_further | assumption].
          * exists x. split; [apply list_elem_of_here | assumption].
      - intros (PI & Hin & Hd). apply not_true_iff_false. rewrite forallb_elem_of.
        intros Hall. rewrite (Hall PI Hin) in Hd. discriminate. }
    assert (HallOK : allOK = true
                     <-> forall PI, PI ∈ preds P BB -> edgeIsDead O st PI BB = false ->
                           PI ∈ certainBlocks st
                           /\ forall SI, SI ∈ succs P PI -> SI <> BB ->
                                edgeIsDead O st PI SI = true).
    { unfold allOK. rewrite forallb_elem_of. split; intros H PI Hin.
      - intros Hd. specialize (H PI Hin). rewrite Hd in H. cbn in H.
        apply andb_true_iff in H as [H1 H2].
        split; [now apply bool_decide_eq_true in H1 | now apply onlySuccessor_true].
      - destruct (edgeIsDead O st PI BB) eqn:Hd; [reflexivity |]. cbn.
        destruct (H PI Hin Hd) as [H1 H2]. apply andb_true_iff.
        split; [now apply bool_decide_eq_true | now apply onlySuccessor_true]. }
    destruct allDead, allOK; cbn [negb andb].
    + split; [intros H; contradiction |]. intros [H _]. apply HallDead in H. discriminate.
    + split; [intros H; contradiction |]. intros [H _]. apply HallDead in H. discriminate.
    + split; [| intros _; apply elem_of_union_l, elem_of_singleton; reflexivity].
      intros _. split; [now apply HallDead | now apply HallOK].
    + split; [intros H; contradiction |]. intros [_ H]. apply HallOK in H. discriminate.
  - intros B Hne. rewrite HC. destruct (_ && _); [| reflexivity].
    rewrite elem_of_union, elem_of_singleton. tauto.
Qed.

End Certainty.

(** In [branchProgram], once the branch is folded and the entry block
    checked, block 1 becomes certain: its only incoming edge is live and
    comes from the certain entry block, whose other edge is dead. *)
Lemma block_certainty_witness :
  1 ∈ certainBlocks
        (checkBlock branchProgram rootAttempt localOracle
           (checkBlock branchProgram rootAttempt localOracle afterBranch 0) 1).
Proof.
  destruct (block_certainty branchProgram rootAttempt localOracle
              (checkBlock branchProgram rootAttempt localOracle afterBranch 0) 1)
    as (_ & H & _); [vm_compute; reflexivity |].
  apply H; [discriminate |]. split.
  - exists 0. split; [cbn; apply list_elem_of_here | vm_compute; reflexivity].
  - intros PI Hin _. cbn in Hin. apply list_elem_of_singleton in Hin. subst PI.
    split; [apply (bool_decide_unpack _); vm_compute; exact I |].
    intros SI HSI Hne. cbn in HSI.
    apply elem_of_cons in HSI as [-> | HSI]; [congruence |].
    apply list_elem_of_singleton in HSI. subst SI. vm_compute. reflexivity.
Defined.

Section Reruns.

Context (P : Program) (A : Attempt).

Lemma factsKept_runItems (ws : list (Oracle * WorkItem)) :
  forall st, factsKept st (runItems P A ws st).
Proof.
  induction ws as [|[O w] ws IH]; intros st; cbn [runItems fold_left].
  - apply factsKept_refl.
  - eapply factsKept_trans; [apply factsKept_runItem | apply IH].
Qed.

Lemma keptOrErased_runItems (ws : list (Oracle * WorkItem)) (V : Value) (K : ValCtx) :
  blocksWellFormed P -> readFromCallSite A V = false -> K <> getDefaultVC A V ->
  forall st, keptOrErased P st V K -> keptOrErased P (runItems P A ws st) V K.
Proof.
  intros Hwf Hsite HK. induction ws as [|[O w] ws IH]; intros st Hk;
    cbn [runItems fold_left]; [exact Hk |].
  apply IH. now apply keptOrErased_runItem.
Qed.

Lemma tryEvaluate_skip (O : Oracle) (st : IAState) (V : Value) :
  readFromCallSite A V = false -> shouldTryEvaluate P A st V = false ->
  tryEvaluate P A O st V = st.
Proof.
  intros Hsite Hs. unfold tryEvaluate. cbv zeta.
  rewrite tryEvaluateResult_skip by assumption. cbn [fst VCNull].
  rewrite bool_decide_false by (intros H; now apply H). cbn [andb].
  unfold tryEvaluateResult, InlineAttempt_tryEvaluateResult,
    IntegrationAttempt_tryEvaluateResult, readFromCallSite in *.
  rewrite Hs. cbn [negb]. destruct (kind A), V; try reflexivity; discriminate.
Qed.

(** X2. Work is done once.  A block that is dead or certain is never
    examined again, and an instruction that has gained an improvement is
    never evaluated again: at any later point of the run [checkBlock],
    [tryEvaluate] and [checkLoad] return the state as it is. *)
Theorem decided_work_is_skipped (ws : list (Oracle * WorkItem)) (st : IAState)
  (O : Oracle) :
  let st' := runItems P A ws st in
  (forall BB, BB ∈ deadBlocks st \/ BB ∈ certainBlocks st ->
              checkBlock P A O st' BB = st')
  /\ (forall V K, blocksWellFormed P -> readFromCallSite A V = false ->
                  hasImprovement A st V K ->
                  tryEvaluate P A O st' V = st' /\ checkLoad P A O st' V = st').
Proof.
  intros st'. split.
  - intros BB Hd. destruct (factsKept_runItems ws st) as (HD & HC & _).
    fold st' in HD, HC. unfold checkBlock.
    replace (shouldCheckBlock st' BB) with false; [reflexivity |].
    symmetry. apply not_true_iff_false. rewrite shouldCheckBlock_true.
    intros [H1 H2]. destruct Hd as [Hd | Hd]; [apply H1, HD, Hd | apply H2, HC, Hd].
  - intros V K Hwf Hsite [Hk HK].
    assert (Hs : shouldTryEvaluate P A st' V = false).
    { apply (keptOrErased_not_evaluated P A st' V K HK).
      apply keptOrErased_runItems; try assumption. now left. }
    split; [now apply tryEvaluate_skip |].
    unfold checkLoad. now rewrite Hs.
Qed.

(** Where a value of [deadValues] comes from. *)
Lemma deadValues_runItem (O : Oracle) (st : IAState) (w : WorkItem) (X : Value) :
  X ∈ deadValues (runItem P A O st w) ->
  X ∈ deadValues st
  \/ (w = TryKillValue X
      /\ isInstruction X && mayHaveSideEffects P X = false
      /\ valueIsDead O st X = true).
Proof.
  destruct w as [BB | V | LI | V | FromBB ToBB ScopeL]; cbn [runItem].
  - destruct (shouldCheckBlock st BB) eqn:Hs.
    + pose proof (checkBlock_tables P A O st BB Hs) as (_ & _ & _ & _ & HV & _).
      rewrite HV. now left.
    + unfold checkBlock. rewrite Hs. now left.
  - unfold tryEvaluate. cbv zeta.
    destruct (onlyAddsDeadEdges_tryEvaluateResult P A O st V) as (_ & _ & _ & HV & _).
    destruct (_ && _); cbn; rewrite HV; now left.
  - unfold checkLoad. destruct (negb _); [now left |]. cbv zeta.
    destruct (bool_decide _); cbn; now left.
  - unfold tryKillValue.
    destruct (bool_decide (V ∈ deadValues st)); [now left |].
    destruct (isInstruction V && mayHaveSideEffects P V) eqn:Hse.
    + destruct (hasOpcode P Call V); [| now left].
      destruct (valueIsDead O st V); [| now left].
      destruct (getInlineAttempt O V); cbn; now left.
    + destruct (valueIsDead O st V) eqn:Hd; [| now left].
      cbn. rewrite elem_of_union, elem_of_singleton. intros [-> | H]; [| now left].
      right. repeat split; assumption.
  - destruct (onlyAddsDeadEdges_checkVariantEdge P A O st FromBB ToBB ScopeL)
      as (_ & _ & _ & HV & _).
    rewrite HV. now left.
Qed.

Lemma deadValues_runItems_killed (ws : list (Oracle * WorkItem)) (X : Value) :
  forall st,
    X ∈ deadValues (runItems P A ws st) ->
    X ∈ deadValues st \/ exists O, (O, TryKillValue X) ∈ ws.
Proof.
  induction ws as [|[O w] ws IH]; intros st; cbn [runItems fold_left fst snd];
    [now left |].
  intros H. apply IH in H as [H | [O' H]].
  - apply deadValues_runItem in H as [H | (-> & _)]; [now left |].
    right. exists O. apply list_elem_of_here.
  - right. exists O'. now apply list_elem_of_further.
Qed.

(** X3. A value is marked dead only by [tryKillValue] on that very
    value, at a moment when [valueIsDead] held for it, and never if it is
    an instruction that may have side effects: whatever the run, every
    member of [deadValues] was one at the start or went through such an
    item. *)
Theorem dead_values_are_killed (ws : list (Oracle * WorkItem)) (st : IAState)
  (X : Value) :
  X ∈ deadValues (runItems P A ws st) ->
  X ∈ deadValues st
  \/ (isInstruction X && mayHaveSideEffects P X = false
      /\ exists ws1 O ws2,
           ws = ws1 ++ (O, TryKillValue X) :: ws2
           /\ valueIsDead O (runItems P A ws1 st) X = true).
Proof.
  revert st. induction ws as [|[O w] ws IH] using rev_ind; intros st.
  - cbn. now left.
  - unfold runItems. rewrite fold_left_app. cbn [fold_left fst snd].
    fold (runItems P A ws st). intros H.
    apply deadValues_runItem in H as [H | (-> & Hse & Hd)].
    + apply IH in H as [H | (Hse & ws1 & O1 & ws2 & -> & Hd)]; [now left |].
      right. split; [assumption |].
      exists ws1, O1, (ws2 ++ [(O, w)]). split; [| assumption].
      now rewrite <- app_assoc.
    + right. split; [assumption |]. exists ws, O, []. now split.
Qed.

End Reruns.

(** ** Eligibility for dead-instruction elimination *)

Lemma shouldDIE_never (P : Program) (O : Oracle) (V : Value) :
  isInstruction V = true -> getOpcode P V ∈ neverEliminated -> shouldDIE P O V = false.
Proof.
  intros HI Hop. destruct V as [n | n | w v | n | n]; try discriminate HI.
  unfold neverEliminated in Hop. cbn [shouldDIE].
  destruct (getOpcode P (Instruction n)); try reflexivity; exfalso;
    repeat (apply elem_of_cons in Hop as [Hop | Hop]; [discriminate Hop |]);
    now apply elem_of_nil in Hop.
Qed.

(** [queueDIE] hands a value to the pass only if [shouldDIE] accepts it. *)
Lemma queueDIE_queued (P : Program) (A : Attempt) (O : Oracle) (s : IAState) (X : Value) :
  queueDIE P A O s X = request (pass_queueDIE (self A) X) s -> shouldDIE P O X = true.
Proof.
  unfold queueDIE. destruct (shouldDIE P O X); [reflexivity |]. cbn [negb].
  intros H. apply (f_equal (fun s => length (requests s))) in H. cbn in H.
  rewrite length_app in H. cbn in H. lia.
Qed.

(** C10, as amended. A value is a candidate for direct elimination iff
    it is a function argument, a call with an existing inline attempt, or
    an instruction without side effects that is neither a call nor one of
    vararg, alloca, invoke, store, branch, indirect branch, switch, unwind
    and unreachable: PHI nodes, return instructions and ordinary pure
    instructions.  [queueDIE] hands a value that [shouldDIE] accepts to
    the pass; [tryKillValue] marks a candidate whose uses are dead as
    dead, or, for a call with side effects, queues the return instructions
    of its inline attempt; it leaves every other instruction with side
    effects as it is.  An instruction of the listed opcodes is never
    directly eliminated: [shouldDIE] refuses it, [queueDIE] queues nothing
    for it, and in a run whose [tryKillValue] items were all queued by
    [queueDIE] it never enters [deadValues]; it counts as dead once its
    block is dead. *)
Theorem shouldDIE_eligibility (P : Program) (A : Attempt) (O : Oracle) (st : IAState)
  (V : Value) :
  (candidateForDIE P O V = true <->
     (exists n, V = Argument n)
     \/ (isInstruction V = true /\ getOpcode P V = Call /\ getInlineAttempt O V <> None)
     \/ (isInstruction V = true /\ mayHaveSideEffects P V = false
         /\ getOpcode P V ∉ (Call :: neverEliminated)))
  /\ (isInstruction V = true -> mayHaveSideEffects P V = false ->
      getOpcode P V = PHI \/ getOpcode P V = Ret -> candidateForDIE P O V = true)
  /\ (shouldDIE P O V = true -> localValueIsDead P A O st V = false ->
      queueDIE P A O st V = request (pass_queueDIE (self A) V) st)
  /\ (candidateForDIE P O V = true -> ~ V ∈ deadValues st ->
      valueIsDead O st V = true ->
      (isInstruction V && mayHaveSideEffects P V = false ->
       V ∈ deadValues (tryKillValue P O st V))
      /\ (isInstruction V && mayHaveSideEffects P V = true ->
          exists IA, getInlineAttempt O V = Some IA
                     /\ tryKillValue P O st V = request (call_queueAllReturnInsts IA) st))
  /\ (shouldDIE P O V = true -> candidateForDIE P O V = false ->
      tryKillValue P O st V = st)
  /\ (isInstruction V = true -> getOpcode P V ∈ neverEliminated ->
      shouldDIE P O V = false
      /\ queueDIE P A O st V = st
      /\ (forall ws s, killsQueuedByDIE P A ws -> ~ V ∈ deadValues s ->
                       ~ V ∈ deadValues (runItems P A ws s))
      /\ (getParent P V ∈ deadBlocks st -> localValueIsDead P A O st V = true)).
Proof.
  split; [| split; [| split; [| split; [| split]]]].
  - unfold candidateForDIE. destruct V as [n | n | w v | n | n].
    + split; [intros _; left; now exists n | reflexivity].
    + rewrite andb_true_iff, shouldDIE_instruction, orb_true_iff, negb_true_iff.
      unfold hasOpcode, neverEliminated. cbn [isInstruction andb].
      rewrite bool_decide_eq_true. split.
      * intros [[[Hc Hi] | Hn] Hp]; right.
        -- left. repeat split; assumption.
        -- destruct Hp as [Hp | Hp].
           ++ right. repeat split; assumption.
           ++ exfalso. apply Hn. rewrite Hp. apply list_elem_of_here.
      * intros [[m Hm] | [(_ & Hc & Hi) | (_ & Hp & Hn)]]; [discriminate Hm | |].
        -- split; [left; now split | now right].
        -- split; [now right | now left].
    + split; [discriminate |].
      intros [[m Hm] | [(HI & _) | (HI & _)]]; discriminate.
    + split; [discriminate |].
      intros [[m Hm] | [(HI & _) | (HI & _)]]; discriminate.
    + split; [discriminate |].
      intros [[m Hm] | [(HI & _) | (HI & _)]]; discriminate.
  - intros HI Hp Hop. destruct V as [n | n | w v | n | n]; try discriminate HI.
    unfold candidateForDIE. cbn [isInstruction andb]. rewrite Hp. cbn [negb orb].
    rewrite andb_true_r. cbn [shouldDIE]. now destruct Hop as [-> | ->].
  - intros Hs Hl. unfold queueDIE. now rewrite Hs, Hl.
  - intros Hc Hnot Hd. unfold candidateForDIE in Hc.
    apply andb_true_iff in Hc as [Hs Hc]. unfold tryKillValue.
    rewrite bool_decide_false by assumption. split; intros Hse; rewrite Hse.
    + rewrite Hd. cbn. apply elem_of_union_l, elem_of_singleton. reflexivity.
    + rewrite Hse in Hc. cbn [negb orb] in Hc. rewrite Hc, Hd.
      assert (HI : exists n, V = Instruction n).
      { unfold hasOpcode in Hc. destruct V; try discriminate Hc. now eexists. }
      destruct HI as [n ->]. cbn [shouldDIE] in Hs.
      unfold hasOpcode in Hc. cbn in Hc. apply bool_decide_eq_true in Hc.
      rewrite Hc in Hs. apply bool_decide_eq_true in Hs.
      destruct (getInlineAttempt O (Instruction n)) as [IA |]; [| contradiction].
      now exists IA.
  - intros Hs Hc. unfold candidateForDIE in Hc. rewrite Hs in Hc. cbn [andb] in Hc.
    apply orb_false_iff in Hc as [Hse Hcall]. apply negb_false_iff in Hse.
    unfold tryKillValue. rewrite Hse, Hcall. now destruct (bool_decide _).
  - intros HI Hop. pose proof (shouldDIE_never P O V HI Hop) as Hs.
    split; [exact Hs |]. split; [unfold queueDIE; now rewrite Hs |]. split.
    + intros ws s Hq Hnot Hin.
      apply (deadValues_runItems_killed P A) in Hin as [Hin | [O' Hin]];
        [now apply Hnot |].
      destruct (Hq O' V Hin) as (O'' & s' & Hqueued).
      apply queueDIE_queued in Hqueued.
      now rewrite (shouldDIE_never P O'' V HI Hop) in Hqueued.
    + intros Hdead. unfold localValueIsDead, blockIsDead. rewrite HI.
      rewrite (bool_decide_true (getParent P V ∈ deadBlocks st)) by assumption.
      now destruct (bool_decide _).
Qed.

(** In [branchProgram] the PHI is a candidate and is marked dead once its
    uses are; the branch is not, and no run in which the pass kills what
    [queueDIE] queued marks it dead. *)
Lemma shouldDIE_eligibility_witness :
  candidateForDIE branchProgram localOracle (Instruction 1) = true
  /\ Instruction 1
     ∈ deadValues (tryKillValue branchProgram (allUsesDead localOracle) initialState
                     (Instruction 1))
  /\ queueDIE branchProgram rootAttempt localOracle initialState (Instruction 0)
     = initialState
  /\ ~ Instruction 0
       ∈ deadValues
           (runItems branchProgram rootAttempt
              [(allUsesDead localOracle, TryKillValue (Instruction 2))] initialState).
Proof.
  destruct (shouldDIE_eligibility branchProgram rootAttempt (allUsesDead localOracle)
              initialState (Instruction 1)) as (_ & Hphi & _ & Hkill & _).
  destruct (shouldDIE_eligibility branchProgram rootAttempt localOracle initialState
              (Instruction 0)) as (_ & _ & _ & _ & _ & Hnever).
  destruct Hnever as (_ & Hq & Hrun & _);
    [reflexivity | unfold neverEliminated; in_list |].
  split; [reflexivity |]. split; [| split; [exact Hq |]].
  - destruct Hkill as [Hdead _];
      [apply Hphi; [reflexivity | reflexivity | now left]
      | apply not_elem_of_empty | reflexivity |].
    apply Hdead. reflexivity.
  - apply Hrun; [| apply not_elem_of_empty].
    intros O X Hin. apply list_elem_of_singleton in Hin. injection Hin as -> ->.
    exists localOracle, initialState. reflexivity.
Defined.

(** Once the PHI of [branchProgram] is improved, evaluating it again
    after the branch is folded changes nothing. *)
Lemma decided_work_is_skipped_witness :
  tryEvaluate branchProgram rootAttempt localOracle afterBranch (Instruction 1)
  = afterBranch.
Proof.
  destruct (decided_work_is_skipped branchProgram rootAttempt
              [(localOracle, TryEvaluate (Instruction 0))] afterPHI localOracle)
    as [_ H].
  destruct (H (Instruction 1) (const_vc (ConstantInt 32 7)) branchProgram_wellFormed
              eq_refl) as [Hskip _]; [| exact Hskip].
  split; [vm_compute; reflexivity | discriminate].
Defined.

(** The return of block 1 of [branchProgram] is in [deadValues] after
    one [tryKillValue] at a moment when all its uses are dead. *)
Lemma dead_values_are_killed_witness :
  exists ws1 O ws2,
    [(allUsesDead localOracle, TryKillValue (Instruction 2))]
    = ws1 ++ (O, TryKillValue (Instruction 2)) :: ws2
    /\ valueIsDead O (runItems branchProgram rootAttempt ws1 initialState) (Instruction 2)
       = true.
Proof.
  destruct (dead_values_are_killed branchProgram rootAttempt
              [(allUsesDead localOracle, TryKillValue (Instruction 2))] initialState
              (Instruction 2)) as [H | [_ H]].
  - cbn. apply elem_of_union_l, elem_of_singleton. reflexivity.
  - cbn in H. now apply not_elem_of_empty in H.
  - exact H.
Defined.

Section Branch.

Context (P : Program) (A : Attempt) (O : Oracle).

Lemma shouldCheckBlock_onlyAddsDeadEdges (st st' : IAState) (BB : Block) :
  onlyAddsDeadEdges st st' -> shouldCheckBlock st' BB = shouldCheckBlock st BB.
Proof.
  intros (HD & HC & _). unfold shouldCheckBlock, blockIsDead, blockIsCertain.
  now rewrite HD, HC.
Qed.

Lemma terminator_targets (BB takenTarget : Block) (l : list Block) :
  forall st,
    let st' :=
      fold_left
        (fun st thisTarget =>
           if shouldCheckBlock st thisTarget then
             let st := if bool_decide (thisTarget <> takenTarget)
                       then setEdgeDead BB thisTarget st else st in
             checkEdge P A O st BB thisTarget
           else st) l st in
    onlyAddsDeadEdges st st'
    /\ forall T, T ∈ l -> T <> takenTarget -> shouldCheckBlock st T = true ->
         (BB, T) ∈ deadEdges st'.
Proof.
  induction l as [|x l IH]; intros st; cbn [fold_left]; cbv zeta.
  - split; [apply onlyAddsDeadEdges_refl |]. intros T HT. now apply elem_of_nil in HT.
  - set (st1 := if shouldCheckBlock st x then _ else st).
    assert (H1 : onlyAddsDeadEdges st st1).
    { unfold st1. destruct (shouldCheckBlock st x); [| apply onlyAddsDeadEdges_refl].
      eapply onlyAddsDeadEdges_trans; [| apply onlyAddsDeadEdges_checkEdge].
      destruct (bool_decide _);
        [apply onlyAddsDeadEdges_setEdgeDead | apply onlyAddsDeadEdges_refl]. }
    destruct (IH st1) as [H2 H3]. cbv zeta in H2, H3.
    split; [eapply onlyAddsDeadEdges_trans; eassumption |].
    intros T HT Hne Hs. apply elem_of_cons in HT as [-> | HT].
    + destruct H2 as (_ & _ & _ & _ & Hsub). apply Hsub.
      unfold st1. rewrite Hs. rewrite bool_decide_true by assumption.
      destruct (onlyAddsDeadEdges_checkEdge P A O (setEdgeDead BB x st) BB x)
        as (_ & _ & _ & _ & Hsub').
      apply Hsub'. cbn. apply elem_of_union_l, elem_of_singleton. reflexivity.
    + apply H3; try assumption.
      now rewrite (shouldCheckBlock_onlyAddsDeadEdges st st1).
Qed.

(** X4. Folding a conditional branch whose condition, if it is replaced
    by a constant, is replaced by a constant integer (the only case in
    which [cast<ConstantInt>] succeeds).  Evaluating such a branch that is
    not in a dead block records no improvement for it and leaves the
    blocks as they are; while the condition has no constant replacement
    nothing changes at all; once it has one, the edge to every successor
    other than the taken one (the second successor for a zero condition,
    else the first) whose fate is still open is dead afterwards. *)
Theorem branch_folding (st : IAState) (I : Value) :
  hasOpcode P Br I = true ->
  shouldTryEvaluate P A st I = true ->
  (forall C, getConstReplacement A st (getCondition P I) = Some C ->
             exists w v, C = ConstantInt w v) ->
  let st' := tryEvaluate P A O st I in
  let BB := getParent P I in
  onlyAddsDeadEdges st st'
  /\ (getConstReplacement A st (getCondition P I) = None -> st' = st)
  /\ (forall w v takenTarget,
        getConstReplacement A st (getCondition P I) = Some (ConstantInt w v) ->
        (if isZero (ConstantInt w v) then succs P BB !! 1 else succs P BB !! 0)
        = Some takenTarget ->
        forall T, T ∈ succs P BB -> T <> takenTarget -> shouldCheckBlock st T = true ->
                  (BB, T) ∈ deadEdges st').
Proof.
  intros HBr Hs _ st' BB.
  assert (HI : exists n, I = Instruction n).
  { unfold hasOpcode in HBr. destruct I; try discriminate HBr. now eexists. }
  destruct HI as [n ->].
  assert (Hst' : st' = evaluateTerminator P A O st (Instruction n)).
  { unfold st', tryEvaluate, tryEvaluateResult, InlineAttempt_tryEvaluateResult,
      IntegrationAttempt_tryEvaluateResult.
    rewrite Hs, HBr. cbn [negb orb]. now destruct (kind A). }
  rewrite Hst'. split; [apply onlyAddsDeadEdges_evaluateTerminator |].
  unfold evaluateTerminator. rewrite HBr. fold BB. split.
  - now intros ->.
  - intros w v takenTarget -> ->. apply terminator_targets.
Qed.

(** X5. The two lists of work blocked on the control flow are handed to
    the pass and emptied: every blocked load (open push) is queued once, in
    the order in which it was blocked; nothing else changes, and a second
    call queues nothing. *)
Theorem blocked_work_is_flushed (st : IAState) :
  (let st' := queueCFGBlockedLoads st in
   CFGBlockedLoads st' = []
   /\ requests st'
      = requests st
        ++ map (fun LI => pass_queueCheckLoad (fst LI) (snd LI)) (CFGBlockedLoads st)
   /\ CFGBlockedOpens st' = CFGBlockedOpens st
   /\ onlyAddsDeadEdges st st' /\ deadEdges st' = deadEdges st
   /\ iterStatus st' = iterStatus st
   /\ queueCFGBlockedLoads st' = st')
  /\ (let st' := queueCFGBlockedOpens st in
      CFGBlockedOpens st' = []
      /\ requests st'
         = requests st
           ++ map (fun OI => pass_queueOpenPush (fst OI) (snd OI)) (CFGBlockedOpens st)
      /\ CFGBlockedLoads st' = CFGBlockedLoads st
      /\ onlyAddsDeadEdges st st' /\ deadEdges st' = deadEdges st
      /\ iterStatus st' = iterStatus st
      /\ queueCFGBlockedOpens st' = st').
Proof.
  assert (Hfold : forall {X : Type} (f : X -> Request) (l : list X) (s : IAState),
             let s' := fold_left (fun st x => request (f x) st) l s in
             requests s' = requests s ++ map f l
             /\ CFGBlockedLoads s' = CFGBlockedLoads s
             /\ CFGBlockedOpens s' = CFGBlockedOpens s
             /\ deadBlocks s' = deadBlocks s /\ certainBlocks s' = certainBlocks s
             /\ deadEdges s' = deadEdges s /\ improvedValues s' = improvedValues s
             /\ deadValues s' = deadValues s /\ iterStatus s' = iterStatus s).
  { intros X f l. induction l as [|x l IH]; intros s; cbn [fold_left map].
    - rewrite app_nil_r. repeat split; reflexivity.
    - destruct (IH (request (f x) s)) as (-> & -> & -> & -> & -> & -> & -> & -> & ->).
      cbn. rewrite <- app_assoc. repeat split; reflexivity. }
  split; cbv zeta.
  - unfold queueCFGBlockedLoads.
    destruct (Hfold _ (fun LI => pass_queueCheckLoad (fst LI) (snd LI))
                (CFGBlockedLoads st) st) as (Hr & Hl & Ho & HD & HC & HE & HI & HV & HS).
    cbv zeta in *. cbn [clear_CFGBlockedLoads CFGBlockedLoads requests CFGBlockedOpens
                          deadEdges iterStatus fold_left].
    repeat split; try assumption; try reflexivity; cbn; congruence.
  - unfold queueCFGBlockedOpens.
    destruct (Hfold _ (fun OI => pass_queueOpenPush (fst OI) (snd OI))
                (CFGBlockedOpens st) st) as (Hr & Hl & Ho & HD & HC & HE & HI & HV & HS).
    cbv zeta in *. cbn [clear_CFGBlockedOpens CFGBlockedLoads requests CFGBlockedOpens
                          deadEdges iterStatus fold_left].
    repeat split; try assumption; try reflexivity; cbn; congruence.
Qed.

End Branch.

(** The branch on [true] of [branchProgram] kills the edge to its second
    successor. *)
Lemma branch_folding_witness :
  (0, 2) ∈ deadEdges
             (tryEvaluate branchProgram rootAttempt localOracle initialState
                (Instruction 0)).
Proof.
  destruct (branch_folding branchProgram rootAttempt localOracle initialState
              (Instruction 0) eq_refl eq_refl) as (_ & _ & H).
  { intros C HC. injection HC as <-. now exists 1%N, 1%Z. }
  apply (H 1%N 1%Z 1 eq_refl eq_refl 2).
  - cbn. apply list_elem_of_further, list_elem_of_here.
  - discriminate.
  - reflexivity.
Defined.

Lemma immediateChildLoop_from_sound (P : Program) (Parent : option Loop) (fuel : nat) :
  forall Child L,
    immediateChildLoop_from P fuel Parent Child = Some L ->
    getParentLoop P L = Parent
    /\ exists n, n <= fuel /\ ancestorLoop P n Child = Some L
                 /\ forall m M, m < n -> ancestorLoop P m Child = Some M ->
                                getParentLoop P M <> Parent.
Proof.
  induction fuel as [|fuel IH]; intros Child L; cbn [immediateChildLoop_from].
  - destruct (bool_decide_reflect (getParentLoop P Child = Parent)) as [He | Hne];
      [| discriminate].
    intros [= <-]. split; [assumption |]. exists 0. repeat split; [lia |]. intros; lia.
  - destruct (bool_decide_reflect (getParentLoop P Child = Parent)) as [He | Hne].
    + intros [= <-]. split; [assumption |]. exists 0. repeat split; [lia |]. intros; lia.
    + destruct (getParentLoop P Child) as [up |] eqn:Hup; [| discriminate].
      intros H. apply IH in H as (Hp & n & Hn & Ha & Hmin). split; [assumption |].
      exists (S n). split; [lia |]. split; [cbn; now rewrite Hup |].
      intros [|m] M Hm.
      * cbn. intros [= <-]. now rewrite Hup.
      * cbn. rewrite Hup. apply Hmin. lia.
Qed.

Lemma immediateChildLoop_from_complete (P : Program) (Parent : option Loop) (n : nat) :
  forall fuel Child L,
    n <= fuel -> ancestorLoop P n Child = Some L -> getParentLoop P L = Parent ->
    exists L', immediateChildLoop_from P fuel Parent Child = Some L'.
Proof.
  induction n as [|n IH]; intros fuel Child L Hn; cbn [ancestorLoop].
  - intros [= <-] Hp. destruct fuel; cbn; rewrite bool_decide_true by assumption; eauto.
  - destruct fuel as [|fuel]; [lia |]. cbn [immediateChildLoop_from].
    destruct (bool_decide (getParentLoop P Child = Parent)); [eauto |].
    destruct (getParentLoop P Child) as [up |]; [| discriminate].
    intros Ha Hp. apply (IH fuel up L); [lia | assumption | assumption].
Qed.

(** X6. [immediateChildLoop(Parent, Child)] climbs from [Child] to the
    first loop on its parent chain whose parent is [Parent]: the loop
    returned is a child of [Parent], it is [Child] or one of its
    ancestors, and no loop below it on the chain is a child of [Parent];
    one is returned whenever the chain reaches a child of [Parent]. *)
Theorem immediateChildLoop_climbs (P : Program) (Parent : option Loop) (Child : Loop) :
  (forall L, immediateChildLoop P Parent Child = Some L ->
             getParentLoop P L = Parent
             /\ exists n, ancestorLoop P n Child = Some L
                          /\ forall m M, m < n -> ancestorLoop P m Child = Some M ->
                                         getParentLoop P M <> Parent)
  /\ (forall n L, n <= length (fblocks P) -> ancestorLoop P n Child = Some L ->
                  getParentLoop P L = Parent ->
                  exists L', immediateChildLoop P Parent Child = Some L').
Proof.
  unfold immediateChildLoop. split.
  - intros L H. apply immediateChildLoop_from_sound in H as (Hp & n & _ & Ha & Hmin).
    split; [assumption |]. exists n. now split.
  - intros n L Hn Ha Hp. now apply (immediateChildLoop_from_complete P Parent n _ _ L).
Qed.

(** In [nestedProgram] the child of the function towards loop 1 is
    loop 0. *)
Lemma immediateChildLoop_climbs_witness :
  exists L, immediateChildLoop nestedProgram None 1 = Some L
            /\ getParentLoop nestedProgram L = None.
Proof.
  destruct (immediateChildLoop_climbs nestedProgram None 1) as [Hsound Hcomplete].
  destruct (Hcomplete 1 0) as [L HL]; [cbn; lia | reflexivity | reflexivity |].
  exists L. split; [exact HL |]. now destruct (Hsound L HL).
Defined.

Section LoopEntry.

Context (P : Program) (A : Attempt) (O : Oracle).

Lemma killExitEdges_exits (L : Loop) (l : list (Block * Block)) :
  forall st,
    let st' :=
      fold_left
        (fun st it =>
           let edgeScope := getEdgeScope O (fst it) (snd it) in
           let st :=
             if bool_decide (edgeScope = getLoopContext A)
                || bool_decide (edgeScope = Some L)
             then set_deadEdges ({[ it ]} ∪ deadEdges st) st
             else st in
           request (pass_queueCheckBlock (self A) (snd it)) st) l st in
    deadEdges st ⊆ deadEdges st'
    /\ (forall r, r ∈ requests st -> r ∈ requests st')
    /\ forall e, e ∈ l ->
         pass_queueCheckBlock (self A) (snd e) ∈ requests st'
         /\ (getEdgeScope O (fst e) (snd e) = getLoopContext A
             \/ getEdgeScope O (fst e) (snd e) = Some L ->
             e ∈ deadEdges st').
Proof.
  induction l as [|it l IH]; intros st; cbn [fold_left]; cbv zeta.
  - split; [reflexivity |]. split; [tauto |]. intros e He. now apply elem_of_nil in He.
  - set (st1 := request _ _).
    assert (HE : deadEdges st ⊆ deadEdges st1).
    { unfold st1. cbn. destruct (_ || _); cbn; [apply union_subseteq_r | reflexivity]. }
    assert (HR : forall r, r ∈ requests st -> r ∈ requests st1).
    { intros r Hr. unfold st1. cbn. apply elem_of_app. left.
      destruct (_ || _); exact Hr. }
    destruct (IH st1) as (H1 & H2 & H3). cbv zeta in H1, H2, H3.
    split; [etrans; eassumption |]. split; [auto |].
    intros e He. apply elem_of_cons in He as [-> | He]; [| now apply H3].
    split.
    + apply H2. unfold st1. cbn. apply elem_of_app. right. apply list_elem_of_here.
    + intros Hsc. apply H1. unfold st1. cbn.
      destruct (bool_decide_reflect (getEdgeScope O (fst it) (snd it) = getLoopContext A));
        destruct (bool_decide_reflect (getEdgeScope O (fst it) (snd it) = Some L));
        cbn; try (apply elem_of_union_l, elem_of_singleton; reflexivity).
      tauto.
Qed.

(** X7. A loop that is never entered.  When the edge from the preheader
    to the header of a loop is examined, no peel attempt comes into being
    for the loop and the edge is dead, every exit edge of the loop whose
    scope is the context's own loop or the loop itself is marked dead, and
    the target of every exit edge is queued for [checkBlock]; the edge
    counts as special, so the header itself is not queued.  An edge into a
    block outside every loop is not special and changes nothing. *)
Theorem dead_loop_exit_edges (st : IAState) (FromBB ToBB : Block) (L : Loop) :
  getLoopFor P ToBB = Some L ->
  ToBB = getHeader P L -> FromBB = getLoopPreheader P L ->
  getOrCreatePeelAttempt_ok O (queueCFGBlockedOpens st) L = false ->
  edgeIsDead O (request (call_getOrCreatePeelAttempt L) (queueCFGBlockedOpens st))
    FromBB ToBB = true ->
  let r := IntegrationAttempt_checkLoopSpecialEdge P A O st FromBB ToBB in
  snd r = true
  /\ onlyAddsDeadEdges st (fst r)
  /\ (forall e, e ∈ getExitEdges P L ->
        pass_queueCheckBlock (self A) (snd e) ∈ requests (fst r)
        /\ (getEdgeScope O (fst e) (snd e) = getLoopContext A
            \/ getEdgeScope O (fst e) (snd e) = Some L ->
            e ∈ deadEdges (fst r)))
  /\ (forall B, getLoopFor P B = None ->
        IntegrationAttempt_checkLoopSpecialEdge P A O st FromBB B = (st, false)).
Proof.
  intros HL Hh Hp Hnew Hdead r.
  assert (Hr : r = (killExitEdges P A O L
                      (request (call_getOrCreatePeelAttempt L) (queueCFGBlockedOpens st)),
                    true)).
  { unfold r, IntegrationAttempt_checkLoopSpecialEdge. rewrite HL.
    rewrite !bool_decide_true by assumption. cbn [andb]. cbv zeta.
    now rewrite Hnew, Hdead. }
  split; [now rewrite Hr |]. split; [| split].
  - apply (onlyAddsDeadEdges_IntegrationAttempt_checkLoopSpecialEdge P A O st FromBB ToBB).
  - rewrite Hr. cbn [fst]. unfold killExitEdges.
    apply (killExitEdges_exits L (getExitEdges P L)).
  - intros B HB. unfold IntegrationAttempt_checkLoopSpecialEdge. now rewrite HB.
Qed.

End LoopEntry.

(** With the preheader edge of [loopProgram] dead and no peel attempt,
    the exit edge of the loop dies and its target is queued. *)
Lemma dead_loop_exit_edges_witness :
  let r := IntegrationAttempt_checkLoopSpecialEdge loopProgram rootAttempt localOracle
             (setEdgeDead 0 1 initialState) 0 1 in
  snd r = true
  /\ (1, 3) ∈ deadEdges (fst r)
  /\ pass_queueCheckBlock 0 3 ∈ requests (fst r).
Proof.
  destruct (dead_loop_exit_edges loopProgram rootAttempt localOracle
              (setEdgeDead 0 1 initialState) 0 1 0 eq_refl eq_refl eq_refl eq_refl)
    as (H1 & _ & H2 & _); [vm_compute; reflexivity |].
  destruct (H2 (1, 3)) as [H3 H4]; [cbn; apply list_elem_of_here |].
  split; [exact H1 |]. split; [apply H4; now left | exact H3].
Defined.

Section PHIUnimproved.

Context (P : Program) (A : Attempt) (O : Oracle) (st : IAState) (PN : Value).

Lemma scanPredecessors_dead (l : list Block) (onlyValue : ValCtx) :
  (forall PI, PI ∈ l -> edgeIsDead O st PI (getParent P PN) = true) ->
  scanPredecessors P A O st PN (getParent P PN) l onlyValue = onlyValue.
Proof.
  induction l as [|PI l IH]; intros H; cbn [scanPredecessors]; [reflexivity |].
  rewrite (H PI) by apply list_elem_of_here.
  apply IH. intros PI' Hin. apply H. now apply list_elem_of_further.
Qed.

(** X8. Where a PHI stays as it is.  A PHI that is not a loop header
    PHI of its context is not improved when all of its incoming edges are
    dead, and not when the value on which its live edges agree may not be
    forwarded (it is no constant, its pointer base is not an identified
    object, and it is no forwardable open call); [tryEvaluate] then
    returns the state unchanged. *)
Theorem phi_stays_unimproved :
  getLoopHeaderPHIValue P A O PN = None ->
  hasOpcode P PHI PN = true ->
  let BB := getParent P PN in
  ((forall PI, PI ∈ preds P BB -> edgeIsDead O st PI BB = true) ->
   getPHINodeValue P A O st PN = VCNull /\ tryEvaluate P A O st PN = st)
  /\ (forall K,
        K <> VCNull ->
        (exists PI, PI ∈ preds P BB /\ edgeIsDead O st PI BB = false) ->
        (forall PI, PI ∈ preds P BB -> edgeIsDead O st PI BB = false ->
                    predValueOnEdge P A O st PN PI = Some K) ->
        shouldForwardValue P O K = false ->
        getPHINodeValue P A O st PN = VCNull /\ tryEvaluate P A O st PN = st).
Proof.
  intros Hhdr HPHI BB.
  assert (Hskip : getPHINodeValue P A O st PN = VCNull -> tryEvaluate P A O st PN = st).
  { intros Hn. rewrite (tryEvaluate_PHI P O A st PN HPHI), Hn.
    now destruct (shouldTryEvaluate P A st PN). }
  split.
  - intros Hdead.
    assert (Hn : getPHINodeValue P A O st PN = VCNull).
    { unfold getPHINodeValue. rewrite Hhdr. unfold BB in *.
      now rewrite scanPredecessors_dead. }
    split; [exact Hn | now apply Hskip].
  - intros K HK Hlive Hall Hfw.
    assert (Hn : getPHINodeValue P A O st PN = VCNull).
    { unfold getPHINodeValue. rewrite Hhdr. unfold BB in *.
      rewrite (scanPredecessors_agree P A O st PN K _ HK Hall VCNull);
        [| now left | now right].
      unfold forwardOrNull. rewrite Hfw. now rewrite andb_false_r. }
    split; [exact Hn | now apply Hskip].
Qed.

End PHIUnimproved.

(** With both edges into the join block of [mergeProgram] dead, the PHI
    [%x] is not improved. *)
Lemma phi_stays_unimproved_witness :
  getPHINodeValue mergeProgram rootAttempt localOracle joinCutOff (Instruction 5) = VCNull
  /\ tryEvaluate mergeProgram rootAttempt localOracle joinCutOff (Instruction 5)
     = joinCutOff.
Proof.
  destruct (phi_stays_unimproved mergeProgram rootAttempt localOracle joinCutOff
              (Instruction 5) eq_refl eq_refl) as [H _].
  apply H. intros PI Hin. cbn in Hin.
  apply elem_of_cons in Hin as [-> | Hin]; [vm_compute; reflexivity |].
  apply list_elem_of_singleton in Hin. subst PI. vm_compute. reflexivity.
Defined.

Section IterationEdges.

Context (P : Program) (A : Attempt) (O : Oracle).

(** X9. The edges on which a peel iteration ends.  For the latch edge to
    the header and for every edge that leaves the loop, an iteration does
    not queue the target block in its own context: while its status is
    unknown it asks for the next iteration, and for the final-iteration
    check if the status is still unknown after that; it then hands on the
    open pushes blocked on the control flow.  No table of liveness,
    improvement or deadness changes (what the two members asked for do to
    the status of the iteration apart). *)
Theorem iteration_end_edges (L : Loop) (iterationCount : nat) (parent : Ctx)
  (parentPA : list Ctx) (st : IAState) (FromBB ToBB : Block) :
  kind A = PeelIteration L iterationCount parent parentPA ->
  (FromBB = getLoopLatch P L /\ ToBB = getHeader P L) \/ containsBlock P L ToBB = false ->
  let st' := checkLocalEdge P A O st FromBB ToBB in
  let asked :=
    if bool_decide (iterStatus st = IterationStatusUnknown) then
      call_getOrCreateNextIteration
      :: (if bool_decide (statusAfterNextIteration O st
                          = IterationStatusUnknown)
          then [call_checkFinalIteration] else [])
    else [] in
  requests st'
  = requests st ++ asked
    ++ map (fun OI => pass_queueOpenPush (fst OI) (snd OI)) (CFGBlockedOpens st)
  /\ CFGBlockedOpens st' = []
  /\ deadBlocks st' = deadBlocks st /\ certainBlocks st' = certainBlocks st
  /\ deadEdges st' = deadEdges st /\ improvedValues st' = improvedValues st
  /\ deadValues st' = deadValues st.
Proof.
  intros Hk Hspecial st' asked.
  assert (Hb : (bool_decide (FromBB = getLoopLatch P L) && bool_decide (ToBB = getHeader P L))
               || negb (containsBlock P L ToBB) = true).
  { destruct Hspecial as [[-> ->] | ->]; [| apply orb_true_r].
    now rewrite !bool_decide_true by reflexivity. }
  assert (Hfold : forall (l : list (ValCtx * ValCtx)) (s : IAState),
             let s' := fold_left
                         (fun st OI => request (pass_queueOpenPush (fst OI) (snd OI)) st) l s in
             requests s' = requests s ++ map (fun OI => pass_queueOpenPush (fst OI) (snd OI)) l
             /\ iterStatus s' = iterStatus s
             /\ deadBlocks s' = deadBlocks s /\ certainBlocks s' = certainBlocks s
             /\ deadEdges s' = deadEdges s /\ improvedValues s' = improvedValues s
             /\ deadValues s' = deadValues s).
  { induction l as [|x l IH]; intros s; cbn [fold_left map].
    - rewrite app_nil_r. repeat split; reflexivity.
    - destruct (IH (request (pass_queueOpenPush (fst x) (snd x)) s))
        as (-> & -> & -> & -> & -> & -> & ->).
      cbn. rewrite <- app_assoc. repeat split; reflexivity. }
  unfold st', checkLocalEdge, checkLoopSpecialEdge. rewrite Hk.
  unfold PeelIteration_checkLoopSpecialEdge. cbv zeta. rewrite Hb. cbn [snd fst].
  rewrite andb_true_r. unfold queueCFGBlockedOpens, asked.
  destruct (bool_decide (iterStatus st = IterationStatusUnknown)).
  - cbn [iterStatus set_iterStatus].
    destruct (bool_decide (statusAfterNextIteration O st
                           = IterationStatusUnknown)).
    + match goal with
      | |- context [fold_left ?f ?l ?s] =>
          destruct (Hfold l s) as (Hr & Hs & HD & HC & HE & HI & HV)
      end.
      cbv zeta in *. cbn [clear_CFGBlockedOpens requests CFGBlockedOpens iterStatus
                            deadBlocks certainBlocks deadEdges improvedValues deadValues].
      rewrite Hr, HD, HC, HE, HI, HV. cbn. rewrite <- ?app_assoc.
      repeat split; reflexivity.
    + match goal with
      | |- context [fold_left ?f ?l ?s] =>
          destruct (Hfold l s) as (Hr & Hs & HD & HC & HE & HI & HV)
      end.
      cbv zeta in *. cbn [clear_CFGBlockedOpens requests CFGBlockedOpens iterStatus
                            deadBlocks certainBlocks deadEdges improvedValues deadValues].
      rewrite Hr, HD, HC, HE, HI, HV. cbn. rewrite <- ?app_assoc.
      repeat split; reflexivity.
  - destruct (Hfold (CFGBlockedOpens st) st) as (Hr & Hs & HD & HC & HE & HI & HV).
    cbv zeta in *. cbn [clear_CFGBlockedOpens requests CFGBlockedOpens iterStatus
                          deadBlocks certainBlocks deadEdges improvedValues deadValues].
    rewrite Hr, HD, HC, HE, HI, HV. repeat split; reflexivity.
Qed.

End IterationEdges.

(** The latch edge of [loopProgram] in iteration 1: the next iteration
    and the final-iteration check are asked for, and block 1 is not
    queued. *)
Lemma iteration_end_edges_witness :
  requests (checkLocalEdge loopProgram secondIteration peelOracle initialState 2 1)
  = [call_getOrCreateNextIteration; call_checkFinalIteration].
Proof.
  destruct (iteration_end_edges loopProgram secondIteration peelOracle 0 1 0 [10; 11]
              initialState 2 1 eq_refl) as [H _]; [left; split; reflexivity |].
  exact H.
Defined.

Section OperandFacts.

Context (P : Program) (A : Attempt) (O : Oracle) (U : UseInfo).

(** X10. Dead-instruction elimination follows a loop header PHI the way
    evaluation reads it: in iteration [n] of a peel attempt, the only
    operand walked from a header PHI is the value on the preheader edge in
    the parent context for [n = 0], and the value on the latch edge in
    iteration [n - 1] otherwise, which is the pair whose replacement
    [getLoopHeaderPHIValue] returns. *)
Theorem header_phi_operands (L : Loop) (iterationCount : nat) (parent : Ctx)
  (parentPA : list Ctx) (PN : Value) :
  kind A = PeelIteration L iterationCount parent parentPA ->
  hasOpcode P PHI PN = true ->
  getParent P PN = getHeader P L ->
  getValueScope O PN = Some L ->
  NoDup parentPA ->
  parentPA !! iterationCount = Some (self A) ->
  exists C V,
    walkOperands P A O U PN = [(C, V)]
    /\ getLoopHeaderPHIValue P A O PN = Some (getReplacementAt O C V)
    /\ (iterationCount = 0 ->
        C = parent /\ V = getIncomingValueForBlock P PN (getLoopPreheader P L))
    /\ (0 < iterationCount ->
        parentPA !! (iterationCount - 1) = Some C
        /\ V = getIncomingValueForBlock P PN (getLoopLatch P L)).
Proof.
  intros Hk HPHI Hhdr Hscope Hnd Hself.
  assert (HI : isInstruction PN = true)
    by (unfold hasOpcode in HPHI; now destruct (isInstruction PN)).
  unfold walkOperands, IntegrationAttempt_walkOperands, walkHeaderPHIOperands,
    getLoopHeaderPHIValue, getLoopContext.
  rewrite Hk, HI, HPHI, Hscope. rewrite bool_decide_true by reflexivity.
  unfold PeelIteration_walkHeaderPHIOperands, PeelIteration_getLoopHeaderPHIValue.
  rewrite !bool_decide_true by assumption.
  destruct iterationCount as [|n].
  - rewrite !bool_decide_true by (assumption || reflexivity).
    eexists _, _. split; [reflexivity |]. split; [reflexivity |].
    split; [now split | lia].
  - rewrite (bool_decide_false (parentPA !! 0 = Some (self A))).
    2: { intros H0. pose proof (NoDup_lookup _ _ _ _ Hnd H0 Hself). discriminate. }
    rewrite (bool_decide_false (S n = 0)) by discriminate.
    destruct (list_find (fun C => C = self A) parentPA) as [[i x] |] eqn:Hfind.
    2: { apply list_find_None in Hfind. exfalso.
         rewrite Forall_forall in Hfind. apply (Hfind (self A)); [| reflexivity].
         eapply list_elem_of_lookup_2; eassumption. }
    apply list_find_Some in Hfind as (Hi & -> & _).
    pose proof (NoDup_lookup _ _ _ _ Hnd Hi Hself) as ->.
    cbn [fst]. replace (S n - 1) with n by lia.
    destruct (lookup_lt_is_Some_2 parentPA n) as [C HC].
    { apply lookup_lt_Some in Hself. lia. }
    rewrite HC. eexists _, _. split; [reflexivity |]. split; [reflexivity |].
    split; [discriminate |]. intros _. now split.
Qed.

Lemma requests_only_tables (st : IAState) (r : Request) :
  deadBlocks (request r st) = deadBlocks st
  /\ improvedValues (request r st) = improvedValues st
  /\ deadValues (request r st) = deadValues st.
Proof. repeat split. Qed.

Lemma queueDIE_requests (st : IAState) (V : Value) :
  queueDIE P A O st V
  = if shouldDIE P O V && negb (localValueIsDead P A O st V)
    then request (pass_queueDIE (self A) V) st else st.
Proof.
  unfold queueDIE. destruct (shouldDIE P O V); [| reflexivity]. cbn [negb andb].
  now destruct (localValueIsDead P A O st V).
Qed.

Lemma sameTables_refl (st : IAState) : sameTables st st.
Proof. repeat split. Qed.

Lemma sameTables_trans (st1 st2 st3 : IAState) :
  sameTables st1 st2 -> sameTables st2 st3 -> sameTables st1 st3.
Proof.
  unfold sameTables. intros (-> & -> & -> & -> & -> & -> & -> & ->) H. exact H.
Qed.

Lemma sameTables_request (r : Request) (st : IAState) : sameTables st (request r st).
Proof. repeat split. Qed.

Lemma sameTables_localValueIsDead (st st' : IAState) (V : Value) :
  sameTables st st' -> localValueIsDead P A O st' V = localValueIsDead P A O st V.
Proof.
  intros (HD & _ & _ & HI & HV & _). unfold localValueIsDead, blockIsDead, getReplacement.
  now rewrite HD, HI, HV.
Qed.

Lemma sameTables_blockIsDead (st st' : IAState) (BB : Block) :
  sameTables st st' -> blockIsDead st' BB = blockIsDead st BB.
Proof. intros (HD & _). unfold blockIsDead. now rewrite HD. Qed.

Lemma queueAllLiveValuesMatching_block (Pred : Value -> bool) (st0 : IAState)
  (l : list Value) :
  forall st,
    sameTables st0 st ->
    let st' :=
      fold_left
        (fun st I =>
           if bool_decide (getValueScope O I <> getLoopContext A) then st
           else if Pred I then queueDIE P A O st I else st) l st in
    sameTables st0 st'
    /\ requests st'
       = requests st
         ++ map (pass_queueDIE (self A))
              (List.filter
                 (fun I => bool_decide (getValueScope O I = getLoopContext A) && Pred I
                           && shouldDIE P O I && negb (localValueIsDead P A O st0 I))
                 l).
Proof.
  induction l as [|I l IH]; intros st Hst; cbn [fold_left List.filter map]; cbv zeta.
  - split; [assumption | now rewrite app_nil_r].
  - destruct (decide (getValueScope O I = getLoopContext A)) as [He | Hne].
    + rewrite bool_decide_false by tauto. rewrite bool_decide_true by assumption.
      cbn [andb]. rewrite queueDIE_requests.
      rewrite (sameTables_localValueIsDead st0 st) by assumption.
      destruct (Pred I); cbn [andb]; [| now apply IH].
      destruct (shouldDIE P O I && negb (localValueIsDead P A O st0 I)); [| now apply IH].
      destruct (IH (request (pass_queueDIE (self A) I) st)) as [H1 H2].
      { eapply sameTables_trans; [exact Hst | apply sameTables_request]. }
      split; [exact H1 |]. cbv zeta in H2. rewrite H2. cbn. now rewrite <- app_assoc.
    + rewrite bool_decide_true by assumption. rewrite bool_decide_false by assumption.
      cbn [andb]. now apply IH.
Qed.

Lemma queueAllLiveValuesMatching_requests (Pred : Value -> bool) (st : IAState) :
  sameTables st (IntegrationAttempt_queueAllLiveValuesMatching P A O Pred st)
  /\ requests (IntegrationAttempt_queueAllLiveValuesMatching P A O Pred st)
     = requests st ++ map (pass_queueDIE (self A)) (liveValuesMatching P A O Pred st).
Proof.
  unfold IntegrationAttempt_queueAllLiveValuesMatching, liveValuesMatching. cbv zeta.
  generalize (fblocks P). intros bs.
  assert (H : forall s, sameTables st s ->
            let s' := fold_left
                (fun st BB =>
                   if blockIsDead st BB then st
                   else if match getLoopContext A with
                           | Some m => negb (containsBlock P m BB)
                           | None => false
                           end
                   then st
                   else
                     fold_left
                       (fun st I =>
                          if bool_decide (getValueScope O I <> getLoopContext A) then st
                          else if Pred I then queueDIE P A O st I else st)
                       (insts P BB) st) bs s in
            sameTables st s'
            /\ requests s'
               = requests s
                 ++ map (pass_queueDIE (self A))
                      (flat_map
                         (fun BB =>
                            List.filter
                              (fun I => bool_decide (getValueScope O I = getLoopContext A)
                                        && Pred I && shouldDIE P O I
                                        && negb (localValueIsDead P A O st I))
                              (insts P BB))
                         (List.filter
                            (fun BB => negb (blockIsDead st BB)
                                       && match getLoopContext A with
                                          | Some m => containsBlock P m BB
                                          | None => true
                                          end) bs))).
  { induction bs as [|BB bs IH]; intros s Hs; cbn [fold_left List.filter flat_map map];
      cbv zeta.
    - split; [assumption | now rewrite app_nil_r].
    - rewrite (sameTables_blockIsDead st s) by assumption.
      destruct (blockIsDead st BB); cbn [negb andb]; [now apply IH |].
      destruct (getLoopContext A) as [m |] eqn:HL.
      + destruct (containsBlock P m BB); cbn [negb]; [| now apply IH].
        rewrite <- HL.
        destruct (queueAllLiveValuesMatching_block Pred st (insts P BB) s Hs) as [H1 H2].
        cbv zeta in H1, H2. cbn [flat_map]. rewrite map_app.
        destruct (IH _ H1) as [H3 H4]. cbv zeta in H3, H4. rewrite HL in *.
        split; [exact H3 |]. rewrite H4, H2. now rewrite <- app_assoc.
      + destruct (queueAllLiveValuesMatching_block Pred st (insts P BB) s Hs) as [H1 H2].
        cbv zeta in H1, H2. cbn [flat_map]. rewrite map_app. rewrite HL in *.
        destruct (IH _ H1) as [H3 H4]. cbv zeta in H3, H4.
        split; [exact H3 |]. rewrite H4, H2. now rewrite <- app_assoc. }
  apply (H st (sameTables_refl st)).
Qed.

(** No formal argument is a return instruction. *)
Lemma queueAllLiveValuesMatching_returns (st : IAState) :
  queueAllLiveValuesMatching P A O U (hasOpcode P Ret) st
  = IntegrationAttempt_queueAllLiveValuesMatching P A O (hasOpcode P Ret) st.
Proof.
  unfold queueAllLiveValuesMatching, InlineAttempt_queueAllLiveValuesMatching.
  destruct (kind A); [| reflexivity]. cbv zeta. f_equal.
  induction (seq 0 (arg_size U)) as [|i l IH]; [reflexivity |].
  cbn [map fold_left]. change (hasOpcode P Ret (Argument i)) with false.
  rewrite andb_false_r. exact IH.
Qed.

End OperandFacts.

(** In iteration 1 of [loopProgram] the operand walked from [%i] is
    [%next] of iteration 0. *)
Lemma header_phi_operands_witness :
  walkOperands loopProgram secondIteration peelOracle loopUses (Instruction 1)
  = [(10, Instruction 2)].
Proof.
  destruct (header_phi_operands loopProgram secondIteration peelOracle loopUses 0 1 0
              [10; 11] (Instruction 1) eq_refl eq_refl eq_refl eq_refl)
    as (C & V & Hw & _ & _ & Hprev).
  - apply (bool_decide_unpack _). vm_compute. exact I.
  - reflexivity.
  - destruct (Hprev ltac:(lia)) as [HC HV]. cbn in HC, HV.
    injection HC as <-. subst V. exact Hw.
Defined.

Section ReturnInsts.

Context (P : Program) (A : Attempt) (O : Oracle) (U : UseInfo).

Lemma requests_fold {X : Type} (f : X -> Request) (l : list X) :
  forall st,
    sameTables st (fold_left (fun st x => request (f x) st) l st)
    /\ requests (fold_left (fun st x => request (f x) st) l st) = requests st ++ map f l.
Proof.
  induction l as [|x l IH]; intros st; cbn [fold_left map].
  - split; [apply sameTables_refl | now rewrite app_nil_r].
  - destruct (IH (request (f x) st)) as [H1 H2]. split.
    + eapply sameTables_trans; [apply sameTables_request | exact H1].
    + rewrite H2. cbn. now rewrite <- app_assoc.
Qed.

(** X11. [queueAllReturnInsts] asks for the elimination of exactly the
    live return instructions: a request [queueDIE(this, V)] is added iff
    [V] is a return instruction of a block of the function that is not
    dead and lies in the loop of the context, [V] belongs to the scope of
    the context and is not dead there yet; every inline child and every
    iteration of every peel child is asked to do the same, and no table of
    the context changes. *)
Theorem return_insts_are_queued (inlineChildren : list (Value * Ctx))
  (peelChildren : list (Loop * PeelAttempt)) (st : IAState) :
  let st' := queueAllReturnInsts P A O U inlineChildren peelChildren st in
  sameTables st st'
  /\ (exists here below,
         requests st' = requests st ++ map (pass_queueDIE (self A)) here
                        ++ map call_queueAllReturnInsts below
         /\ (forall V, V ∈ here <->
               exists BB, BB ∈ fblocks P /\ V ∈ insts P BB
                          /\ ~ BB ∈ deadBlocks st
                          /\ match getLoopContext A with
                             | Some m => containsBlock P m BB = true
                             | None => True
                             end
                          /\ getValueScope O V = getLoopContext A
                          /\ hasOpcode P Ret V = true
                          /\ localValueIsDead P A O st V = false)
         /\ (forall C, C ∈ below <->
               C ∈ map snd inlineChildren
               \/ exists pa it, pa ∈ peelChildren /\ it ∈ Iterations (snd pa)
                                /\ C = iterCtx it)).
Proof.
  intros st'. unfold st', queueAllReturnInsts. cbv zeta.
  rewrite queueAllLiveValuesMatching_returns.
  destruct (queueAllLiveValuesMatching_requests P A O (hasOpcode P Ret) st) as [H1 H2].
  set (s1 := IntegrationAttempt_queueAllLiveValuesMatching P A O (hasOpcode P Ret) st) in *.
  destruct (requests_fold (fun c : Value * Ctx => call_queueAllReturnInsts (snd c))
              inlineChildren s1) as [H3 H4].
  set (s2 := fold_left _ inlineChildren s1) in *.
  assert (H5 : forall pcs s,
             let s' := fold_left
                 (fun st (pa : Loop * PeelAttempt) =>
                    fold_left (fun st it => request (call_queueAllReturnInsts (iterCtx it)) st)
                      (Iterations (snd pa)) st) pcs s in
             sameTables s s'
             /\ requests s'
                = requests s
                  ++ map call_queueAllReturnInsts
                       (flat_map (fun pa : Loop * PeelAttempt =>
                                    map iterCtx (Iterations (snd pa))) pcs)).
  { induction pcs as [|pa pcs IH]; intros s; cbn [fold_left flat_map map].
    - split; [apply sameTables_refl | now rewrite app_nil_r].
    - destruct (requests_fold (fun it => call_queueAllReturnInsts (iterCtx it))
                  (Iterations (snd pa)) s) as [Ha Hb].
      destruct (IH (fold_left
                      (fun st it => request (call_queueAllReturnInsts (iterCtx it)) st)
                      (Iterations (snd pa)) s)) as [Hc Hd].
      cbv zeta in Hc, Hd. split; [eapply sameTables_trans; eassumption |].
      rewrite Hd, Hb, map_app, map_map. now rewrite <- app_assoc. }
  destruct (H5 peelChildren s2) as [H6 H7]. cbv zeta in H6, H7.
  split; [eapply sameTables_trans; [exact H1 |]; eapply sameTables_trans; eassumption |].
  exists (liveValuesMatching P A O (hasOpcode P Ret) st),
    (map snd inlineChildren
       ++ flat_map (fun pa : Loop * PeelAttempt => map iterCtx (Iterations (snd pa)))
            peelChildren).
  split; [| split].
  - rewrite H7, H4, H2, map_app, map_map. now rewrite <- !app_assoc.
  - intros V. unfold liveValuesMatching. rewrite list_elem_of_In, in_flat_map. split.
    + intros (BB & HBB & HV). apply filter_In in HBB as [HBB Hlive], HV as [HV Hc].
      apply andb_true_iff in Hlive as [Hnd Hin].
      apply andb_true_iff in Hc as [Hc Hld]. apply andb_true_iff in Hc as [Hc _].
      apply andb_true_iff in Hc as [Hsc Hret].
      exists BB. repeat split.
      * now apply list_elem_of_In.
      * now apply list_elem_of_In.
      * now apply negb_true_iff, bool_decide_eq_false in Hnd.
      * destruct (getLoopContext A); [exact Hin | exact I].
      * now apply bool_decide_eq_true in Hsc.
      * exact Hret.
      * now apply negb_true_iff in Hld.
    + intros (BB & HBB & HV & Hnd & Hin & Hsc & Hret & Hld). exists BB. split.
      * apply filter_In. split; [now apply list_elem_of_In |].
        apply andb_true_iff. split.
        -- now apply negb_true_iff, bool_decide_eq_false.
        -- destruct (getLoopContext A); [exact Hin | reflexivity].
      * apply filter_In. split; [now apply list_elem_of_In |].
        rewrite Hret, Hld. rewrite bool_decide_true by assumption. cbn [andb negb].
        rewrite andb_true_r. unfold hasOpcode in Hret.
        apply andb_true_iff in Hret as [HI Hop]. apply bool_decide_eq_true in Hop.
        destruct V; try discriminate HI. cbn. now rewrite Hop.
  - intros C. rewrite elem_of_app. split; (intros [H | H]; [now left | right]).
    + apply list_elem_of_In, in_flat_map in H as (pa & Hpa & H).
      apply in_map_iff in H as (it & <- & Hit).
      exists pa, it. repeat split; now apply list_elem_of_In.
    + destruct H as (pa & it & Hpa & Hit & ->).
      apply list_elem_of_In, in_flat_map. exists pa. split; [now apply list_elem_of_In |].
      apply in_map. now apply list_elem_of_In.
Qed.

End ReturnInsts.

(** X12. [queueWorkBlockedOn(SI)] releases what waits for [SI]: the loads
    blocked on an instruction that may write to memory and the open pushes
    blocked on a call are queued in the order in which they were blocked,
    and their entries are erased, so that a second call queues nothing;
    what waits for other instructions stays. *)
Theorem blocked_on_instruction_released (P : Program) (U : UseInfo) (bw : BlockedWork)
  (SI : Value) :
  let r := queueWorkBlockedOn P U bw SI in
  snd r
  = (if mayWriteToMemory U SI
     then map (fun LI => pass_queueCheckLoad (fst LI) (snd LI))
            (default [] (InstBlockedLoads bw !! SI))
     else [])
    ++ (if hasOpcode P Call SI
        then map (fun OI => pass_queueOpenPush (fst OI) (snd OI))
               (default [] (InstBlockedOpens bw !! SI))
        else [])
  /\ InstBlockedLoads (fst r) !! SI
     = (if mayWriteToMemory U SI then None else InstBlockedLoads bw !! SI)
  /\ InstBlockedOpens (fst r) !! SI
     = (if hasOpcode P Call SI then None else InstBlockedOpens bw !! SI)
  /\ (forall X, X <> SI ->
        InstBlockedLoads (fst r) !! X = InstBlockedLoads bw !! X
        /\ InstBlockedOpens (fst r) !! X = InstBlockedOpens bw !! X)
  /\ (mayWriteToMemory U SI = true -> hasOpcode P Call SI = true ->
      queueWorkBlockedOn P U (fst r) SI = (fst r, [])).
Proof.
  cbv zeta. unfold queueWorkBlockedOn.
  destruct (mayWriteToMemory U SI), (hasOpcode P Call SI);
    destruct (InstBlockedLoads bw !! SI) as [bl |] eqn:Hl;
    destruct (InstBlockedOpens bw !! SI) as [bo |] eqn:Ho;
    cbn [fst snd InstBlockedLoads InstBlockedOpens default map app];
    rewrite ?Hl, ?Ho;
    cbn [fst snd InstBlockedLoads InstBlockedOpens default map app];
    rewrite ?lookup_delete_eq, ?app_nil_r, ?Hl, ?Ho.
  all: split; [reflexivity |]; split; [reflexivity |]; split; [reflexivity |].
  all: split; [intros X HX; rewrite ?lookup_delete_ne by congruence; now split |].
  all: try (intros H; discriminate H); try (intros _ H; discriminate H).
  all: intros _ _; cbn [fst snd InstBlockedLoads InstBlockedOpens];
    rewrite ?lookup_delete_eq, ?Hl, ?Ho;
    cbn [fst snd InstBlockedLoads InstBlockedOpens]; rewrite ?lookup_delete_eq, ?Ho;
    try reflexivity.
  all: destruct bw; reflexivity.
Qed.

(** The load that waits for the call of [callProgram] is queued once. *)
Lemma blocked_on_instruction_released_witness :
  let r := queueWorkBlockedOn callProgram callUses waitingForCall (Instruction 0) in
  snd r = [pass_queueCheckLoad 0 (Instruction 5)]
  /\ queueWorkBlockedOn callProgram callUses (fst r) (Instruction 0) = (fst r, []).
Proof.
  destruct (blocked_on_instruction_released callProgram callUses waitingForCall
              (Instruction 0)) as (H1 & _ & _ & _ & H2).
  split; [etrans; [exact H1 | vm_compute; reflexivity] |].
  apply H2; reflexivity.
Defined.

Section UsersFacts.

Context (P : Program) (A : Attempt) (O : Oracle) (U : UseInfo) (E : Surroundings)
  (st : IAState).

Lemma argumentMaybeLive_orb (IA : Ctx) (V : Value) (ops : list Value) :
  forall i maybeLive,
    argumentMaybeLive P A O E st IA V i ops maybeLive
    = maybeLive || argumentMaybeLive P A O E st IA V i ops false.
Proof.
  induction ops as [|op ops IH]; intros i maybeLive; cbn [argumentMaybeLive].
  - now rewrite orb_false_r.
  - destruct (_ && _); [now rewrite orb_true_r | apply IH].
Qed.

Lemma argumentMaybeLive_false (IA : Ctx) (V : Value) (ops : list Value) :
  forall i,
    argumentMaybeLive P A O E st IA V i ops false = false
    <-> forall j op, ops !! j = Some op -> op = V ->
                     localValueIsDeadIn P A O E st IA (Argument (i + j)) = true.
Proof.
  induction ops as [|op ops IH]; intros i; cbn [argumentMaybeLive].
  - split; [| reflexivity]. intros _ j op Hj. discriminate Hj.
  - destruct (bool_decide_reflect (op = V)) as [-> | Hne]; cbn [andb].
    + destruct (localValueIsDeadIn P A O E st IA (Argument i)) eqn:Hd; cbn [negb].
      * rewrite IH. split; intros H j op Hj Hop.
        -- destruct j as [|j]; [now rewrite Nat.add_0_r |].
           replace (i + S j) with (S i + j) by lia. now apply (H j op).
        -- replace (S i + j) with (i + S j) by lia. now apply (H (S j) op).
      * split; [discriminate |]. intros H. specialize (H 0 V eq_refl eq_refl).
        rewrite Nat.add_0_r, Hd in H. discriminate.
    + rewrite IH. split; intros H j op' Hj Hop.
      * destruct j as [|j]; [cbn in Hj; congruence |].
        replace (i + S j) with (S i + j) by lia. now apply (H j op').
      * replace (S i + j) with (i + S j) by lia. now apply (H (S j) op').
Qed.

Lemma tell_DIVisitor (V : Value) (maybeLive : bool) (e : VisitEvent) :
  tell (DIVisitor P A O U E st V) maybeLive e = maybeLive || keepsAlive P A O U E st V e.
Proof.
  destruct e as [C UserI |]; cbn [tell DIVisitor visit notifyUsersMissed keepsAlive];
    [| now rewrite orb_true_r].
  destruct (localValueIsDeadIn P A O E st C UserI); cbn [negb andb];
    [now rewrite orb_false_r |].
  destruct (hasOpcode P Call UserI); [| now rewrite orb_true_r].
  destruct (getInlineAttemptIn A O E C UserI) as [IA |]; [| now rewrite orb_true_r].
  destruct (bool_decide (V = getCalledValue U UserI)); cbn [orb];
    [now rewrite orb_true_r |].
  apply argumentMaybeLive_orb.
Qed.

Lemma told_DIVisitor (V : Value) (evs : list VisitEvent) :
  forall maybeLive,
    fold_left (tell (DIVisitor P A O U E st V)) evs maybeLive
    = maybeLive || existsb (keepsAlive P A O U E st V) evs.
Proof.
  induction evs as [|e evs IH]; intros maybeLive; cbn [fold_left existsb].
  - now rewrite orb_false_r.
  - rewrite IH, tell_DIVisitor. now rewrite orb_assoc.
Qed.

Lemma visitUsers_from_DIVisitor (V : Value) (us : list Value) :
  forall maybeLive,
    visitUsers_from P A O E st (DIVisitor P A O U E st V) us maybeLive
    = maybeLive
      || existsb (fun UI => existsb (keepsAlive P A O U E st V) (visitUser P A O E st UI)) us.
Proof.
  induction us as [|UI us IH]; intros maybeLive; cbn [visitUsers_from existsb].
  - now rewrite orb_false_r.
  - cbn [shouldContinue DIVisitor]. destruct maybeLive; cbn [negb orb]; [reflexivity |].
    rewrite IH, told_DIVisitor. reflexivity.
Qed.

Lemma keepsAlive_false (V : Value) (e : VisitEvent) :
  keepsAlive P A O U E st V e = false <-> deadUse P A O U E st V e.
Proof.
  destruct e as [C UserI |]; cbn [keepsAlive deadUse]; [| split; [discriminate | tauto]].
  destruct (localValueIsDeadIn P A O E st C UserI); cbn [negb andb].
  { split; [now left | reflexivity]. }
  destruct (hasOpcode P Call UserI).
  2: { split; [discriminate |]. intros [H | (H & _)]; discriminate H. }
  destruct (getInlineAttemptIn A O E C UserI) as [IA |].
  2: { split; [discriminate |]. intros [H | (_ & IA & H & _)]; discriminate H. }
  rewrite orb_false_iff, bool_decide_eq_false, argumentMaybeLive_false. split.
  - intros [H1 H2]. right. split; [reflexivity |]. exists IA. now repeat split.
  - intros [H | (_ & IA' & [= <-] & H1 & H2)]; [discriminate H |]. now split.
Qed.

Lemma valueIsDead_uses (V : Value) :
  hasOpcode P Ret V = false ->
  (IntegrationAttempt_valueIsDead P A O U E st V = true
   <-> forall UI e, UI ∈ users U V -> e ∈ visitUser P A O E st UI ->
                    deadUse P A O U E st V e).
Proof.
  intros HR. unfold IntegrationAttempt_valueIsDead, visitUsers. rewrite HR.
  rewrite visitUsers_from_DIVisitor. cbn [orb]. rewrite negb_true_iff. split.
  - intros H UI e HUI He. apply keepsAlive_false.
    apply not_true_iff_false. intros Hk. apply not_true_iff_false in H. apply H.
    apply existsb_exists. exists UI. split; [now apply list_elem_of_In |].
    apply existsb_exists. exists e. split; [now apply list_elem_of_In | assumption].
  - intros H. apply not_true_iff_false. intros Hx.
    apply existsb_exists in Hx as (UI & HUI & Hx).
    apply existsb_exists in Hx as (e & He & Hk).
    apply list_elem_of_In in HUI, He.
    apply (H UI e HUI) in He. apply keepsAlive_false in He. congruence.
Qed.

End UsersFacts.

(** X13. What [valueIsDead] decides.  For a value that is not a return
    instruction, [valueIsDead] holds iff everything that [visitUsers]
    tells the visitor is a dead use: the visitor is never told that users
    were missed (as it is for a user in a child loop without peel attempt
    and for a header PHI whose next iteration does not exist), and every
    user visited is dead in the context where it is visited, or is a call
    with an inline attempt that does not call the value and whose formal
    arguments receiving it are dead.  With this [valueIsDead],
    [tryKillValue] records a value as dead only then, and never an
    instruction that may have side effects. *)
Theorem value_dead_iff_uses_dead (P : Program) (A : Attempt) (O : Oracle) (U : UseInfo)
  (E : Surroundings) (st : IAState) (V : Value) :
  hasOpcode P Ret V = false ->
  let everyUseDead :=
    forall UI e, UI ∈ users U V -> e ∈ visitUser P A O E st UI ->
                 deadUse P A O U E st V e in
  (IntegrationAttempt_valueIsDead P A O U E st V = true <-> everyUseDead)
  /\ (~ V ∈ deadValues st ->
      V ∈ deadValues
            (tryKillValue P
               (withValueIsDead (fun st V => IntegrationAttempt_valueIsDead P A O U E st V) O)
               st V) ->
      everyUseDead /\ isInstruction V && mayHaveSideEffects P V = false).
Proof.
  intros HR everyUseDead. split; [unfold everyUseDead; now apply valueIsDead_uses |].
  intros Hnot. unfold tryKillValue. rewrite bool_decide_false by assumption.
  cbn [valueIsDead withValueIsDead getInlineAttempt].
  destruct (isInstruction V && mayHaveSideEffects P V).
  - destruct (hasOpcode P Call V); [| contradiction].
    destruct (IntegrationAttempt_valueIsDead P A O U E st V); [| contradiction].
    destruct (getInlineAttempt O V); cbn; contradiction.
  - destruct (IntegrationAttempt_valueIsDead P A O U E st V) eqn:Hd; [| contradiction].
    intros _. split; [| reflexivity].
    unfold everyUseDead. now apply (valueIsDead_uses P A O U E st V HR).
Qed.

(** In [branchProgram] with block 2 dead, the only user of [%x], the
    return of block 2, is dead, so [%x] is dead. *)
Lemma value_dead_iff_uses_dead_witness :
  IntegrationAttempt_valueIsDead branchProgram rootAttempt localOracle branchUses
    noSurroundings otherBlockDead (Instruction 1)
  = true.
Proof.
  apply (value_dead_iff_uses_dead branchProgram rootAttempt localOracle branchUses
           noSurroundings otherBlockDead (Instruction 1) eq_refl).
  intros UI e HUI He. cbn in HUI. apply list_elem_of_singleton in HUI. subst UI.
  cbn in He. apply list_elem_of_singleton in He. subst e.
  left. vm_compute. reflexivity.
Defined.

(** X14. The backward walker never looks at the first instruction of a
    block: [walkFromInst] decrements the cursor before it compares it with
    [begin()], so whatever stands first in the block, the walk from any
    cursor gives the same result; in particular from the cursor 1 nothing
    is walked at all. *)
Theorem backward_walk_skips_first {S : Type} (W : WalkerClass S) (F : Program)
  (x y : Value) (l : list Value) (C : Ctx) (k : nat) (s : S) :
  BackwardIAWalker_walkFromInst W F (x :: l) C k s
  = BackwardIAWalker_walkFromInst W F (y :: l) C k s
  /\ BackwardIAWalker_walkFromInst W F (x :: l) C 1 s = (s, WIRContinue, None).
Proof.
  split; [| reflexivity].
  revert s. induction k as [|k IH]; intros s; cbn [BackwardIAWalker_walkFromInst];
    [reflexivity |].
  destruct (bool_decide_reflect (k = 0)) as [-> | Hk]; [reflexivity |].
  destruct k as [|k]; [congruence |]. cbn [lookup list_lookup].
  change ((x :: l) !! Datatypes.S k) with (l !! k).
  change ((y :: l) !! Datatypes.S k) with (l !! k).
  destruct (l !! k) as [Ins |]; [| reflexivity].
  destruct (snd (walkInstruction W s Ins C)); try reflexivity.
  destruct (hasOpcode F Call Ins); [| apply IH].
  destruct (negb _); [apply IH | reflexivity].
Qed.

Lemma cong64_refl a : cong64 a a.
Proof. exists 0%Z. lia. Qed.

Lemma cong64_trans a b c : cong64 a b -> cong64 b c -> cong64 a c.
Proof. intros [k ->] [k' ->]. exists (k + k')%Z. lia. Qed.

Lemma cong64_int64 z : cong64 (int64 z) z.
Proof.
  unfold int64. exists (- ((z + 2 ^ 63) / 2 ^ 64))%Z.
  pose proof (Z.div_mod (z + 2 ^ 63) (2 ^ 64) ltac:(lia)). lia.
Qed.

Lemma cong64_mod a b : cong64 a b -> (a mod 2 ^ 64 = b mod 2 ^ 64)%Z.
Proof. intros [k ->]. apply Z_mod_plus_full. Qed.

Lemma int64_range z : (- 2 ^ 63 <= int64 z < 2 ^ 63)%Z.
Proof. unfold int64. pose proof (Z.mod_pos_bound (z + 2 ^ 63) (2 ^ 64) ltac:(lia)). lia. Qed.

Lemma int64_small z : (- 2 ^ 63 <= z < 2 ^ 63)%Z -> int64 z = z.
Proof. intros H. unfold int64. rewrite Z.mod_small by lia. lia. Qed.

Lemma int64_zero z : (- 2 ^ 64 < z < 2 ^ 64)%Z -> int64 z = 0%Z -> z = 0%Z.
Proof.
  intros H H0. destruct (cong64_int64 z) as [k Hk]. rewrite H0 in Hk. nia.
Qed.

Section IndexDifference.

Context (rho : ValCtx -> ExtensionKind -> Z).

Lemma indexOffset_cons (d : VariableGEPIndex) (l : list VariableGEPIndex) :
  indexOffset rho (d :: l)
  = (Scale d * rho (VC d) (Extension d) + indexOffset rho l)%Z.
Proof. reflexivity. Qed.

Lemma subtractScale_offset (Dest : list VariableGEPIndex) (V : ValCtx) (E : ExtensionKind)
  (S_ : Z) (r : list VariableGEPIndex) :
  subtractScale Dest V E S_ = Some r ->
  cong64 (indexOffset rho r) (indexOffset rho Dest - S_ * rho V E).
Proof.
  revert r. induction Dest as [|d Dest IH]; intros r; cbn [subtractScale]; [discriminate |].
  destruct (decide (VC d = V)) as [HV | HV];
    [destruct (decide (Extension d = E)) as [HE | HE] |].
  - rewrite (bool_decide_false (VC d <> V)), (bool_decide_false (Extension d <> E))
      by tauto. cbn [orb].
    destruct (decide (Scale d = S_)) as [HS | HS].
    + rewrite bool_decide_false by tauto. intros [= <-]. subst. rewrite indexOffset_cons.
      exists 0%Z. lia.
    + rewrite bool_decide_true by assumption. intros [= <-]. subst.
      rewrite !indexOffset_cons. cbn [VC Extension Scale].
      destruct (cong64_int64 (Scale d - S_)) as [k ->]. exists (k * rho (VC d) (Extension d))%Z.
      lia.
  - rewrite (bool_decide_true (Extension d <> E)) by assumption. rewrite orb_true_r.
    destruct (subtractScale Dest V E S_) as [r' |]; [| discriminate].
    intros [= <-]. destruct (IH r' eq_refl) as [k Hk]. rewrite !indexOffset_cons.
    exists k. lia.
  - rewrite (bool_decide_true (VC d <> V)) by assumption. cbn [orb].
    destruct (subtractScale Dest V E S_) as [r' |]; [| discriminate].
    intros [= <-]. destruct (IH r' eq_refl) as [k Hk]. rewrite !indexOffset_cons.
    exists k. lia.
Qed.

Lemma indexOffset_app (l1 l2 : list VariableGEPIndex) :
  indexOffset rho (l1 ++ l2) = (indexOffset rho l1 + indexOffset rho l2)%Z.
Proof.
  induction l1 as [|d l1 IH]; [reflexivity |].
  rewrite <- app_comm_cons, !indexOffset_cons. lia.
Qed.

Lemma GetIndexDifference_offset (Src : list VariableGEPIndex) :
  forall Dest,
    cong64 (indexOffset rho (GetIndexDifference Dest Src))
      (indexOffset rho Dest - indexOffset rho Src).
Proof.
  induction Src as [|s Src IH]; intros Dest.
  - exists 0%Z. change (GetIndexDifference Dest []) with Dest.
    change (indexOffset rho []) with 0%Z. lia.
  - unfold GetIndexDifference in *. cbn [fold_left]. eapply cong64_trans; [apply IH |].
    rewrite indexOffset_cons.
    destruct (subtractScale Dest (VC s) (Extension s) (Scale s)) as [r |] eqn:Hs.
    + destruct (subtractScale_offset _ _ _ _ _ Hs) as [k Hk]. exists k. lia.
    + destruct (decide (Scale s = 0%Z)) as [H0 | H0].
      * rewrite bool_decide_false by tauto. rewrite H0. exists 0%Z. lia.
      * rewrite bool_decide_true by assumption. rewrite indexOffset_app, indexOffset_cons.
        cbn [VC Extension Scale]. change (indexOffset rho []) with 0%Z.
        destruct (cong64_int64 (- Scale s)) as [k ->].
        exists (k * rho (VC s) (Extension s))%Z. lia.
Qed.

End IndexDifference.

Lemma subtractScale_keys (Dest : list VariableGEPIndex) (V : ValCtx) (E : ExtensionKind)
  (S_ : Z) (r : list VariableGEPIndex) :
  subtractScale Dest V E S_ = Some r ->
  (V, E) ∈ indexKeys Dest /\ indexKeys r `sublist_of` indexKeys Dest.
Proof.
  revert r. induction Dest as [|d Dest IH]; intros r; cbn [subtractScale]; [discriminate |].
  destruct (bool_decide (VC d <> V) || bool_decide (Extension d <> E)) eqn:Hk.
  - destruct (subtractScale Dest V E S_) as [r' |]; [| discriminate].
    intros [= <-]. destruct (IH r' eq_refl) as [Hin Hsub].
    split; [now apply list_elem_of_further |]. cbn. now apply sublist_skip.
  - apply orb_false_iff in Hk as [H1 H2].
    apply bool_decide_eq_false in H1, H2.
    assert (HV : VC d = V) by (destruct (decide (VC d = V)); tauto).
    assert (HE : Extension d = E) by (destruct (decide (Extension d = E)); tauto).
    destruct (bool_decide (Scale d <> S_)); intros [= <-];
      (split; [cbn; rewrite HV, HE; apply list_elem_of_here |]); cbn.
    + reflexivity.
    + apply sublist_cons. reflexivity.
Qed.

Lemma subtractScale_None (Dest : list VariableGEPIndex) (V : ValCtx) (E : ExtensionKind)
  (S_ : Z) :
  subtractScale Dest V E S_ = None -> (V, E) ∉ indexKeys Dest.
Proof.
  induction Dest as [|d Dest IH]; cbn [subtractScale]; [intros _; apply not_elem_of_nil |].
  destruct (bool_decide (VC d <> V) || bool_decide (Extension d <> E)) eqn:Hk.
  - destruct (subtractScale Dest V E S_) as [r' |]; [discriminate |].
    intros _. cbn. apply not_elem_of_cons. split; [| now apply IH].
    intros [= HV HE]. apply orb_true_iff in Hk as [Hk | Hk];
      apply bool_decide_eq_true in Hk; congruence.
  - destruct (bool_decide (Scale d <> S_)); discriminate.
Qed.

Lemma subtractScale_scales (Dest : list VariableGEPIndex) (V : ValCtx) (E : ExtensionKind)
  (S_ : Z) (r : list VariableGEPIndex) :
  (- 2 ^ 63 <= S_ < 2 ^ 63)%Z ->
  scalesInRange Dest -> scalesNonZero Dest ->
  subtractScale Dest V E S_ = Some r ->
  scalesInRange r /\ scalesNonZero r.
Proof.
  intros HS. revert r. induction Dest as [|d Dest IH]; intros r Hr Hz;
    cbn [subtractScale]; [discriminate |].
  apply Forall_cons in Hr as [Hr1 Hr], Hz as [Hz1 Hz].
  destruct (bool_decide (VC d <> V) || bool_decide (Extension d <> E)).
  - destruct (subtractScale Dest V E S_) as [r' |]; [| discriminate].
    intros [= <-]. destruct (IH r' Hr Hz eq_refl). split; now apply Forall_cons.
  - destruct (bool_decide_reflect (Scale d <> S_)) as [Hne | _]; intros [= <-].
    + split; apply Forall_cons; (split; [| assumption]); cbn [Scale].
      * apply int64_range.
      * intros H0. apply int64_zero in H0; lia.
    + now split.
Qed.

Lemma GetIndexDifference_self (l : list VariableGEPIndex) : GetIndexDifference l l = [].
Proof.
  induction l as [|d l IH]; [reflexivity |].
  unfold GetIndexDifference in *. cbn [fold_left subtractScale].
  rewrite !bool_decide_false by tauto. cbn [orb]. exact IH.
Qed.

(** X16. [GetIndexDifference] subtracts: whatever values the index
    variables take, the offset that [Dest] stands for afterwards is, in
    64-bit arithmetic, the offset it stood for before minus the offset of
    [Src]; subtracting nothing changes nothing, and subtracting a list
    from itself leaves no index. *)
Theorem GetIndexDifference_subtracts (rho : ValCtx -> ExtensionKind -> Z)
  (Dest Src : list VariableGEPIndex) :
  (indexOffset rho (GetIndexDifference Dest Src) mod 2 ^ 64
   = (indexOffset rho Dest - indexOffset rho Src) mod 2 ^ 64)%Z
  /\ GetIndexDifference Dest [] = Dest
  /\ GetIndexDifference Src Src = [].
Proof.
  split; [| split].
  - apply cong64_mod, GetIndexDifference_offset.
  - reflexivity.
  - apply GetIndexDifference_self.
Qed.

(** X17. [GetIndexDifference] keeps the form of the index list that
    [aliasGEP] relies on when it divides by a scale: if no scale of [Dest]
    is zero and no index variable occurs twice in it, the same holds
    afterwards (all scales being [int64_t] values). *)
Theorem GetIndexDifference_keeps_form (Dest Src : list VariableGEPIndex) :
  scalesInRange Src -> scalesInRange Dest -> scalesNonZero Dest ->
  NoDup (indexKeys Dest) ->
  scalesInRange (GetIndexDifference Dest Src)
  /\ scalesNonZero (GetIndexDifference Dest Src)
  /\ NoDup (indexKeys (GetIndexDifference Dest Src)).
Proof.
  revert Dest. induction Src as [|s Src IH]; intros Dest HrS Hr Hz Hnd; [now cbn |].
  apply Forall_cons in HrS as [HrS1 HrS].
  unfold GetIndexDifference in *. cbn [fold_left].
  destruct (subtractScale Dest (VC s) (Extension s) (Scale s)) as [r |] eqn:Hs.
  - destruct (subtractScale_scales _ _ _ _ _ HrS1 Hr Hz Hs) as [Hr' Hz'].
    destruct (subtractScale_keys _ _ _ _ _ Hs) as [_ Hsub].
    apply IH; try assumption. eapply sublist_NoDup; eassumption.
  - destruct (bool_decide_reflect (Scale s <> 0%Z)) as [Hne | _]; [| now apply IH].
    apply IH; try assumption.
    + apply Forall_app. split; [assumption |]. apply Forall_singleton. apply int64_range.
    + apply Forall_app. split; [assumption |]. apply Forall_singleton. cbn [Scale].
      intros H0. apply int64_zero in H0; lia.
    + unfold indexKeys. rewrite map_app. apply NoDup_app. split; [assumption |].
      split; [| apply NoDup_singleton].
      intros x Hx Hin. cbn in Hin. apply list_elem_of_singleton in Hin. subst x.
      now apply (subtractScale_None _ _ _ _ Hs).
Qed.

(** [4 * sext %a] minus [4 * sext %a + 8 * zext %b] is the single index
    [-8 * zext %b]. *)
Lemma GetIndexDifference_keeps_form_witness :
  scalesNonZero (GetIndexDifference [index4] [index4; index8])
  /\ NoDup (indexKeys (GetIndexDifference [index4] [index4; index8])).
Proof.
  destruct (GetIndexDifference_keeps_form [index4] [index4; index8]) as (_ & H1 & H2).
  - repeat constructor; cbn; lia.
  - repeat constructor; cbn; lia.
  - repeat constructor; cbn; lia.
  - apply NoDup_singleton.
  - split; assumption.
Defined.

Lemma removeStrides_nil (off : Z) : removeStrides off [] = off.
Proof. reflexivity. Qed.

(** X18. [aliasGEP] on two GEPs over the same base.  When the base
    pointers must alias, both decompositions reach them and the variable
    indices of the two GEPs are the same, the answer depends on the
    difference [d] of the constant offsets only: must-alias iff [d = 0],
    no-alias iff [d] is not zero and the access of [V1Size] bytes at [d]
    does not meet the access of [V2Size] bytes at 0, may-alias otherwise.
    A GEP that is already in [Visited] is answered may-alias without a
    look at it. *)
Theorem aliasGEP_same_base (E : AliasEnv) (Visited Visited' : gset Value)
  (GEP1 : Value) (C1 : option Ctx) (V2 : ValCtx) (V1Size V2Size : Z)
  (UnderlyingV1 UnderlyingV2 : ValCtx) (off1 off2 : Z)
  (indices : list VariableGEPIndex) :
  ~ GEP1 ∈ Visited ->
  isGEPOperator E V2 = true ->
  aliasCheck E ({[ GEP1 ]} ∪ Visited) UnderlyingV1 UnknownSize UnderlyingV2 UnknownSize
  = (MustAlias, Visited') ->
  DecomposeGEPExpression E (Some GEP1, C1) = (UnderlyingV1, off1, indices) ->
  DecomposeGEPExpression E V2 = (UnderlyingV2, off2, indices) ->
  (- 2 ^ 63 <= off1 - off2 < 2 ^ 63)%Z ->
  let d := (off1 - off2)%Z in
  let r := aliasGEP E Visited (Some GEP1, C1) V1Size V2 V2Size UnderlyingV1 UnderlyingV2 in
  snd r = Visited'
  /\ (fst r = MustAlias <-> d = 0%Z)
  /\ (fst r = NoAlias <-> d <> 0%Z /\ (V2Size <= d \/ d + V1Size <= 0)%Z)
  /\ (fst r = NoAlias ->
      forall x, ~ ((0 <= x < V2Size)%Z /\ (d <= x < d + V1Size)%Z))
  /\ aliasGEP E ({[ GEP1 ]} ∪ Visited) (Some GEP1, C1) V1Size V2 V2Size
       UnderlyingV1 UnderlyingV2
     = (MayAlias, {[ GEP1 ]} ∪ Visited).
Proof.
  intros Hfresh HG Hbase HD1 HD2 Hrange d r.
  assert (Hr : r = (aliasByOffset d [] V1Size V2Size, Visited')).
  { unfold r, aliasGEP. cbn [fst]. rewrite bool_decide_false by assumption.
    rewrite HG, Hbase. cbn [fst snd]. rewrite bool_decide_false by tauto.
    rewrite HD1, HD2. rewrite !bool_decide_false by tauto. cbn [orb].
    now rewrite GetIndexDifference_self, int64_small. }
  assert (Hcases : (fst r = MustAlias <-> d = 0%Z)
                   /\ (fst r = NoAlias
                       <-> d <> 0%Z /\ (V2Size <= d \/ d + V1Size <= 0)%Z)).
  { rewrite Hr. cbn [fst]. unfold aliasByOffset. rewrite removeStrides_nil.
    rewrite (bool_decide_true ([] = [])) by reflexivity. rewrite andb_true_r.
    destruct (bool_decide_reflect (d = 0%Z)) as [H0 | H0].
    - split; [tauto |]. split; [discriminate | tauto].
    - rewrite bool_decide_true by assumption. cbn [andb].
      destruct (Z.leb_spec V2Size d); cbn [orb].
      + split; [split; [discriminate | tauto] |]. split; [intros _; split; [assumption | lia] |].
        reflexivity.
      + destruct (Z.leb_spec d (- V1Size)).
        * split; [split; [discriminate | tauto] |].
          split; [intros _; split; [assumption | lia] | reflexivity].
        * split; [split; [discriminate | tauto] |].
          split; [discriminate | lia]. }
  destruct Hcases as [HM HN].
  split; [now rewrite Hr |]. split; [exact HM |]. split; [exact HN |]. split.
  - intros H x. apply HN in H as [_ H]. lia.
  - unfold aliasGEP. cbn [fst]. rewrite bool_decide_true; [reflexivity |].
    apply elem_of_union_l, elem_of_singleton. reflexivity.
Qed.

(** Four bytes at [%a + 16] and four bytes at [%a] do not alias. *)
Lemma aliasGEP_same_base_witness :
  fst (aliasGEP sameBaseEnv ∅ (make_vc (Instruction 1) 0) 4
         (make_vc (Instruction 2) 0) 4 (make_vc (Argument 0) 0) (make_vc (Argument 0) 0))
  = NoAlias.
Proof.
  destruct (aliasGEP_same_base sameBaseEnv ∅ ({[ Instruction 1 ]} ∪ ∅) (Instruction 1)
              (Some 0)
              (make_vc (Instruction 2) 0) 4 4 (make_vc (Argument 0) 0)
              (make_vc (Argument 0) 0) 16 0 [])
    as (_ & _ & H & _).
  - apply not_elem_of_empty.
  - reflexivity.
  - reflexivity.
  - reflexivity.
  - reflexivity.
  - lia.
  - apply H. lia.
Defined.

Lemma escapedChar_length (c : ascii) : 1 <= length (escapedChar c) <= 6.
Proof. unfold escapedChar. repeat destruct (Ascii.eqb _ _); cbn; lia. Qed.

Lemma escaped_length (s : Str) : length s <= length (escaped s) <= 6 * length s.
Proof.
  induction s as [|c s IH]; [cbn; lia |].
  unfold escaped in *. cbn [flat_map length]. rewrite length_app.
  pose proof (escapedChar_length c). lia.
Qed.

Ltac char_cases c :=
  repeat match goal with
    | |- context [Ascii.eqb c ?x] => destruct (Ascii.eqb_spec c x); [subst c |]
    end.

Lemma escapedChar_plain (c x : ascii) :
  x ∈ escapedChar c ->
  x <> "<"%char /\ x <> ">"%char /\ x <> "034"%char /\ x <> "009"%char.
Proof.
  unfold escapedChar. char_cases c; intros H;
    repeat (apply elem_of_cons in H as [-> | H];
            [repeat split; first [discriminate | assumption] |]);
    now apply elem_of_nil in H.
Qed.

Lemma wrap32_small (z : Z) : (0 <= z < 2 ^ 32)%Z -> wrap32 z = z.
Proof. intros H. unfold wrap32. now apply Z.mod_small. Qed.

Lemma escapeHTML_case_spec (done rest : Str) (c : ascii) :
  (Z.of_nat (length done + length (escapedChar c)) < 2 ^ 32)%Z ->
  escapeHTML_case (done ++ c :: rest) (Z.of_nat (length done))
  = (done ++ escapedChar c ++ rest,
     (Z.of_nat (length done + length (escapedChar c)) - 1)%Z).
Proof.
  intros Hb. unfold escapeHTML_case. rewrite Nat2Z.id.
  rewrite list_lookup_middle by reflexivity.
  revert Hb. unfold escapedChar. unfold string_replace1, string_insert.
  rewrite take_app_length, drop_app_length.
  replace (drop (S (length done)) (done ++ c :: rest)) with rest
    by (rewrite (cons_middle c), app_assoc, drop_app_length'; [reflexivity |];
        rewrite length_app; cbn; lia).
  char_cases c; cbn [length]; intros Hb; rewrite ?wrap32_small by lia; cbn [app];
    f_equal; try lia.
  replace (Z.to_nat (Z.of_nat (length done) + 1)) with (length done + 1) by lia.
  rewrite insert_app_r_alt by lia.
  replace (length done + 1 - length done) with 1 by lia. reflexivity.
Qed.

Lemma escapeHTML_from_spec (rest : Str) :
  forall (done : Str) (fuel : nat),
    length rest <= fuel ->
    (Z.of_nat (length done + length (escaped rest)) < 2 ^ 32)%Z ->
    escapeHTML_from fuel (done ++ rest) (Z.of_nat (length done))
    = Some (done ++ escaped rest).
Proof.
  induction rest as [|c rest IH]; intros done fuel Hf Hb.
  - change (escaped []) with (@nil ascii). rewrite app_nil_r.
    destruct fuel; cbn [escapeHTML_from]; rewrite bool_decide_true by reflexivity;
      reflexivity.
  - destruct fuel as [|fuel]; [cbn in Hf; lia |].
    cbn [escapeHTML_from]. rewrite bool_decide_false
      by (rewrite length_app; cbn; lia).
    cbn [escaped flat_map] in *. rewrite length_app in Hb.
    pose proof (escapedChar_length c).
    rewrite escapeHTML_case_spec by lia. cbn [fst snd].
    rewrite wrap32_small by lia.
    replace (Z.of_nat (length done + length (escapedChar c)) - 1 + 1)%Z
      with (Z.of_nat (length (done ++ escapedChar c)))
      by (rewrite length_app; lia).
    rewrite (app_assoc done). rewrite IH.
    + now rewrite <- !app_assoc.
    + cbn in Hf. lia.
    + rewrite length_app. unfold escaped. lia.
Qed.

Lemma TruncStr_length (str : Str) (maxlen : nat) :
  length (TruncStr str maxlen) <= maxlen + 4.
Proof.
  unfold TruncStr. destruct (decide _); [| lia].
  rewrite length_app, length_take. cbn. lia.
Qed.

Lemma escaped_app (s1 s2 : Str) : escaped (s1 ++ s2) = escaped s1 ++ escaped s2.
Proof. unfold escaped. apply flat_map_app. Qed.

Lemma escaped_plain (s : Str) (x : ascii) :
  x ∈ escaped s ->
  x <> "<"%char /\ x <> ">"%char /\ x <> "034"%char /\ x <> "009"%char.
Proof.
  unfold escaped. intros H. apply list_elem_of_In, in_flat_map in H as (c & _ & H).
  apply list_elem_of_In in H. now apply (escapedChar_plain c).
Qed.

Lemma escaped_TruncStr_length (printed : Str) (maxlen : nat) :
  length (escaped (TruncStr printed maxlen)) <= 6 * maxlen + 4.
Proof.
  unfold TruncStr. destruct (decide _) as [Hlt | Hge].
  - rewrite escaped_app, length_app.
    pose proof (escaped_length (take maxlen printed)) as H.
    rewrite length_take in H. cbn. lia.
  - pose proof (escaped_length printed). lia.
Qed.

(** X19. [escapeHTML] replaces the characters one by one: the in-place
    loop, which edits the string under its own index and skips what it
    has written, returns the concatenation of what [escapedChar] gives
    for each character of the argument (the result being shorter than
    [2^32] characters, so that the [unsigned] index does not wrap). *)
Theorem escapeHTML_chars (s : Str) :
  (Z.of_nat (length (escaped s)) < 2 ^ 32)%Z ->
  escapeHTML s = Some (escaped s)
  /\ length s <= length (escaped s) <= 6 * length s.
Proof.
  intros Hb. split; [| apply escaped_length].
  exact (escapeHTML_from_spec s [] (length s) (le_n _) Hb).
Qed.

(** X20. What [describeBlockAsDOT] writes into a table cell: the printed
    value is cut first and escaped afterwards, so the cell holds whole
    entities only, at most [6 * 500 + 4] characters for a value and
    [6 * 400 + 4] for the right-hand column, and none of the characters
    [<], [>], the double quote and the tabulator. *)
Theorem escapeHTMLValue_bounded (printed : Str) :
  (exists out,
      escapeHTMLValue printed = Some out
      /\ out = escaped (TruncStr printed 500)
      /\ length out <= 3004
      /\ forall x, x ∈ out ->
           x <> "<"%char /\ x <> ">"%char /\ x <> "034"%char /\ x <> "009"%char)
  /\ (exists out,
        escapedRHS printed = Some out
        /\ out = escaped (TruncStr printed 400)
        /\ length out <= 2404
        /\ forall x, x ∈ out ->
             x <> "<"%char /\ x <> ">"%char /\ x <> "034"%char /\ x <> "009"%char).
Proof.
  split.
  - pose proof (escaped_TruncStr_length printed 500) as Hl.
    exists (escaped (TruncStr printed 500)). split; [| split; [reflexivity | split]].
    + apply (escapeHTML_from_spec _ [] _ (le_n _)). cbn [length Nat.add]. lia.
    + lia.
    + apply escaped_plain.
  - pose proof (escaped_TruncStr_length printed 400) as Hl.
    exists (escaped (TruncStr printed 400)). split; [| split; [reflexivity | split]].
    + apply (escapeHTML_from_spec _ [] _ (le_n _)). cbn [length Nat.add]. lia.
    + lia.
    + apply escaped_plain.
Qed.

(** X21. [TruncStr] keeps the first [maxlen] characters: the result has
    at most [maxlen + 4] characters, agrees with the argument on the first
    [maxlen], is the argument itself when that is short enough, and
    cutting it again changes nothing. *)
Theorem TruncStr_cut (str : Str) (maxlen : nat) :
  length (TruncStr str maxlen) <= maxlen + 4
  /\ take maxlen (TruncStr str maxlen) = take maxlen str
  /\ (length str <= maxlen -> TruncStr str maxlen = str)
  /\ (maxlen < length str -> length (TruncStr str maxlen) = maxlen + 4)
  /\ TruncStr (TruncStr str maxlen) maxlen = TruncStr str maxlen.
Proof.
  split; [apply TruncStr_length |]. unfold TruncStr.
  destruct (decide (maxlen < length str)) as [Hlt | Hge].
  - assert (Hlen : length (take maxlen str) = maxlen) by (rewrite length_take; lia).
    split; [| split; [lia | split]].
    + rewrite take_app_le by lia. rewrite take_take. f_equal. lia.
    + intros _. rewrite length_app, Hlen. reflexivity.
    + rewrite decide_True by (rewrite length_app, Hlen; cbn; lia).
      rewrite take_app_le by lia. rewrite take_take. do 2 f_equal. lia.
  - split; [reflexivity | split; [reflexivity | split; [lia |]]].
    now rewrite decide_False by assumption.
Qed.

(** A name of five characters cut to three, and one left as it is. *)
Lemma TruncStr_cut_witness :
  length (TruncStr ["e"; "n"; "t"; "r"; "y"]%char 3) = 7
  /\ TruncStr ["e"; "n"; "t"; "r"; "y"]%char 5 = ["e"; "n"; "t"; "r"; "y"]%char.
Proof.
  destruct (TruncStr_cut ["e"; "n"; "t"; "r"; "y"]%char 3) as (_ & _ & _ & Hlong & _).
  destruct (TruncStr_cut ["e"; "n"; "t"; "r"; "y"]%char 5) as (_ & _ & Hshort & _).
  split; [apply Hlong; cbn; lia | apply Hshort; cbn; lia].
Defined.

Lemma escapeHTML_chars_witness :
  escapeHTML ["a"; "<"; "009"; "&"; "092"; "034"; ">"; "z"]%char
  = Some (escaped ["a"; "<"; "009"; "&"; "092"; "034"; ">"; "z"]%char).
Proof.
  apply (escapeHTML_chars ["a"; "<"; "009"; "&"; "092"; "034"; ">"; "z"]%char).
  vm_compute. reflexivity.
Defined.
